(** * ProjectLoW music engine: a shallow embedding of [main.run_engine]

    The engine of [src/main.py] loads a library of three-track sets from
    the [sets] folder, starts a random set, and then polls one key: every
    press moves the active set through the states 1, 2, 3 and, after state
    3, to a randomly drawn set.  Everything the engine does to the outside
    world (printing, the pygame mixer channel, the keyboard, the host
    callback, the stop event) is recorded as a trace of [Event]s; what the
    outside world answers (file system contents, what the mixer channel
    holds when the run starts, key samples, random draws, the behaviour
    of the callback) is an input of the model. *)

From Stdlib Require Import List String Ascii ZArith Lia Bool Arith PeanoNat.
From Stdlib Require Import Sorting.Permutation Sorting.Sorted Sorting.Mergesort.
From Stdlib Require Orders.
Import ListNotations.

Local Open Scope string_scope.
Local Open Scope list_scope.
Local Open Scope nat_scope.

(* ------------------------------------------------------------------ *)
(** ** Strings: the fragment of Python's [str] the engine uses          *)
(* ------------------------------------------------------------------ *)

(** File names are byte strings (UTF-8).  [lower] and [upper] are
    [str.lower] and [str.upper] on strings of ASCII characters
    ([is_ascii]), where they agree with Python on every string; on other
    strings Python also maps letters outside ASCII (U+212A lowers to
    "k"), which these functions leave alone.  The engine compares the
    lowered file name against the suffixes ".wav" and ".ogg", and no
    character outside ASCII lowers to a letter of these, so that test is
    the same for every name.  Where a statement depends on the case
    mapping of other strings, it asks for [is_ascii]. *)
Definition is_ascii (s : string) : bool :=
  forallb (fun c => nat_of_ascii c <? 128) (list_ascii_of_string s).

Definition lower_ascii (c : ascii) : ascii :=
  let n := nat_of_ascii c in
  if (65 <=? n) && (n <=? 90) then ascii_of_nat (n + 32) else c.

Definition upper_ascii (c : ascii) : ascii :=
  let n := nat_of_ascii c in
  if (97 <=? n) && (n <=? 122) then ascii_of_nat (n - 32) else c.

Fixpoint lower (s : string) : string :=
  match s with
  | EmptyString => EmptyString
  | String c r => String (lower_ascii c) (lower r)
  end.

Fixpoint upper (s : string) : string :=
  match s with
  | EmptyString => EmptyString
  | String c r => String (upper_ascii c) (upper r)
  end.

(** [s.endswith(suffix)] *)
Definition endswith (s suffix : string) : bool :=
  let n := String.length s in
  let k := String.length suffix in
  (k <=? n) && String.eqb (substring (n - k) k s) suffix.

(** [os.path.join] on two relative components. *)
Definition path_join (a b : string) : string :=
  String.append a (String.append "/" b).

(** Python compares [str] values lexicographically by code point, which on
    UTF-8 byte strings is the byte-wise lexicographic order [String.leb].
    [list.sort] is a stable merge sort; on a total antisymmetric order the
    sorted permutation is unique, so the library merge sort returns the
    same list. *)
Module StringOrder <: Orders.TotalLeBool.
Definition t := string.
Definition leb := String.leb.
Definition leb_total : forall x y, leb x y = true \/ leb y x = true :=
  String.leb_total.
End StringOrder.

Module StringSort := Sort StringOrder.

Definition sort (l : list string) : list string := StringSort.sort l.

(* ------------------------------------------------------------------ *)
(** ** Python dictionaries with string keys, in insertion order         *)
(* ------------------------------------------------------------------ *)

Section Dict.
Context {V : Type}.

Definition dict := list (string * V).

(** [d[k]]; [None] stands for [KeyError]. *)
Fixpoint dict_get (k : string) (d : dict) : option V :=
  match d with
  | [] => None
  | (k', v) :: r => if String.eqb k k' then Some v else dict_get k r
  end.

(** [d[k] = v]: an existing key keeps its position, a new one goes last. *)
Fixpoint dict_set (k : string) (v : V) (d : dict) : dict :=
  match d with
  | [] => [(k, v)]
  | (k', v') :: r =>
      if String.eqb k k' then (k', v) :: r else (k', v') :: dict_set k v r
  end.

(** [list(d.keys())] *)
Definition keys (d : dict) : list string := map fst d.

End Dict.
Arguments dict V : clear implicits.

(** [k in names] *)
Definition mem (k : string) (names : list string) : bool :=
  existsb (String.eqb k) names.

(** [names.remove(k)]: drops the first occurrence. *)
Fixpoint list_remove (k : string) (names : list string) : list string :=
  match names with
  | [] => []
  | n :: r => if String.eqb k n then r else n :: list_remove k r
  end.

(* ------------------------------------------------------------------ *)
(** ** Sounds, messages, events                                         *)
(* ------------------------------------------------------------------ *)

(** A [pygame.mixer.Sound] is an opaque handle; it is identified by the
    path it was loaded from. *)
Inductive Sound : Type :=
| SoundOf (full_path : string).

(** Python exceptions that can leave a closure.  The last four are not
    of class [Exception]. *)
Inductive PyExn : Type :=
| KeyError (k : string)
| IndexError
| KeyboardInterrupt
| SystemExit
| GeneratorExit
| OtherBaseException (name : string).

(** The exceptions that are not of class [Exception]: the three built-in
    ones, and any other class derived from [BaseException] alone. *)
Inductive BaseExn : Type :=
| Base_KeyboardInterrupt
| Base_SystemExit
| Base_GeneratorExit
| Base_other (name : string).

Definition exn_of (b : BaseExn) : PyExn :=
  match b with
  | Base_KeyboardInterrupt => KeyboardInterrupt
  | Base_SystemExit => SystemExit
  | Base_GeneratorExit => GeneratorExit
  | Base_other name => OtherBaseException name
  end.

(** What a call of the host's [on_step] does: it returns, it raises an
    exception of class [Exception] (the class the engine's handler
    names) with the text [e], or it raises an exception that is not of
    that class, which the handler does not catch. *)
Inductive CallbackResult : Type :=
| Returned
| Raised (e : string)
| Propagated (b : BaseExn).

(** One constructor per [print] of [run_engine], with the values that are
    interpolated in its text. *)
Inductive Message : Type :=
| MsgEngineStarted
| MsgTriggerKey (key : string)
| MsgSetsFolderNotFound (path : string)
| MsgFailedToLoad (full_path : string) (e : string)
| MsgSkippingSet (folder : string) (found : nat)
| MsgNoValidSets
| MsgLoadedSets (names : list string)
| MsgPlaying (set_name : string) (state : Z)
| MsgInvalidState (state : Z) (set_name : string)
| MsgSwitchedToSet (set_name : string)
| MsgToState2 (set_name : string)
| MsgToState3 (set_name : string)
| MsgFinishedSet (old_set new_set : string)
| MsgOnStepError (e : string)
| MsgPressToAdvance (key : string)
| MsgKeyboardInterrupt
| MsgEngineStopped.

(** Observable actions, in program order.  [Enter_advance_state] marks
    a call of the closure [advance_state]; the others are calls into the
    libraries the engine uses, with the answer where there is one. *)
Inductive Event : Type :=
| Print_line (m : Message)
| Mixer_init
| Fadeout (ms : Z)
| Play (sound : Sound) (loops : Z) (fade_ms : Z)
| On_step (r : CallbackResult)
| Stop_is_set (b : bool)
| Is_pressed (key : string) (b : bool)
| Sleep (ms : Z)
| Enter_advance_state.

Definition Trace := list Event.

(* ------------------------------------------------------------------ *)
(** ** Config                                                           *)
(* ------------------------------------------------------------------ *)

(** [resource_path("sets")], relative to the base directory. *)
Definition SETS_PATH : string := "sets".
Definition CROSSFADE_MS : Z := 250.

(* ------------------------------------------------------------------ *)
(** ** Loading the sets                                                 *)
(* ------------------------------------------------------------------ *)

Inductive LoadResult : Type :=
| Loaded
| LoadFailed (e : string).

(** The part of the file system the engine looks at. *)
Record FileSystem : Type := {
  isdir : string -> bool;             (* os.path.isdir *)
  listdir : string -> list string;    (* os.listdir *)
  mixer_Sound : string -> LoadResult  (* pygame.mixer.Sound(path) *)
}.

Definition Library := dict (list Sound).

Definition audio_ext (f : string) : bool :=
  endswith (lower f) ".wav" || endswith (lower f) ".ogg".

(** The inner loop [for f in files[:3]] with its [try]/[except]. *)
Fixpoint load_sounds (fs : FileSystem) (folder_path : string)
  (files : list string) : list Sound * Trace :=
  match files with
  | [] => ([], [])
  | f :: rest =>
      let full_path := path_join folder_path f in
      let '(sounds, tr) := load_sounds fs folder_path rest in
      match mixer_Sound fs full_path with
      | Loaded => (SoundOf full_path :: sounds, tr)
      | LoadFailed e => (sounds, Print_line (MsgFailedToLoad full_path e) :: tr)
      end
  end.

(** What one iteration of [for folder in os.listdir(SETS_PATH)] decides:
    [Some sounds] when the folder becomes a set, [None] otherwise, with
    the lines it prints. *)
Definition scan_folder (fs : FileSystem) (folder : string)
  : option (list Sound) * Trace :=
  let folder_path := path_join SETS_PATH folder in
  if negb (isdir fs folder_path) then (None, [])
  else
    let files := filter audio_ext (listdir fs folder_path) in
    match files with
    | [] => (None, [])
    | _ :: _ =>
        let files := sort files in
        let '(sounds, tr) := load_sounds fs folder_path (firstn 3 files) in
        if List.length sounds =? 3 then (Some sounds, tr)
        else (None, tr ++ [Print_line (MsgSkippingSet folder (List.length sounds))])
    end.

(** The loop over the folders, threading [music_sets]. *)
Fixpoint scan_folders (fs : FileSystem) (folders : list string)
  (music_sets : Library) : Library * Trace :=
  match folders with
  | [] => (music_sets, [])
  | folder :: rest =>
      let '(found, tr) := scan_folder fs folder in
      let music_sets :=
        match found with
        | Some sounds => dict_set folder sounds music_sets
        | None => music_sets
        end in
      let '(music_sets, tr') := scan_folders fs rest music_sets in
      (music_sets, tr ++ tr')
  end.

Definition load_sets (fs : FileSystem) : Library * Trace :=
  scan_folders fs (listdir fs SETS_PATH) [].

(* ------------------------------------------------------------------ *)
(** ** Engine state and the monad of the closures                       *)
(* ------------------------------------------------------------------ *)

(** The [nonlocal] variables of [run_engine] and the mixer channel.
    [current_channel] holds the sound that [Channel(0)] was last given
    and that no [play] has replaced, if any; [get_busy()] is whether
    there is one.  That is what the mixer answers wherever the engine
    asks.  At its first [play_loop_sound] the channel is as the run found
    it, which is an input: [Channel(0)] belongs to the process, not to
    the run.  Afterwards it holds a sound started with [loops=-1], which
    does not end by itself.  [fadeout] only asks the mixer for a fade:
    whether and when the channel then falls silent is the mixer's
    business, and the engine never asks [get_busy()] after a [fadeout]
    that no [play] follows, so the field says nothing about that. *)
Record Engine : Type := {
  current_set_name : option string;
  current_state : Z;
  current_channel : option Sound
}.

(** The state of [run_engine] when the closures are defined, with
    what [Channel(0)] holds at that point. *)
Definition entry_engine (channel : option Sound) : Engine :=
  {| current_set_name := None; current_state := 1;
     current_channel := channel |}.

Inductive Result (A : Type) : Type :=
| Ok (a : A)
| Raise (x : PyExn).
Arguments Ok {A} a.
Arguments Raise {A} x.

(** A computation reads and writes the engine state, appends to the
    trace, and returns or raises. Assignments made before a [raise]
    stay made. *)
Definition Prog (A : Type) : Type := Engine -> Result A * Engine * Trace.

Definition ret {A} (a : A) : Prog A := fun e => (Ok a, e, []).

Definition bind {A B} (c : Prog A) (k : A -> Prog B) : Prog B :=
  fun e =>
    match c e with
    | (Ok a, e1, t1) => let '(r, e2, t2) := k a e1 in (r, e2, t1 ++ t2)
    | (Raise x, e1, t1) => (Raise x, e1, t1)
    end.

Declare Scope prog_scope.
Delimit Scope prog_scope with prog.
Notation "x <- c ;; k" := (bind c (fun x => k))
  (at level 61, c at next level, right associativity) : prog_scope.
Notation "c ;; k" := (bind c (fun _ => k))
  (at level 61, right associativity) : prog_scope.
Local Open Scope prog_scope.

Definition raise {A} (x : PyExn) : Prog A := fun e => (Raise x, e, []).
Definition lift {A} (r : Result A) : Prog A := fun e => (r, e, []).
Definition emit (ev : Event) : Prog unit := fun e => (Ok tt, e, [ev]).
Definition get : Prog Engine := fun e => (Ok e, e, []).

Definition set_current_set_name (n : string) : Prog unit :=
  fun e => (Ok tt, {| current_set_name := Some n;
                      current_state := current_state e;
                      current_channel := current_channel e |}, []).

Definition set_current_state (s : Z) : Prog unit :=
  fun e => (Ok tt, {| current_set_name := current_set_name e;
                      current_state := s;
                      current_channel := current_channel e |}, []).

(** *** The three methods of [pygame.mixer.Channel] the engine calls *)

Definition get_busy : Prog bool :=
  fun e =>
    (Ok (match current_channel e with Some _ => true | None => false end),
     e, []).

(** [fadeout(ms)]: the call starts a fade and returns; the channel is
    as busy after the call as before. *)
Definition fadeout (ms : Z) : Prog unit := emit (Fadeout ms).

(** [play(sound, loops, fade_ms)]: the sound takes the channel. *)
Definition play (sound : Sound) (loops fade_ms : Z) : Prog unit :=
  fun e => (Ok tt, {| current_set_name := current_set_name e;
                      current_state := current_state e;
                      current_channel := Some sound |},
            [Play sound loops fade_ms]).

(* ------------------------------------------------------------------ *)
(** ** The closures of [run_engine]                                     *)
(* ------------------------------------------------------------------ *)

(** What the outside world answers during one call of [advance_state]:
    the number [random.choice] draws from (it indexes the list at
    [draw mod len]), and what [on_step()] does if it is called. *)
Record Answers : Type := {
  draw : nat;
  notify : CallbackResult
}.

(** One pass of [while True]: what the stop event and the keyboard
    answer, and what the world answers if [advance_state] runs; or a
    Ctrl+C arriving at the top of the pass. *)
Inductive Tick : Type :=
| Poll (stop_is_set is_pressed : bool) (a : Answers)
| Interrupt.

(** How a finite run of the loop ends: by [break], or with the samples
    used up and the loop still polling (with its latch). *)
Inductive LoopEnd : Type :=
| Broke
| Polling (key_held : bool).

Section Closures.

Variable music_sets : Library.
(** [on_step is not None] *)
Variable on_step : bool.

Definition play_loop_sound (sound : Sound) : Prog unit :=
  busy <- get_busy ;;
  (if busy : bool then fadeout CROSSFADE_MS else ret tt) ;;
  play sound (-1) CROSSFADE_MS.

Definition play_current_state : Prog unit :=
  e <- get ;;
  match current_set_name e with
  | None => ret tt
  | Some name =>
      match dict_get name music_sets with
      | None => raise (KeyError name)
      | Some sounds =>
          let index := (current_state e - 1)%Z in
          if ((0 <=? index)%Z && (index <? Z.of_nat (List.length sounds))%Z)%bool
          then
            match nth_error sounds (Z.to_nat index) with
            | Some sound =>
                emit (Print_line (MsgPlaying name (current_state e))) ;;
                play_loop_sound sound
            | None => raise IndexError
            end
          else emit (Print_line (MsgInvalidState (current_state e) name))
      end
  end.

(** [random.choice(names)] is [names[randbelow(len(names))]]; an empty
    list raises [IndexError]. *)
Definition random_choice (d : nat) (names : list string) : Result string :=
  match nth_error names (d mod List.length names) with
  | Some n => Ok n
  | None => Raise IndexError
  end.

Definition choose_random_set (exclude : option string) (d : nat)
  : Result string :=
  let names := keys music_sets in
  let names :=
    match exclude with
    | Some x =>
        if (mem x names && (1 <? List.length names))%bool
        then list_remove x names
        else names
    | None => names
    end in
  random_choice d names.

Definition start_set (set_name : string) : Prog unit :=
  set_current_set_name set_name ;;
  set_current_state 1 ;;
  emit (Print_line (MsgSwitchedToSet set_name)) ;;
  play_current_state.

Definition notify_host (r : CallbackResult) : Prog unit :=
  if on_step then
    emit (On_step r) ;;
    match r with
    | Returned => ret tt
    | Raised e => emit (Print_line (MsgOnStepError e))
    | Propagated b => raise (exn_of b)
    end
  else ret tt.

Definition advance_state (a : Answers) : Prog unit :=
  emit Enter_advance_state ;;
  e <- get ;;
  match current_set_name e with
  | None => ret tt
  | Some name =>
      (if (current_state e =? 1)%Z then
         set_current_state 2 ;;
         emit (Print_line (MsgToState2 name)) ;;
         play_current_state
       else if (current_state e =? 2)%Z then
         set_current_state 3 ;;
         emit (Print_line (MsgToState3 name)) ;;
         play_current_state
       else if (current_state e =? 3)%Z then
         new_set <- lift (choose_random_set (Some name) (draw a)) ;;
         emit (Print_line (MsgFinishedSet name new_set)) ;;
         start_set new_set
       else
         set_current_state 1 ;;
         play_current_state) ;;
      notify_host (notify a)
  end.

(** *** The main loop *)

Variable trigger_key : string.
(** [stop_event is not None] *)
Variable stop_event : bool.

(** [stop_event is not None and stop_event.is_set()] *)
Definition stop_requested (stop_is_set : bool) : Prog bool :=
  if stop_event then emit (Stop_is_set stop_is_set) ;; ret stop_is_set
  else ret false.

(** The body of the loop after the stop check; returns the new latch. *)
Definition poll_key (is_pressed : bool) (a : Answers) (key_held : bool)
  : Prog bool :=
  emit (Is_pressed trigger_key is_pressed) ;;
  key_held <- (if is_pressed then
                 if negb key_held then advance_state a ;; ret true
                 else ret key_held
               else ret false) ;;
  emit (Sleep 20) ;;
  ret key_held.

Fixpoint main_loop (ticks : list Tick) (key_held : bool) : Prog LoopEnd :=
  match ticks with
  | [] => ret (Polling key_held)
  | Interrupt :: _ => raise KeyboardInterrupt
  | Poll stop_is_set is_pressed a :: rest =>
      stop <- stop_requested stop_is_set ;;
      if stop : bool then ret Broke
      else
        key_held <- poll_key is_pressed a key_held ;;
        main_loop rest key_held
  end.

(** The [finally] block. *)
Definition shutdown : Prog unit :=
  busy <- get_busy ;;
  (if busy : bool then fadeout 500 ;; emit (Sleep 500) else ret tt) ;;
  emit (Print_line MsgEngineStopped).

End Closures.

(* ------------------------------------------------------------------ *)
(** ** [run_engine]                                                     *)
(* ------------------------------------------------------------------ *)

(** Everything [run_engine] asks of the outside world.  The mixer of the
    process may have been initialised, and its channel 0 used, by an
    earlier run. *)
Record World : Type := {
  mixer_ready : bool;       (* pygame.mixer.get_init() *)
  channel_at_entry : option Sound;  (* what Channel(0) holds, if ready *)
  files : FileSystem;
  first_draw : nat;         (* the draw of the first choose_random_set() *)
  ticks : list Tick         (* the passes of the main loop *)
}.

(** The ways a run ends.  The loop has no exit of its own, so a finite
    list of ticks that never stops it ends in [Running]. *)
Inductive Outcome : Type :=
| No_sets_folder                    (* [return]: sets folder not found *)
| No_valid_sets                     (* [return]: no valid sets found *)
| Stopped (e : Engine)              (* end of the function, after [finally] *)
| Escaped (x : PyExn) (e : Engine)  (* an exception leaves [run_engine] *)
| Running (key_held : bool) (e : Engine).

(** The engine state at entry: a mixer that the run has to initialise
    has nothing on its channels. *)
Definition initial_engine (w : World) : Engine :=
  entry_engine (if mixer_ready w then channel_at_entry w else None).

Definition run_engine (trigger_key : string) (on_step stop_event : bool)
  (w : World) : Outcome * Trace :=
  let t0 := (if mixer_ready w then [] else [Mixer_init])
            ++ [Print_line MsgEngineStarted;
                Print_line (MsgTriggerKey (upper trigger_key))] in
  if negb (isdir (files w) SETS_PATH) then
    (No_sets_folder, t0 ++ [Print_line (MsgSetsFolderNotFound SETS_PATH)])
  else
    let '(music_sets, t1) := load_sets (files w) in
    match music_sets with
    | [] => (No_valid_sets, t0 ++ t1 ++ [Print_line MsgNoValidSets])
    | _ :: _ =>
        let t2 := [Print_line (MsgLoadedSets (keys music_sets))] in
        let start :=
          set_name <- lift (choose_random_set music_sets None (first_draw w)) ;;
          start_set music_sets set_name ;;
          emit (Print_line (MsgPressToAdvance (upper trigger_key))) in
        match start (initial_engine w) with
        | (Raise x, e, t3) => (Escaped x e, t0 ++ t1 ++ t2 ++ t3)
        | (Ok _, e, t3) =>
            let loop :=
              main_loop music_sets on_step trigger_key stop_event
                (ticks w) false in
            match loop e with
            | (Ok (Polling key_held), e, t4) =>
                (Running key_held e, t0 ++ t1 ++ t2 ++ t3 ++ t4)
            | (Ok Broke, e, t4) =>
                let '(_, e, t5) := shutdown e in
                (Stopped e, t0 ++ t1 ++ t2 ++ t3 ++ t4 ++ t5)
            | (Raise KeyboardInterrupt, e, t4) =>
                let '(_, e, t5) :=
                  (emit (Print_line MsgKeyboardInterrupt) ;; shutdown) e in
                (Stopped e, t0 ++ t1 ++ t2 ++ t3 ++ t4 ++ t5)
            | (Raise x, e, t4) =>
                let '(_, e, t5) := shutdown e in
                (Escaped x e, t0 ++ t1 ++ t2 ++ t3 ++ t4 ++ t5)
            end
        end
    end.

(* ------------------------------------------------------------------ *)
(** ** A small world to run the engine in                               *)
(* ------------------------------------------------------------------ *)

Definition two_sets_fs : FileSystem :=
  {| isdir := fun p => mem p ["sets"; "sets/A"; "sets/B"; "sets/C"];
     listdir := fun p =>
       if String.eqb p "sets" then ["A"; "notes.txt"; "B"; "C"]
       else if String.eqb p "sets/A"
            then ["a3.ogg"; "a1.wav"; "cover.png"; "a2.WAV"]
       else if String.eqb p "sets/B"
            then ["b2.wav"; "b1.wav"; "b4.wav"; "b3.wav"]
       else if String.eqb p "sets/C" then ["c1.wav"; "c2.wav"]
       else [];
     mixer_Sound := fun _ => Loaded |}.

Definition press (d : nat) : Tick :=
  Poll false true {| draw := d; notify := Returned |}.
Definition hold : Tick :=
  Poll false true {| draw := 0; notify := Returned |}.
Definition release : Tick :=
  Poll false false {| draw := 0; notify := Returned |}.
Definition stop_now : Tick :=
  Poll true false {| draw := 0; notify := Returned |}.

Definition demo_world : World :=
  {| mixer_ready := false; channel_at_entry := None;
     files := two_sets_fs; first_draw := 0;
     ticks := [press 0; hold; release; press 0; release; press 0; release;
               press 0; stop_now] |}.

(** A folder with four recognized files, the first of which is corrupt. *)
Definition corrupt_first_fs : FileSystem :=
  {| isdir := fun p => mem p ["sets"; "sets/X"];
     listdir := fun p =>
       if String.eqb p "sets" then ["X"]
       else if String.eqb p "sets/X" then ["1.wav"; "2.wav"; "3.wav"; "4.wav"]
       else [];
     mixer_Sound := fun p =>
       if String.eqb p "sets/X/1.wav" then LoadFailed "bad header" else Loaded |}.

(** A set folder that holds no audio file, next to a good one. *)
Definition no_audio_fs : FileSystem :=
  {| isdir := fun p => mem p ["sets"; "sets/E"; "sets/G"];
     listdir := fun p =>
       if String.eqb p "sets" then ["E"; "G"]
       else if String.eqb p "sets/E" then ["readme.txt"]
       else if String.eqb p "sets/G" then ["1.wav"; "2.wav"; "3.wav"]
       else [];
     mixer_Sound := fun _ => Loaded |}.

(** A second run in the same process: the mixer is initialised, and the
    channel still holds the track the first run ended on. *)
Definition restart_world : World :=
  {| mixer_ready := true;
     channel_at_entry := Some (SoundOf "sets/B/b2.wav");
     files := two_sets_fs; first_draw := 1;
     ticks := [press 0; release; stop_now] |}.

(** A world whose only set folder is rejected. *)
Definition no_set_world : World :=
  {| mixer_ready := true; channel_at_entry := None;
     files := corrupt_first_fs; first_draw := 0;
     ticks := [press 0; stop_now] |}.

Definition demo_library : Library := fst (load_sets two_sets_fs).

(** The engine on set "A" in a given state, with its track playing. *)
Definition demo_engine (state : Z) (track : string) : Engine :=
  {| current_set_name := Some "A";
     current_state := state;
     current_channel := Some (SoundOf track) |}.

Definition quiet_answers (d : nat) : Answers :=
  {| draw := d; notify := Returned |}.


(** The callback ends the process: [sys.exit()] raises [SystemExit]. *)
Definition exiting_answers (d : nat) : Answers :=
  {| draw := d; notify := Propagated Base_SystemExit |}.

(** A world in which the first press meets such a callback. *)
Definition exit_world : World :=
  {| mixer_ready := false; channel_at_entry := None;
     files := two_sets_fs; first_draw := 0;
     ticks := [Poll false true (exiting_answers 0); release; press 0] |}.



(** A press that is held over two samples, a release, a second press. *)
Definition demo_ticks : list Tick :=
  [press 0; hold; release; press 0; stop_now; press 0].

(* ------------------------------------------------------------------ *)
(** ** Vocabulary of the properties                                     *)
(* ------------------------------------------------------------------ *)

(** A library as the loader leaves it: distinct names, three tracks each. *)
Definition lib_ok (lib : Library) : Prop :=
  NoDup (keys lib)
  /\ forall n sounds, dict_get n lib = Some sounds -> List.length sounds = 3.

(** *** Set folders *)

Definition folder_path_of (folder : string) : string :=
  path_join SETS_PATH folder.

(** The files of a folder with a recognized extension, as listed. *)
Definition recognized (fs : FileSystem) (folder : string) : list string :=
  filter audio_ext (listdir fs (folder_path_of folder)).

Definition loads (fs : FileSystem) (folder f : string) : bool :=
  match mixer_Sound fs (path_join (folder_path_of folder) f) with
  | Loaded => true
  | LoadFailed _ => false
  end.

(** The valid audio files of a folder: recognized extension and loadable. *)
Definition valid_files (fs : FileSystem) (folder : string) : list string :=
  filter (loads fs folder) (recognized fs folder).

(** The files the engine tries: the first three in filename order. *)
Definition selected (fs : FileSystem) (folder : string) : list string :=
  firstn 3 (sort (recognized fs folder)).

Definition sound_in (folder f : string) : Sound :=
  SoundOf (path_join (folder_path_of folder) f).

Definition filename_le (a b : string) : Prop := String.leb a b = true.

(** A scanned candidate: a directory listed under the root. *)
Definition candidate (fs : FileSystem) (folder : string) : Prop :=
  In folder (listdir fs SETS_PATH) /\ isdir fs (folder_path_of folder) = true.

(** C2 as the specification words it, at one folder. *)
Definition at_least_three_valid_gives_set (fs : FileSystem) (folder : string)
  : Prop :=
  candidate fs folder ->
  3 <= List.length (valid_files fs folder) ->
  exists names,
    dict_get folder (fst (load_sets fs)) = Some (map (sound_in folder) names)
    /\ List.length names = 3
    /\ Sorted filename_le names.

(** C9 as the specification words it, at one folder. *)
Definition rejected_is_warned (fs : FileSystem) (folder : string) : Prop :=
  candidate fs folder ->
  dict_get folder (fst (load_sets fs)) = None ->
  exists n, In (Print_line (MsgSkippingSet folder n)) (snd (load_sets fs)).


(** *** Traces *)

(** Events of the closures: printing, the channel and the callback. *)
Definition engine_event (ev : Event) : bool :=
  match ev with
  | Print_line _ | Fadeout _ | Play _ _ _ | On_step _ => true
  | _ => false
  end.

(** The sounds started, in order. *)
Fixpoint played (tr : Trace) : list Sound :=
  match tr with
  | [] => []
  | Play sound _ _ :: r => sound :: played r
  | _ :: r => played r
  end.

(** The calls of [on_step], in order. *)
Fixpoint notified (tr : Trace) : list CallbackResult :=
  match tr with
  | [] => []
  | On_step r :: t => r :: notified t
  | _ :: t => notified t
  end.

(** The number of calls of [advance_state] before the next key sample. *)
Fixpoint calls_before_sample (tr : Trace) : nat :=
  match tr with
  | [] => 0
  | Is_pressed _ _ :: _ => 0
  | Enter_advance_state :: r => S (calls_before_sample r)
  | _ :: r => calls_before_sample r
  end.

(** The key samples of a trace, each with the number of calls of
    [advance_state] made after it and before the next sample. *)
Fixpoint calls_by_sample (tr : Trace) : list (bool * nat) :=
  match tr with
  | [] => []
  | Is_pressed _ b :: r => (b, calls_before_sample r) :: calls_by_sample r
  | _ :: r => calls_by_sample r
  end.

(** The total number of calls of [advance_state]. *)
Fixpoint calls (tr : Trace) : nat :=
  match tr with
  | [] => 0
  | Enter_advance_state :: r => S (calls r)
  | _ :: r => calls r
  end.

(** What edge triggering asks for: one call at a sample that finds the key
    down after it was up, none at any other sample.  [key_held] is the key
    at the sample before. *)
Fixpoint edge_calls (key_held : bool) (samples : list bool)
  : list (bool * nat) :=
  match samples with
  | [] => []
  | b :: r => (b, if (b && negb key_held)%bool then 1 else 0) :: edge_calls b r
  end.

(** The number of continuous presses in a run of samples. *)
Fixpoint presses (key_held : bool) (samples : list bool) : nat :=
  match samples with
  | [] => 0
  | b :: r => (if (b && negb key_held)%bool then 1 else 0) + presses b r
  end.

(** *** The state machine *)

(** The events of a crossfade from whatever the channel holds. *)
Definition crossfade (channel : option Sound) (sound : Sound) : Trace :=
  match channel with
  | None => [Play sound (-1) CROSSFADE_MS]
  | Some _ => [Fadeout CROSSFADE_MS; Play sound (-1) CROSSFADE_MS]
  end.

(** The state after a key press. *)
Definition next_state (s : Z) : Z :=
  if (s =? 1)%Z then 2%Z else if (s =? 2)%Z then 3%Z else 1%Z.

(** The events of the call of the callback, if there is one. *)
Definition notify_events (on_step : bool) (r : CallbackResult) : Trace :=
  if on_step then
    On_step r :: match r with
                 | Returned => []
                 | Raised e => [Print_line (MsgOnStepError e)]
                 | Propagated _ => []
                 end
  else [].

(** How the call of the callback, if there is one, ends: an exception
    that is not of class [Exception] leaves [advance_state]. *)
Definition notify_result (on_step : bool) (r : CallbackResult)
  : Result unit :=
  if on_step then
    match r with
    | Propagated b => Raise (exn_of b)
    | _ => Ok tt
    end
  else Ok tt.

(** How a call of [advance_state] ends when its lookups succeed: the
    callback is only called once a set is chosen. *)
Definition advance_result (on_step : bool) (a : Answers) (e : Engine)
  : Result unit :=
  match current_set_name e with
  | None => Ok tt
  | Some _ => notify_result on_step (notify a)
  end.

(** The branch of [advance_state] on the state [e] it reads. *)
Definition transition (music_sets : Library) (a : Answers) (name : string)
  (e : Engine) : Prog unit :=
  if (current_state e =? 1)%Z then
    set_current_state 2 ;;
    emit (Print_line (MsgToState2 name)) ;;
    play_current_state music_sets
  else if (current_state e =? 2)%Z then
    set_current_state 3 ;;
    emit (Print_line (MsgToState3 name)) ;;
    play_current_state music_sets
  else if (current_state e =? 3)%Z then
    new_set <- lift (choose_random_set music_sets (Some name) (draw a)) ;;
    emit (Print_line (MsgFinishedSet name new_set)) ;;
    start_set music_sets new_set
  else
    set_current_state 1 ;;
    play_current_state music_sets.

(** A computation that only prints, uses the channel and calls back. *)
Definition quiet {A} (c : Prog A) : Prop :=
  forall e, Forall (fun ev => engine_event ev = true) (snd (c e)).

(** [advance_state] called once for each answer of the list. *)
Fixpoint advances (music_sets : Library) (on_step : bool)
  (answers : list Answers) : Prog unit :=
  match answers with
  | [] => ret tt
  | a :: rest =>
      advance_state music_sets on_step a ;;
      advances music_sets on_step rest
  end.




(** The "Invalid state" line of [play_current_state]. *)
Definition reports_invalid_state (ev : Event) : bool :=
  match ev with
  | Print_line (MsgInvalidState _ _) => true
  | _ => false
  end.

(** The invariant of the engine state: the state is 1, 2 or 3, and the
    active set, once chosen, is a set of the library with three tracks. *)
Definition inv (lib : Library) (e : Engine) : Prop :=
  (current_state e = 1 \/ current_state e = 2 \/ current_state e = 3)%Z
  /\ forall n, current_set_name e = Some n ->
               exists sounds, dict_get n lib = Some sounds
                              /\ List.length sounds = 3.

(** The engine states [run_engine] can be in, whatever the channel
    holds at entry: the one the closures are defined in, the one after
    the first [start_set(choose_random_set())], and those after a call
    of [advance_state]. *)
Inductive reachable (lib : Library) (on_step : bool) : Engine -> Prop :=
| reachable_initial channel : reachable lib on_step (entry_engine channel)
| reachable_start channel d n r e tr :
    choose_random_set lib None d = Ok n ->
    start_set lib n (entry_engine channel) = (r, e, tr) ->
    reachable lib on_step e
| reachable_advance a e0 r e tr :
    reachable lib on_step e0 ->
    advance_state lib on_step a e0 = (r, e, tr) ->
    reachable lib on_step e.

(** An exception that a call of the callback let through, in a trace. *)
Definition let_through (tr : Trace) (x : PyExn) : Prop :=
  exists b, x = exn_of b /\ In (On_step (Propagated b)) tr.

(** The statements of [run_engine] between the loading of the sets and
    the main loop. *)
Definition start_engine (lib : Library) (key : string) (d : nat)
  : Prog unit :=
  set_name <- lift (choose_random_set lib None d) ;;
  start_set lib set_name ;;
  emit (Print_line (MsgPressToAdvance (upper key))).

(** What [run_engine] prints before it looks for the sets folder. *)
Definition banner (key : string) (w : World) : Trace :=
  (if mixer_ready w then [] else [Mixer_init])
  ++ [Print_line MsgEngineStarted; Print_line (MsgTriggerKey (upper key))].

(** How [run_engine] ends once the main loop has ended in [r], in engine
    state [e], after the trace [tr]. *)
Definition finish (r : Result LoopEnd) (e : Engine) (tr : Trace)
  : Outcome * Trace :=
  match r with
  | Ok (Polling key_held) => (Running key_held e, tr)
  | Ok Broke =>
      (Stopped (snd (fst (shutdown e))), tr ++ snd (shutdown e))
  | Raise KeyboardInterrupt =>
      (Stopped (snd (fst (shutdown e))),
       tr ++ Print_line MsgKeyboardInterrupt :: snd (shutdown e))
  | Raise x =>
      (Escaped x (snd (fst (shutdown e))), tr ++ snd (shutdown e))
  end.

(** *** The polling loop *)

(** The key samples the loop takes out of a list of ticks: those before
    the first tick that stops or interrupts it. *)
Fixpoint samples_taken (stop_event : bool) (ticks : list Tick) : list bool :=
  match ticks with
  | [] => []
  | Interrupt :: _ => []
  | Poll stop_is_set is_pressed _ :: rest =>
      if (stop_event && stop_is_set)%bool then []
      else is_pressed :: samples_taken stop_event rest
  end.

(** Events of the loop itself. *)
Definition loop_event (ev : Event) : bool :=
  match ev with
  | Stop_is_set _ | Is_pressed _ _ | Sleep _ => true
  | _ => false
  end.

(** The shape of the trace of a loop that was given a stop event: a
    sequence of passes, each of which checks the flag, finds it clear,
    samples the key, possibly advances, and sleeps; then possibly a last
    check that finds the flag set, or a pass cut short by an exception. *)
Inductive passes (key : string) : Trace -> Prop :=
| passes_polling : passes key []
| passes_break : passes key [Stop_is_set true]
| passes_pass b body rest :
    Forall (fun ev => loop_event ev = false) body ->
    passes key rest ->
    passes key (Stop_is_set false :: Is_pressed key b :: body
                  ++ Sleep 20 :: rest)
| passes_raise b body :
    Forall (fun ev => loop_event ev = false) body ->
    passes key (Stop_is_set false :: Is_pressed key b :: body).

(** The stop check that finds the flag set. *)
Definition flag_seen_set (ev : Event) : bool :=
  match ev with
  | Stop_is_set true => true
  | _ => false
  end.

(** Events that do not start playback, call back or enter the loop. *)
Definition startup_event (ev : Event) : bool :=
  match ev with
  | Print_line _ | Mixer_init => true
  | _ => false
  end.

(** Events before the main loop. *)
Definition before_loop (ev : Event) : bool :=
  (startup_event ev || engine_event ev)%bool.

(* ------------------------------------------------------------------ *)
(** ** Stand-alone mode                                                 *)
(* ------------------------------------------------------------------ *)

(** The [__main__] block of [main.py]: the key is ["r"] unless a first
    argument names another one; no callback, no stop event. *)
Definition standalone (argv : list string) (w : World) : Outcome * Trace :=
  let key := match argv with
             | _ :: k :: _ => lower k
             | _ => "r"
             end in
  run_engine key false false w.

(* ------------------------------------------------------------------ *)
(** ** The engine control of the window ([app.py])                      *)
(* ------------------------------------------------------------------ *)

Module MusicApp.

(** The text of the status label. *)
Inductive Status : Type :=
| Status_idle
| Status_running (key : string)
| Status_stopped.

(** The attributes of [MusicApp] that [start_engine], [stop_engine] and
    [_on_engine_step] read and write. *)
Record State : Type := {
  engine_thread : bool;        (* [engine_thread is not None] *)
  engine_stop_event : bool;    (* the flag of the [threading.Event] *)
  press_count : Z;
  selected_key : string;
  status_label : Status;
  circle_running : bool
}.

(** What these methods start or schedule. *)
Inductive Effect : Type :=
| Thread_start (key : string)   (* run_engine(key, _on_engine_step, event) *)
| After_load_random_wallpaper.  (* after(0, _load_random_wallpaper) *)

(** The attributes as [__init__] leaves them. *)
Definition init : State :=
  {| engine_thread := false;
     engine_stop_event := false;
     press_count := 0;
     selected_key := "r";
     status_label := Status_idle;
     circle_running := false |}.

(** [is_alive] is what [engine_thread.is_alive()] answers if asked. *)
Definition start_engine (is_alive : bool) (s : State) : State * list Effect :=
  if (engine_thread s && is_alive)%bool then (s, [])
  else
    let key := lower (selected_key s) in
    ({| engine_thread := true;
        engine_stop_event := false;
        press_count := 0;
        selected_key := selected_key s;
        status_label := Status_running (upper key);
        circle_running := true |},
     [Thread_start key]).

Definition stop_engine (is_alive : bool) (s : State) : State * list Effect :=
  ({| engine_thread := engine_thread s;
      engine_stop_event :=
        if (engine_thread s && is_alive)%bool then true
        else engine_stop_event s;
      press_count := press_count s;
      selected_key := selected_key s;
      status_label := Status_stopped;
      circle_running := false |},
   []).

(** [_on_engine_step] *)
Definition on_engine_step (s : State) : State * list Effect :=
  let n := (press_count s + 1)%Z in
  ({| engine_thread := engine_thread s;
      engine_stop_event := engine_stop_event s;
      press_count := n;
      selected_key := selected_key s;
      status_label := status_label s;
      circle_running := circle_running s |},
   if (n mod 3 =? 0)%Z then [After_load_random_wallpaper] else []).

(** What happens to the window: a click on a button, with what the
    thread answers about being alive, or a callback from the engine. *)
Inductive Action : Type :=
| Click_start (is_alive : bool)
| Click_stop (is_alive : bool)
| Engine_step.

Definition act (a : Action) (s : State) : State * list Effect :=
  match a with
  | Click_start is_alive => start_engine is_alive s
  | Click_stop is_alive => stop_engine is_alive s
  | Engine_step => on_engine_step s
  end.

Fixpoint run (actions : list Action) (s : State) : State * list Effect :=
  match actions with
  | [] => (s, [])
  | a :: rest =>
      let '(s1, t1) := act a s in
      let '(s2, t2) := run rest s1 in
      (s2, t1 ++ t2)
  end.

(** The number of wallpaper changes scheduled. *)
Definition wallpaper_changes (effects : list Effect) : nat :=
  List.length
    (filter (fun x => match x with
                      | After_load_random_wallpaper => true
                      | _ => false
                      end) effects).

(** What the control keeps true of the attributes: the circle runs
    exactly while the label says running, and then a thread was started
    and the stop flag is clear; the stop flag is only ever set on a
    started thread, under the label stopped; the label idle is that of a
    window that never started a thread; the counter is not negative. *)
Definition consistent (s : State) : Prop :=
  (circle_running s = true <-> exists key, status_label s = Status_running key)
  /\ (circle_running s = true ->
      engine_thread s = true /\ engine_stop_event s = false)
  /\ (engine_stop_event s = true ->
      engine_thread s = true /\ status_label s = Status_stopped)
  /\ (status_label s = Status_idle -> engine_thread s = false)
  /\ (0 <= press_count s)%Z.

End MusicApp.

(** The window and the engine it starts: a click on Start in the window
    [s], then the run of the engine in the world [w], on the key, with
    the callback and with the stop flag that [start_engine] hands to the
    thread, each call of [on_step] being a call of [_on_engine_step].
    The callbacks are taken to return. *)
Definition callbacks (tr : Trace) : list MusicApp.Action :=
  map (fun _ => MusicApp.Engine_step) (notified tr).

Definition session (is_alive : bool) (w : World) (s : MusicApp.State)
  : MusicApp.State * list MusicApp.Effect :=
  let '(s1, t1) := MusicApp.start_engine is_alive s in
  match t1 with
  | [MusicApp.Thread_start key] =>
      let '(s2, t2) :=
        MusicApp.run (callbacks (snd (run_engine key true true w))) s1 in
      (s2, t1 ++ t2)
  | _ => (s1, t1)
  end.

(* ------------------------------------------------------------------ *)
(** ** The choice of a wallpaper ([app.py])                             *)
(* ------------------------------------------------------------------ *)

(** [_load_random_wallpaper] with [_load_gif] and [_load_video]: the
    folder is listed, the files with a known extension are kept, one of
    them is drawn, its lower-cased path decides how it is to be shown,
    and the decoder of that kind is run on it, which may fall back to a
    still image.  Of the attributes of the window the model keeps
    [wallpaper_path] and [wallpaper_mode]; the frames, the timing
    attributes and the release of the previous video are left out.  [d]
    is the draw of [random.choice].  The folder is
    [resource_path("wallpapers")], relative to the base directory. *)
Inductive WallpaperMode : Type :=
| Mode_image
| Mode_gif
| Mode_video.

Inductive WallpaperError : Type :=
| No_wallpapers_folder (dir : string)
| No_wallpapers_found.

(** What PIL and OpenCV answer for a file. *)
Record Decoders : Type := {
  (* Image.open(path).convert("RGB") returns *)
  image_opens : string -> bool;
  (* the frames _load_gif reads before EOFError ends its loop; None when
     Image.open, convert or seek raises anything else *)
  gif_frames : string -> option nat;
  (* cv2.VideoCapture(path).isOpened() *)
  video_opens : string -> bool;
  (* the first video_cap.read() returns a frame *)
  video_reads : string -> bool
}.

(** How a call ends: with one of its two own errors, before anything is
    assigned; with an exception of a decoder, the attributes as they
    were assigned up to there and nothing printed; or normally, with the
    attributes and the kind named in the line it prints. *)
Inductive WallpaperResult : Type :=
| Wp_error (e : WallpaperError)
| Wp_decoder_raised (wallpaper_path : string) (wallpaper_mode : WallpaperMode)
| Wp_loaded (wallpaper_path : string) (wallpaper_mode : WallpaperMode)
    (printed : WallpaperMode).

Definition WALLPAPER_DIR : string := "wallpapers".

Definition wallpaper_exts : list string :=
  [".png"; ".jpg"; ".jpeg"; ".gif"; ".mp4"; ".mov"; ".avi"; ".mkv"; ".webm"].

Definition image_exts : list string := [".png"; ".jpg"; ".jpeg"].

Definition video_exts : list string :=
  [".mp4"; ".mov"; ".avi"; ".mkv"; ".webm"].

(** [s.endswith(suffixes)] on a tuple. *)
Definition endswith_any (s : string) (suffixes : list string) : bool :=
  existsb (endswith s) suffixes.

(** The branch [_load_random_wallpaper] takes on the chosen path. *)
Definition wallpaper_mode_of (wallpaper_path : string) : WallpaperMode :=
  let lower := lower wallpaper_path in
  if endswith_any lower image_exts then Mode_image
  else if endswith lower ".gif" then Mode_gif
  else Mode_video.

(** [_load_gif(path)], called with [wallpaper_mode = "gif"]: whether it
    returns, and the mode it leaves.  Without a frame it falls back to
    the file as a still image. *)
Definition load_gif (dec : Decoders) (path : string)
  : bool * WallpaperMode :=
  match gif_frames dec path with
  | None => (false, Mode_gif)
  | Some 0 => (image_opens dec path, Mode_image)
  | Some (S _) => (true, Mode_gif)
  end.

(** [_load_video(path)], called with [wallpaper_mode = "video"]: the mode
    it leaves.  A video that does not open, or gives no first frame,
    falls back to a black still image.  The calls into OpenCV are taken
    to return. *)
Definition load_video (dec : Decoders) (path : string) : WallpaperMode :=
  if video_opens dec path then
    if video_reads dec path then Mode_video else Mode_image
  else Mode_image.

Definition load_random_wallpaper (fs : FileSystem) (dec : Decoders)
  (d : nat) : WallpaperResult :=
  if negb (isdir fs WALLPAPER_DIR)
  then Wp_error (No_wallpapers_folder WALLPAPER_DIR)
  else
    let all_wp :=
      map (path_join WALLPAPER_DIR)
        (filter (fun f => endswith_any (lower f) wallpaper_exts)
           (listdir fs WALLPAPER_DIR)) in
    match all_wp with
    | [] => Wp_error No_wallpapers_found
    | _ :: _ =>
        match nth_error all_wp (d mod List.length all_wp) with
        | Some wallpaper_path =>
            match wallpaper_mode_of wallpaper_path with
            | Mode_image =>
                if image_opens dec wallpaper_path
                then Wp_loaded wallpaper_path Mode_image Mode_image
                else Wp_decoder_raised wallpaper_path Mode_image
            | Mode_gif =>
                let '(returned, mode) := load_gif dec wallpaper_path in
                if returned : bool
                then Wp_loaded wallpaper_path mode Mode_gif
                else Wp_decoder_raised wallpaper_path mode
            | Mode_video =>
                Wp_loaded wallpaper_path (load_video dec wallpaper_path)
                  Mode_video
            end
        | None => Wp_error No_wallpapers_found
        end
    end.

(** A wallpaper folder with a picture in capitals, a film, a text file
    and an animation; the film cannot be opened. *)
Definition wallpapers_fs : FileSystem :=
  {| isdir := fun p => String.eqb p "wallpapers";
     listdir := fun p =>
       if String.eqb p "wallpapers"
       then ["Night.PNG"; "rain.mp4"; "notes.txt"; "loop.gif"]
       else [];
     mixer_Sound := fun _ => LoadFailed "not a sound" |}.

Definition wallpapers_dec : Decoders :=
  {| image_opens := fun _ => true;
     gif_frames := fun _ => Some 12;
     video_opens := fun _ => false;
     video_reads := fun _ => false |}.

(* ------------------------------------------------------------------ *)
(** ** Vocabulary of the further properties                             *)
(* ------------------------------------------------------------------ *)

(** The last character of a string. *)
Fixpoint last_char (s : string) : option ascii :=
  match s with
  | EmptyString => None
  | String c EmptyString => Some c
  | String _ r => last_char r
  end.

(** Whether the scan of a folder yields a set. *)
Definition accepted (fs : FileSystem) (folder : string) : bool :=
  match fst (scan_folder fs folder) with
  | Some _ => true
  | None => false
  end.

(** The engine is on a set of the library, in one of its three states,
    and the channel has on it the track of that state. *)
Definition playing (lib : Library) (e : Engine) : Prop :=
  exists n sounds sound,
    current_set_name e = Some n
    /\ dict_get n lib = Some sounds
    /\ List.length sounds = 3
    /\ (1 <= current_state e <= 3)%Z
    /\ nth_error sounds (Z.to_nat (current_state e - 1)) = Some sound
    /\ current_channel e = Some sound.

(** A computation all of whose events satisfy [P]. *)
Definition emits {A} (P : Event -> Prop) (c : Prog A) : Prop :=
  forall e, Forall P (snd (c e)).

(** What the engine may do to the channel: start a track of the library,
    looping, with the crossfade fade-in; fade out over the crossfade or
    the shutdown time. *)
Definition from_library (lib : Library) (ev : Event) : Prop :=
  match ev with
  | Play sound loops fade_ms =>
      loops = (-1)%Z /\ fade_ms = CROSSFADE_MS
      /\ exists n sounds, dict_get n lib = Some sounds /\ In sound sounds
  | Fadeout ms => ms = CROSSFADE_MS \/ ms = 500%Z
  | _ => True
  end.

(** What the closures of [run_engine] can emit: their own lines, the
    crossfade of the channel to a looping track of the library, the call
    of the callback, and the entry mark of [advance_state]. *)
Definition closure_event (lib : Library) (ev : Event) : Prop :=
  match ev with
  | Print_line m =>
      match m with
      | MsgPlaying _ _ | MsgInvalidState _ _ | MsgSwitchedToSet _
      | MsgToState2 _ | MsgToState3 _ | MsgFinishedSet _ _
      | MsgOnStepError _ => True
      | _ => False
      end
  | Fadeout ms => ms = CROSSFADE_MS
  | Play sound loops fade_ms =>
      loops = (-1)%Z /\ fade_ms = CROSSFADE_MS
      /\ exists n sounds, dict_get n lib = Some sounds /\ In sound sounds
  | On_step _ | Enter_advance_state => True
  | _ => False
  end.

(** The lines [advance_state] prints from [state] of set [name], when the
    set drawn after state 3 is [new_set]. *)
Definition transition_messages (state : Z) (name new_set : string)
  : list Message :=
  if (state =? 1)%Z then [MsgToState2 name; MsgPlaying name 2]
  else if (state =? 2)%Z then [MsgToState3 name; MsgPlaying name 3]
  else if (state =? 3)%Z then
    [MsgFinishedSet name new_set; MsgSwitchedToSet new_set;
     MsgPlaying new_set 1]
  else [MsgPlaying name 1].

(** The answers of the ticks at which the key goes down, up to the tick
    that stops or interrupts the loop. *)
Fixpoint edge_answers (stop_event key_held : bool) (ticks : list Tick)
  : list Answers :=
  match ticks with
  | [] => []
  | Interrupt :: _ => []
  | Poll stop_is_set is_pressed a :: rest =>
      if (stop_event && stop_is_set)%bool then []
      else if (is_pressed && negb key_held)%bool
           then a :: edge_answers stop_event true rest
           else edge_answers stop_event is_pressed rest
  end.

(** A tick that lets the loop make its pass and go on, whatever the
    key does: the flag is clear, nothing interrupts, and the callback
    would not let an exception through. *)
Definition goes_on (on_step stop_event : bool) (t : Tick) : bool :=
  match t with
  | Poll stop_is_set _ a =>
      negb (stop_event && stop_is_set)
      && match notify_result on_step (notify a) with
         | Ok _ => true
         | Raise _ => false
         end
  | Interrupt => false
  end.

(** How the ticks say the loop of a started engine ends: at the first
    tick whose flag is set (when there is a stop event), that
    interrupts, or at which the key goes down and the callback lets an
    exception through; otherwise the loop is still polling, its latch
    being the last key sample. *)
Fixpoint loop_end (on_step stop_event key_held : bool) (ticks : list Tick)
  : Result LoopEnd :=
  match ticks with
  | [] => Ok (Polling key_held)
  | Interrupt :: _ => Raise KeyboardInterrupt
  | Poll stop_is_set is_pressed a :: rest =>
      if (stop_event && stop_is_set)%bool then Ok Broke
      else if (is_pressed && negb key_held)%bool then
        match notify_result on_step (notify a) with
        | Ok _ => loop_end on_step stop_event true rest
        | Raise x => Raise x
        end
      else loop_end on_step stop_event is_pressed rest
  end.

(** The key samples that the loop of a started engine takes: those of
    the ticks up to the one that ends the loop. *)
Fixpoint polled (on_step stop_event key_held : bool) (ticks : list Tick)
  : list bool :=
  match ticks with
  | [] => []
  | Interrupt :: _ => []
  | Poll stop_is_set is_pressed a :: rest =>
      if (stop_event && stop_is_set)%bool then []
      else
        is_pressed
          :: (if (is_pressed && negb key_held)%bool then
                match notify_result on_step (notify a) with
                | Ok _ => polled on_step stop_event true rest
                | Raise _ => []
                end
              else polled on_step stop_event is_pressed rest)
  end.

(** The answers of the stop checks of a trace. *)
Fixpoint stop_checks (tr : Trace) : list bool :=
  match tr with
  | [] => []
  | Stop_is_set b :: r => b :: stop_checks r
  | _ :: r => stop_checks r
  end.

(** What a run prints and plays before its first pass of the loop, when it
    starts on set [n] whose first track is [sound]: the track is started
    after a fade-out if the channel was found busy. *)
Definition startup_trace (key : string) (w : World) (n : string)
  (sound : Sound) : Trace :=
  banner key w ++ snd (load_sets (files w))
  ++ [Print_line (MsgLoadedSets (keys (fst (load_sets (files w)))));
      Print_line (MsgSwitchedToSet n);
      Print_line (MsgPlaying n 1)]
  ++ crossfade (current_channel (initial_engine w)) sound
  ++ [Print_line (MsgPressToAdvance (upper key))].

(** The same world with other ticks. *)
Definition with_ticks (w : World) (l : list Tick) : World :=
  {| mixer_ready := mixer_ready w;
     channel_at_entry := channel_at_entry w;
     files := files w;
     first_draw := first_draw w;
     ticks := l |}.

(** The number of set switches announced in a trace. *)
Fixpoint switches (tr : Trace) : nat :=
  match tr with
  | [] => 0
  | Print_line (MsgFinishedSet _ _) :: r => S (switches r)
  | _ :: r => switches r
  end.

(** The events of a trace that belong to the loop or not. *)
Definition closure_events (tr : Trace) : Trace :=
  filter (fun ev => negb (loop_event ev)) tr.

(** The shutdown of a busy channel, as the [finally] block does it. *)
Definition fade_and_stop : Trace :=
  [Fadeout 500; Sleep 500; Print_line MsgEngineStopped].

(* ------------------------------------------------------------------ *)
(** * Properties                                                        *)
(* ------------------------------------------------------------------ *)

(** ** Dictionaries *)

Section DictFacts.
Context {V : Type}.
Implicit Types (d : dict V) (k : string) (v : V).

Lemma dict_get_set_same k v d : dict_get k (dict_set k v d) = Some v.
Proof.
  induction d as [|[k' v'] d IH]; simpl.
  - now rewrite String.eqb_refl.
  - destruct (String.eqb k k') eqn:E; simpl; rewrite E; auto.
Qed.

Lemma dict_get_set_other k k' v d :
  k <> k' -> dict_get k (dict_set k' v d) = dict_get k d.
Proof.
  intros Hne. induction d as [|[k0 v0] d IH]; simpl.
  - apply String.eqb_neq in Hne. now rewrite Hne.
  - destruct (String.eqb k' k0) eqn:E; simpl.
    + apply String.eqb_eq in E. subst k0.
      apply String.eqb_neq in Hne. now rewrite Hne.
    + now rewrite IH.
Qed.

Lemma keys_dict_set_in k v d :
  In k (keys d) -> keys (dict_set k v d) = keys d.
Proof.
  induction d as [|[k0 v0] d IH]; simpl; [tauto|].
  intros [->|Hin].
  - now rewrite String.eqb_refl.
  - destruct (String.eqb k k0) eqn:E; simpl; [reflexivity|].
    f_equal. now apply IH.
Qed.

Lemma keys_dict_set_new k v d :
  ~ In k (keys d) -> keys (dict_set k v d) = keys d ++ [k].
Proof.
  induction d as [|[k0 v0] d IH]; simpl; [reflexivity|].
  intros Hn. destruct (String.eqb k k0) eqn:E.
  - apply String.eqb_eq in E. subst. tauto.
  - simpl. f_equal. apply IH. tauto.
Qed.

Lemma NoDup_keys_dict_set k v d : NoDup (keys d) -> NoDup (keys (dict_set k v d)).
Proof.
  intros Hd. destruct (in_dec string_dec k (keys d)) as [Hin|Hn].
  - now rewrite keys_dict_set_in.
  - rewrite keys_dict_set_new by assumption.
    apply NoDup_app; repeat split; auto.
    + constructor; [simpl; tauto | constructor].
    + intros x Hx [<-|[]]. tauto.
Qed.

Lemma dict_get_in_keys k d : In k (keys d) <-> exists v, dict_get k d = Some v.
Proof.
  induction d as [|[k0 v0] d IH]; simpl.
  - split; [tauto | intros [v Hv]; discriminate].
  - destruct (String.eqb k k0) eqn:E.
    + apply String.eqb_eq in E. subst. split; eauto.
    + apply String.eqb_neq in E. rewrite <- IH. split; [|tauto].
      intros [H|H]; [congruence | assumption].
Qed.

End DictFacts.

Lemma mem_In k names : mem k names = true <-> In k names.
Proof.
  unfold mem. rewrite existsb_exists. split.
  - intros [x [Hx E]]. apply String.eqb_eq in E. now subst.
  - intros H. exists k. split; [assumption | apply String.eqb_refl].
Qed.

(** ** Loading *)

Lemma load_sounds_fst fs folder files :
  fst (load_sounds fs (folder_path_of folder) files)
  = map (sound_in folder) (filter (loads fs folder) files).
Proof.
  induction files as [|f files IH]; simpl; [reflexivity|].
  unfold loads at 1.
  destruct (load_sounds fs (folder_path_of folder) files) as [sounds tr].
  simpl in IH. subst sounds.
  destruct (mixer_Sound fs (path_join (folder_path_of folder) f)); reflexivity.
Qed.

Lemma selected_length fs folder : List.length (selected fs folder) <= 3.
Proof. unfold selected. apply firstn_le_length. Qed.

Lemma filter_length_le {A} (f : A -> bool) l :
  List.length (filter f l) <= List.length l.
Proof. induction l; simpl; [lia | destruct (f a); simpl; lia]. Qed.

Lemma filter_full {A} (f : A -> bool) l :
  List.length (filter f l) = List.length l -> filter f l = l.
Proof.
  intros H. apply forallb_filter_id. now apply filter_length_forallb.
Qed.

Lemma scan_folder_eq fs folder :
  scan_folder fs folder
  = if negb (isdir fs (folder_path_of folder)) then (None, [])
    else match recognized fs folder with
         | [] => (None, [])
         | _ :: _ =>
             let '(sounds, tr) :=
               load_sounds fs (folder_path_of folder) (selected fs folder) in
             if List.length sounds =? 3 then (Some sounds, tr)
             else (None, tr ++ [Print_line (MsgSkippingSet folder
                                         (List.length sounds))])
         end.
Proof. reflexivity. Qed.

(** The set a folder yields, read off the file system. *)
Lemma scan_folder_fst fs folder :
  fst (scan_folder fs folder)
  = if (isdir fs (folder_path_of folder)
        && (List.length (selected fs folder) =? 3)
        && forallb (loads fs folder) (selected fs folder))%bool
    then Some (map (sound_in folder) (selected fs folder))
    else None.
Proof.
  rewrite scan_folder_eq.
  destruct (isdir fs (folder_path_of folder)); cbn [negb andb];
    [|reflexivity].
  destruct (recognized fs folder) as [|f0 rest] eqn:Erec.
  - unfold selected. rewrite Erec. reflexivity.
  - pose proof (load_sounds_fst fs folder (selected fs folder)) as Hfst.
    destruct (load_sounds fs (folder_path_of folder) (selected fs folder))
      as [sounds tr].
    cbn [fst] in Hfst. subst sounds. rewrite !length_map.
    pose proof (selected_length fs folder) as Hle.
    pose proof (filter_length_le (loads fs folder) (selected fs folder)) as Hf.
    destruct (List.length (filter (loads fs folder) (selected fs folder)) =? 3)
      eqn:E3; cbn [fst].
    + apply Nat.eqb_eq in E3.
      assert (Hlen : List.length (selected fs folder) = 3) by lia.
      assert (Hfa : forallb (loads fs folder) (selected fs folder) = true)
        by (apply filter_length_forallb; lia).
      rewrite (forallb_filter_id _ _ Hfa), Hfa, Hlen. reflexivity.
    + apply Nat.eqb_neq in E3.
      destruct (List.length (selected fs folder) =? 3) eqn:El;
        cbn [andb]; [|reflexivity].
      destruct (forallb (loads fs folder) (selected fs folder)) eqn:Ea;
        [|reflexivity].
      apply forallb_filter_id in Ea. rewrite Ea in E3.
      apply Nat.eqb_eq in El. contradiction.
Qed.

Lemma scan_folder_three fs folder sounds :
  fst (scan_folder fs folder) = Some sounds -> List.length sounds = 3.
Proof.
  rewrite scan_folder_fst.
  destruct (isdir fs (folder_path_of folder)); simpl; [|discriminate].
  destruct (List.length (selected fs folder) =? 3) eqn:E; simpl; [|discriminate].
  destruct (forallb _ _); [|discriminate].
  intros [= <-]. rewrite length_map. now apply Nat.eqb_eq.
Qed.

(** The final value of a key after the loop over the folders. *)
Lemma scan_folders_get fs k folders d :
  dict_get k (fst (scan_folders fs folders d))
  = if mem k folders
    then match fst (scan_folder fs k) with
         | Some sounds => Some sounds
         | None => dict_get k d
         end
    else dict_get k d.
Proof.
  revert d. induction folders as [|f folders IH]; intros d; simpl;
    [reflexivity|].
  destruct (scan_folder fs f) as [found tr] eqn:Ef.
  match goal with
  | |- context [scan_folders fs folders ?d'] =>
      specialize (IH d'); destruct (scan_folders fs folders d') as [lib tr']
  end.
  simpl in *. rewrite IH. clear IH.
  destruct (String.eqb k f) eqn:E; simpl.
  - apply String.eqb_eq in E. subst f. rewrite Ef. simpl.
    destruct found as [sounds|].
    + rewrite dict_get_set_same. now destruct (mem k folders).
    + now destruct (mem k folders).
  - apply String.eqb_neq in E.
    destruct found as [sounds|]; [rewrite dict_get_set_other by assumption|];
      reflexivity.
Qed.

Lemma scan_folders_keys fs folders d :
  NoDup (keys d) -> NoDup (keys (fst (scan_folders fs folders d))).
Proof.
  revert d. induction folders as [|f folders IH]; intros d Hd; simpl;
    [assumption|].
  destruct (scan_folder fs f) as [found tr].
  match goal with
  | |- context [scan_folders fs folders ?d'] =>
      specialize (IH d'); destruct (scan_folders fs folders d') as [lib tr']
  end.
  simpl in *. apply IH.
  destruct found; [now apply NoDup_keys_dict_set | assumption].
Qed.

Lemma scan_folders_trace fs ev f folders d :
  In f folders -> In ev (snd (scan_folder fs f)) ->
  In ev (snd (scan_folders fs folders d)).
Proof.
  revert d. induction folders as [|f0 folders IH]; intros d Hin Hev;
    [destruct Hin|].
  simpl. destruct (scan_folder fs f0) as [found tr] eqn:Ef.
  match goal with
  | |- context [scan_folders fs folders ?d'] =>
      specialize (IH d'); destruct (scan_folders fs folders d') as [lib tr']
  end.
  simpl in *. apply in_or_app. destruct Hin as [->|Hin].
  - left. now rewrite Ef in Hev.
  - right. now apply IH.
Qed.

Lemma load_sets_get fs folder :
  dict_get folder (fst (load_sets fs))
  = if mem folder (listdir fs SETS_PATH) then fst (scan_folder fs folder)
    else None.
Proof.
  unfold load_sets. rewrite scan_folders_get. simpl.
  destruct (mem folder _); [|reflexivity].
  now destruct (fst (scan_folder fs folder)).
Qed.

Lemma load_sets_ok fs : lib_ok (fst (load_sets fs)).
Proof.
  split.
  - unfold load_sets. apply scan_folders_keys. constructor.
  - intros n sounds. rewrite load_sets_get.
    destruct (mem n _); [|discriminate]. apply scan_folder_three.
Qed.

Lemma filter_firstn_le {A} (f : A -> bool) n l :
  List.length (filter f (firstn n l)) <= List.length (filter f l).
Proof.
  revert n. induction l as [|a l IH]; intros [|n]; simpl; try lia.
  specialize (IH n). destruct (f a); simpl; lia.
Qed.

Lemma filter_length_perm {A} (f : A -> bool) l l' :
  Permutation l l' -> List.length (filter f l) = List.length (filter f l').
Proof.
  induction 1; simpl; try congruence.
  - destruct (f x); simpl; congruence.
  - destruct (f x), (f y); reflexivity.
Qed.

Lemma Sorted_firstn {A} (R : A -> A -> Prop) n l :
  Sorted R l -> Sorted R (firstn n l).
Proof.
  intros H. revert n. induction H as [|a l Hs IH Hd]; intros [|n]; simpl;
    try constructor; auto.
  destruct Hd; destruct n; simpl; constructor; assumption.
Qed.

Lemma sort_sorted l : Sorted filename_le (sort l).
Proof. exact (StringSort.Sorted_sort l). Qed.

Lemma sort_perm l : Permutation l (sort l).
Proof. exact (StringSort.Permuted_sort l). Qed.

(** When the three selected files all load, the folder has three valid
    files at least. *)
Lemma selected_valid fs folder :
  List.length (filter (loads fs folder) (selected fs folder))
  <= List.length (valid_files fs folder).
Proof.
  unfold selected, valid_files.
  rewrite (filter_length_perm _ _ _ (sort_perm (recognized fs folder))).
  apply filter_firstn_le.
Qed.

Lemma candidate_mem fs folder :
  candidate fs folder -> mem folder (listdir fs SETS_PATH) = true.
Proof. intros [Hin _]. now apply mem_In. Qed.

(** C2 (amended): a directory under the library root whose first three
    recognized-extension files, in lexicographic filename order, all load
    becomes a Set of exactly these three tracks in that order; a directory
    with fewer than three valid audio files yields no Set. *)
Theorem first_three_files_make_the_set fs folder :
  (candidate fs folder ->
   List.length (selected fs folder) = 3 ->
   forallb (loads fs folder) (selected fs folder) = true ->
   dict_get folder (fst (load_sets fs))
   = Some (map (sound_in folder) (selected fs folder))
   /\ selected fs folder = firstn 3 (sort (recognized fs folder))
   /\ Sorted filename_le (sort (recognized fs folder))
   /\ Permutation (recognized fs folder) (sort (recognized fs folder))
   /\ Sorted filename_le (selected fs folder))
  /\ (List.length (valid_files fs folder) < 3 ->
      dict_get folder (fst (load_sets fs)) = None).
Proof.
  split.
  - intros Hc Hlen Hall. repeat split.
    + rewrite load_sets_get, (candidate_mem _ _ Hc), scan_folder_fst.
      destruct Hc as [_ Hd]. rewrite Hd, Hlen, Hall. reflexivity.
    + apply sort_sorted.
    + apply sort_perm.
    + apply Sorted_firstn, sort_sorted.
  - intros Hlt. rewrite load_sets_get.
    destruct (mem folder _); [|reflexivity].
    rewrite scan_folder_fst.
    destruct (isdir fs (folder_path_of folder)); cbn [andb]; [|reflexivity].
    destruct (List.length (selected fs folder) =? 3) eqn:El; cbn [andb];
      [|reflexivity].
    destruct (forallb (loads fs folder) (selected fs folder)) eqn:Ea;
      [|reflexivity].
    pose proof (selected_valid fs folder) as Hv.
    rewrite (forallb_filter_id _ _ Ea) in Hv.
    apply Nat.eqb_eq in El. lia.
Qed.

Lemma first_three_files_make_the_set_witness :
  dict_get "A" (fst (load_sets two_sets_fs))
  = Some [SoundOf "sets/A/a1.wav"; SoundOf "sets/A/a2.WAV";
          SoundOf "sets/A/a3.ogg"]
  /\ dict_get "C" (fst (load_sets two_sets_fs)) = None.
Proof.
  split.
  - apply (proj1 (first_three_files_make_the_set two_sets_fs "A")).
    + split; [simpl; auto | reflexivity].
    + reflexivity.
    + reflexivity.
  - apply (proj2 (first_three_files_make_the_set two_sets_fs "C")).
    vm_compute. lia.
Defined.

(** C2 as stated fails: four recognized files of which the first is
    corrupt leave three valid files, but the engine only tries the first
    three names and drops the folder. *)
Lemma three_valid_files_without_set :
  ~ at_least_three_valid_gives_set corrupt_first_fs "X".
Proof.
  intros H. destruct H as [names [Hget _]].
  - split; [simpl; auto | reflexivity].
  - vm_compute. lia.
  - vm_compute in Hget. discriminate.
Qed.

(** C9 (amended): a scanned directory that holds at least one file with a
    recognized extension and is not accepted gets a warning that reports
    how many of its first three such files loaded (fewer than three). *)
Theorem rejected_with_audio_is_warned fs folder :
  candidate fs folder ->
  recognized fs folder <> [] ->
  dict_get folder (fst (load_sets fs)) = None ->
  In (Print_line (MsgSkippingSet folder
               (List.length (filter (loads fs folder) (selected fs folder)))))
     (snd (load_sets fs))
  /\ List.length (filter (loads fs folder) (selected fs folder)) < 3.
Proof.
  intros Hc Hrec Hnone.
  rewrite load_sets_get, (candidate_mem _ _ Hc) in Hnone.
  destruct Hc as [Hin Hd].
  assert (Hscan : snd (scan_folder fs folder)
                  = snd (load_sounds fs (folder_path_of folder)
                           (selected fs folder))
                    ++ [Print_line (MsgSkippingSet folder
                          (List.length (filter (loads fs folder)
                                          (selected fs folder))))]
                  /\ List.length (filter (loads fs folder)
                                    (selected fs folder)) <> 3).
  { rewrite scan_folder_eq in Hnone |- *. rewrite Hd in *. cbn [negb] in *.
    destruct (recognized fs folder) as [|f0 rest]; [congruence|].
    pose proof (load_sounds_fst fs folder (selected fs folder)) as Hfst.
    destruct (load_sounds fs (folder_path_of folder) (selected fs folder))
      as [sounds tr].
    cbn [fst snd] in *. subst sounds. rewrite !length_map in *.
    destruct (List.length (filter (loads fs folder) (selected fs folder)) =? 3)
      eqn:E3; [discriminate|].
    apply Nat.eqb_neq in E3. split; [reflexivity | assumption]. }
  destruct Hscan as [Hscan Hne]. split.
  - unfold load_sets. apply scan_folders_trace with (f := folder); [assumption|].
    rewrite Hscan. apply in_or_app. right. simpl. auto.
  - pose proof (filter_length_le (loads fs folder) (selected fs folder)).
    pose proof (selected_length fs folder). lia.
Qed.

Lemma rejected_with_audio_is_warned_witness :
  In (Print_line (MsgSkippingSet "C" 2)) (snd (load_sets two_sets_fs)) /\ 2 < 3.
Proof.
  apply (rejected_with_audio_is_warned two_sets_fs "C").
  - split; [simpl; auto | reflexivity].
  - vm_compute. discriminate.
  - reflexivity.
Defined.

(** C9 as stated fails: a directory without any recognized audio file is
    passed over silently. *)
Lemma folder_without_audio_is_not_warned :
  ~ rejected_is_warned no_audio_fs "E".
Proof.
  intros H. destruct H as [n Hin].
  - split; [simpl; auto | reflexivity].
  - reflexivity.
  - vm_compute in Hin. destruct Hin.
Qed.

(** ** The playback controller *)

(** C7: [play_loop_sound] on an idle channel only starts the new sound
    with a fade-in; on a busy channel it first fades the channel out and
    then starts the new sound with a fade-in; the new sound is started
    with [loops = -1] (it repeats without end) and takes the channel. *)
Theorem play_loop_sound_crossfade sound e :
  play_loop_sound sound e
  = (Ok tt,
     {| current_set_name := current_set_name e;
        current_state := current_state e;
        current_channel := Some sound |},
     match current_channel e with
     | None => [Play sound (-1) CROSSFADE_MS]
     | Some _ => [Fadeout CROSSFADE_MS; Play sound (-1) CROSSFADE_MS]
     end).
Proof. destruct e as [n s [c|]]; reflexivity. Qed.

Lemma play_loop_sound_run sound e :
  play_loop_sound sound e
  = (Ok tt,
     {| current_set_name := current_set_name e;
        current_state := current_state e;
        current_channel := Some sound |},
     crossfade (current_channel e) sound).
Proof. destruct e as [n s [c|]]; reflexivity. Qed.

Lemma played_crossfade channel sound : played (crossfade channel sound) = [sound].
Proof. destruct channel; reflexivity. Qed.

Lemma notified_crossfade channel sound : notified (crossfade channel sound) = [].
Proof. destruct channel; reflexivity. Qed.

Section EngineFacts.

Variable music_sets : Library.
Variable on_step : bool.

Lemma play_current_state_run e name sounds sound :
  current_set_name e = Some name ->
  dict_get name music_sets = Some sounds ->
  (1 <= current_state e <= Z.of_nat (List.length sounds))%Z ->
  nth_error sounds (Z.to_nat (current_state e - 1)) = Some sound ->
  play_current_state music_sets e
  = (Ok tt,
     {| current_set_name := Some name;
        current_state := current_state e;
        current_channel := Some sound |},
     Print_line (MsgPlaying name (current_state e))
       :: crossfade (current_channel e) sound).
Proof.
  intros Hn Hg Hr Hs. unfold play_current_state, bind, get.
  rewrite Hn, Hg.
  replace ((0 <=? current_state e - 1)%Z
           && (current_state e - 1 <? Z.of_nat (List.length sounds))%Z)%bool
    with true
    by (symmetry; apply andb_true_iff; split;
        [apply Z.leb_le | apply Z.ltb_lt]; lia).
  rewrite Hs. unfold emit. rewrite play_loop_sound_run. simpl.
  rewrite Hn. reflexivity.
Qed.

End EngineFacts.

(** ** Choosing a set *)

Lemma list_remove_length k names :
  In k names -> S (List.length (list_remove k names)) = List.length names.
Proof.
  induction names as [|n names IH]; simpl; [tauto|].
  destruct (String.eqb k n) eqn:E; [reflexivity|].
  intros [->|Hin]; [now rewrite String.eqb_refl in E|].
  simpl. now rewrite IH.
Qed.

Lemma list_remove_incl k names x : In x (list_remove k names) -> In x names.
Proof.
  induction names as [|n names IH]; simpl; [tauto|].
  destruct (String.eqb k n); simpl; tauto.
Qed.


Lemma random_choice_ok d names :
  names <> [] ->
  exists n, random_choice d names = Ok n
            /\ nth_error names (d mod List.length names) = Some n
            /\ In n names.
Proof.
  intros Hne. unfold random_choice.
  destruct (nth_error names (d mod List.length names)) as [n|] eqn:E.
  - exists n. repeat split. eapply nth_error_In; eassumption.
  - apply nth_error_None in E.
    assert (List.length names <> 0) by (destruct names; simpl; congruence).
    pose proof (Nat.mod_upper_bound d (List.length names)). lia.
Qed.

Lemma choose_random_set_first lib d :
  lib <> [] ->
  exists n, choose_random_set lib None d = Ok n /\ In n (keys lib).
Proof.
  intros Hne. unfold choose_random_set.
  destruct (random_choice_ok d (keys lib)) as [n [H1 [_ H3]]].
  - destruct lib; simpl; congruence.
  - eauto.
Qed.

Lemma choose_random_set_next lib name d :
  In name (keys lib) ->
  exists n, choose_random_set lib (Some name) d = Ok n /\ In n (keys lib).
Proof.
  intros Hin. unfold choose_random_set.
  apply mem_In in Hin as Hmem. rewrite Hmem. cbn [andb].
  destruct (1 <? List.length (keys lib)) eqn:E.
  - apply Nat.ltb_lt in E.
    pose proof (list_remove_length _ _ Hin) as Hl.
    destruct (random_choice_ok d (list_remove name (keys lib)))
      as [n [H1 [_ H3]]].
    + intros Hnil. rewrite Hnil in Hl. simpl in Hl. lia.
    + exists n. split; [assumption|]. eapply list_remove_incl; eassumption.
  - destruct (random_choice_ok d (keys lib)) as [n [H1 [_ H3]]].
    + intros Hnil. rewrite Hnil in Hin. destruct Hin.
    + eauto.
Qed.

(** ** One step of the state machine *)

Section StepFacts.

Variable music_sets : Library.
Hypothesis three_tracks :
  forall n sounds, dict_get n music_sets = Some sounds ->
                   List.length sounds = 3.

Lemma track_exists n sounds s :
  dict_get n music_sets = Some sounds ->
  (1 <= s <= 3)%Z ->
  exists sound, nth_error sounds (Z.to_nat (s - 1)) = Some sound.
Proof.
  intros Hg Hs. apply three_tracks in Hg.
  destruct (nth_error sounds (Z.to_nat (s - 1))) eqn:E; [eauto|].
  apply nth_error_None in E. lia.
Qed.

Lemma next_state_range s : (1 <= next_state s <= 3)%Z.
Proof.
  unfold next_state.
  destruct (s =? 1)%Z; [lia|]. destruct (s =? 2)%Z; lia.
Qed.

Lemma notify_host_run on_step r e :
  notify_host on_step r e
  = (notify_result on_step r, e, notify_events on_step r).
Proof. destruct on_step, r; reflexivity. Qed.

(** The transition without a callback, from a state whose set is in the
    library. *)
Lemma advance_state_quiet a e name :
  current_set_name e = Some name ->
  In name (keys music_sets) ->
  exists name' sounds' sound msgs,
    advance_state music_sets false a e
    = (Ok tt,
       {| current_set_name := Some name';
          current_state := next_state (current_state e);
          current_channel := Some sound |},
       Enter_advance_state
         :: map Print_line msgs ++ crossfade (current_channel e) sound)
    /\ (if (current_state e =? 3)%Z
        then choose_random_set music_sets (Some name) (draw a) = Ok name'
        else name' = name)
    /\ dict_get name' music_sets = Some sounds'
    /\ nth_error sounds' (Z.to_nat (next_state (current_state e) - 1))
       = Some sound
    /\ existsb reports_invalid_state (map Print_line msgs) = false.
Proof.
  intros Hn Hin. destruct e as [cn s ch]. simpl in Hn. subst cn.
  unfold next_state. cbn [current_state current_channel].
  apply dict_get_in_keys in Hin as Hget. destruct Hget as [sounds Hget].
  pose proof (three_tracks _ _ Hget) as Hlen.
  unfold advance_state, bind at 1 2, emit at 1, get.
  cbn [current_set_name current_state].
  destruct (s =? 1)%Z eqn:E1; [|destruct (s =? 2)%Z eqn:E2;
                                 [|destruct (s =? 3)%Z eqn:E3]].
  - destruct (track_exists name sounds 2 Hget ltac:(lia)) as [sound Hs].
    exists name, sounds, sound, [MsgToState2 name; MsgPlaying name 2].
    apply Z.eqb_eq in E1. subst s. cbn [Z.eqb Pos.eqb].
    repeat split; try assumption.
    unfold bind, set_current_state, emit.
    cbn [current_set_name current_state current_channel].
    erewrite play_current_state_run; cbn; eauto; try lia.
    now rewrite app_nil_r.
  - destruct (track_exists name sounds 3 Hget ltac:(lia)) as [sound Hs].
    exists name, sounds, sound, [MsgToState3 name; MsgPlaying name 3].
    apply Z.eqb_eq in E2. subst s. cbn [Z.eqb Pos.eqb].
    repeat split; try assumption.
    unfold bind, set_current_state, emit.
    cbn [current_set_name current_state current_channel].
    erewrite play_current_state_run; cbn; eauto; try lia.
    now rewrite app_nil_r.
  - destruct (choose_random_set_next music_sets name (draw a) Hin)
      as [new_set [Hch Hnew]].
    apply dict_get_in_keys in Hnew. destruct Hnew as [sounds' Hget'].
    pose proof (three_tracks _ _ Hget') as Hlen'.
    destruct (track_exists new_set sounds' 1 Hget' ltac:(lia)) as [sound Hs].
    exists new_set, sounds', sound,
      [MsgFinishedSet name new_set; MsgSwitchedToSet new_set;
       MsgPlaying new_set 1].
    repeat split; try assumption.
    unfold bind, lift, start_set, bind, set_current_set_name,
      set_current_state, emit.
    rewrite Hch. cbn [current_set_name current_state current_channel].
    erewrite play_current_state_run; cbn; eauto; try lia.
    now rewrite app_nil_r.
  - destruct (track_exists name sounds 1 Hget ltac:(lia)) as [sound Hs].
    exists name, sounds, sound, [MsgPlaying name 1].
    repeat split; try assumption.
    unfold bind, set_current_state, emit.
    cbn [current_set_name current_state current_channel].
    erewrite play_current_state_run; cbn; eauto; try lia.
    now rewrite app_nil_r.
Qed.

(** [advance_state] is the transition followed by the callback. *)
Lemma advance_state_eq on_step a e :
  advance_state music_sets on_step a e
  = match current_set_name e with
    | None => (Ok tt, e, [Enter_advance_state])
    | Some name =>
        match transition music_sets a name e e with
        | (Ok _, e1, t1) =>
            (notify_result on_step (notify a), e1,
             Enter_advance_state :: t1 ++ notify_events on_step (notify a))
        | (Raise x, e1, t1) => (Raise x, e1, Enter_advance_state :: t1)
        end
    end.
Proof.
  unfold advance_state.
  unfold bind at 1. unfold emit at 1. unfold bind at 1. unfold get at 1.
  destruct (current_set_name e) as [name|]; [|reflexivity].
  unfold bind at 1. fold (transition music_sets a name e).
  destruct (transition music_sets a name e e) as [[[[]|x] e1] t1];
    [|reflexivity].
  rewrite notify_host_run. reflexivity.
Qed.

End StepFacts.

(** ** The main loop, one pass at a time *)

Section LoopFacts.

Variable music_sets : Library.
Variable on_step : bool.
Variable trigger_key : string.
Variable stop_event : bool.

Local Abbreviation loop := (main_loop music_sets on_step trigger_key stop_event).
Local Abbreviation advance := (advance_state music_sets on_step).

Lemma main_loop_poll s p a rest h e :
  loop (Poll s p a :: rest) h e
  = if (stop_event && s)%bool then (Ok Broke, e, [Stop_is_set s])
    else
      let pre := (if stop_event then [Stop_is_set s] else [])
                 ++ [Is_pressed trigger_key p] in
      if (p && negb h)%bool then
        match advance a e with
        | (Ok _, e1, t1) =>
            let '(r, e2, t2) := loop rest true e1 in
            (r, e2, pre ++ t1 ++ Sleep 20 :: t2)
        | (Raise x, e1, t1) => (Raise x, e1, pre ++ t1)
        end
      else
        let '(r, e2, t2) := loop rest p e in
        (r, e2, pre ++ Sleep 20 :: t2).
Proof.
  cbn [main_loop]. unfold stop_requested, poll_key.
  destruct stop_event, s, p, h; cbn [andb negb];
    unfold bind, emit, ret; cbn [app];
    try reflexivity;
    try (destruct (advance a e) as [[[u|x] e1] t1]; cbn [app];
         [|reflexivity]);
    match goal with
    | |- context [main_loop ?l ?o ?k ?s rest ?b ?e0] =>
        destruct (main_loop l o k s rest b e0) as [[r e2] t2]
    end;
    rewrite ?app_nil_r, <- ?app_assoc; reflexivity.
Qed.

End LoopFacts.

(** ** What the closures can emit *)

Lemma quiet_ret {A} (a : A) : quiet (ret a).
Proof. intros e. constructor. Qed.

Lemma quiet_raise {A} x : quiet (@raise A x).
Proof. intros e. constructor. Qed.

Lemma quiet_lift {A} (r : Result A) : quiet (lift r).
Proof. intros e. constructor. Qed.

Lemma quiet_emit ev : engine_event ev = true -> quiet (emit ev).
Proof. intros H e. repeat constructor. assumption. Qed.

Lemma quiet_bind {A B} (c : Prog A) (k : A -> Prog B) :
  quiet c -> (forall a, quiet (k a)) -> quiet (bind c k).
Proof.
  intros Hc Hk e. unfold bind. specialize (Hc e).
  destruct (c e) as [[[a|x] e1] t1]; cbn [snd] in *; [|assumption].
  specialize (Hk a e1). destruct (k a e1) as [[r e2] t2]. cbn [snd] in *.
  apply Forall_app. split; assumption.
Qed.

Lemma quiet_get : quiet get.
Proof. intros e. constructor. Qed.

Lemma quiet_set_current_state s : quiet (set_current_state s).
Proof. intros e. constructor. Qed.

Lemma quiet_set_current_set_name n : quiet (set_current_set_name n).
Proof. intros e. constructor. Qed.

Create HintDb quiet.
#[local] Hint Resolve quiet_ret quiet_raise quiet_lift quiet_get
  quiet_set_current_state quiet_set_current_set_name : quiet.
#[local] Hint Extern 1 (quiet (emit _)) =>
  (apply quiet_emit; reflexivity) : quiet.

(** Splits a sequence of statements, closing the parts already known. *)
Ltac quiet_steps :=
  repeat first
    [ solve [auto with quiet nocore]
    | match goal with
      | |- quiet (bind _ _) => apply quiet_bind; [|intro]
      end ].

Lemma quiet_play_loop_sound sound : quiet (play_loop_sound sound).
Proof.
  intros e. rewrite play_loop_sound_run. cbn [snd].
  destruct (current_channel e); repeat constructor.
Qed.

#[local] Hint Resolve quiet_play_loop_sound : quiet.

Lemma quiet_play_current_state lib : quiet (play_current_state lib).
Proof.
  unfold play_current_state. apply quiet_bind; [auto with quiet|].
  intros e. destruct (current_set_name e); [|quiet_steps].
  destruct (dict_get s lib); [|quiet_steps].
  destruct (_ && _)%bool; [|quiet_steps].
  destruct (nth_error _ _); quiet_steps.
Qed.
#[local] Hint Resolve quiet_play_current_state : quiet.

Lemma quiet_start_set lib n : quiet (start_set lib n).
Proof. unfold start_set. quiet_steps. Qed.
#[local] Hint Resolve quiet_start_set : quiet.

Lemma quiet_transition lib a name e0 : quiet (transition lib a name e0).
Proof.
  unfold transition.
  destruct (_ =? 1)%Z; [|destruct (_ =? 2)%Z; [|destruct (_ =? 3)%Z]];
    quiet_steps.
Qed.

Lemma notify_events_quiet on_step r :
  Forall (fun ev => engine_event ev = true) (notify_events on_step r).
Proof. destruct on_step, r; repeat constructor. Qed.

(** A call of [advance_state] is its entry mark followed by events of the
    closures. *)
Lemma advance_state_trace lib on_step a e :
  exists body,
    snd (advance_state lib on_step a e) = Enter_advance_state :: body
    /\ Forall (fun ev => engine_event ev = true) body.
Proof.
  rewrite advance_state_eq.
  destruct (current_set_name e) as [name|]; [|exists []; split; constructor].
  pose proof (quiet_transition lib a name e e) as Hq.
  destruct (transition lib a name e e) as [[[[]|x] e1] t1]; cbn [snd] in *.
  - eexists. split; [reflexivity|].
    apply Forall_app. split; [assumption | apply notify_events_quiet].
  - eexists. split; [reflexivity | assumption].
Qed.

(** ** Counting calls and samples in a trace *)

Lemma calls_before_sample_quiet body tr :
  Forall (fun ev => engine_event ev = true) body ->
  calls_before_sample (body ++ tr) = calls_before_sample tr.
Proof.
  induction 1 as [|ev body Hev _ IH]; [reflexivity|].
  destruct ev; try discriminate; simpl; assumption.
Qed.

Lemma calls_by_sample_quiet body tr :
  Forall (fun ev => engine_event ev = true) body ->
  calls_by_sample (body ++ tr) = calls_by_sample tr.
Proof.
  induction 1 as [|ev body Hev _ IH]; [reflexivity|].
  destruct ev; try discriminate; simpl; assumption.
Qed.

Lemma calls_quiet body tr :
  Forall (fun ev => engine_event ev = true) body ->
  calls (body ++ tr) = calls tr.
Proof.
  induction 1 as [|ev body Hev _ IH]; [reflexivity|].
  destruct ev; try discriminate; simpl; assumption.
Qed.

Lemma calls_edge_calls h samples :
  list_sum (map snd (edge_calls h samples)) = presses h samples.
Proof.
  revert h. induction samples as [|b r IH]; intros h; simpl; [reflexivity|].
  now rewrite IH.
Qed.

Lemma calls_by_sample_sum tr :
  calls tr = calls_before_sample tr + list_sum (map snd (calls_by_sample tr)).
Proof.
  induction tr as [|ev tr IH]; [reflexivity|].
  destruct ev; simpl; lia.
Qed.

(** ** The state machine *)

Lemma played_app t1 t2 : played (t1 ++ t2) = played t1 ++ played t2.
Proof.
  induction t1 as [|ev t1 IH]; [reflexivity|].
  destruct ev; simpl; rewrite ?IH; reflexivity.
Qed.

Lemma notified_app t1 t2 : notified (t1 ++ t2) = notified t1 ++ notified t2.
Proof.
  induction t1 as [|ev t1 IH]; [reflexivity|].
  destruct ev; simpl; rewrite ?IH; reflexivity.
Qed.

Lemma played_prints msgs : played (map Print_line msgs) = [].
Proof. induction msgs; simpl; auto. Qed.

Lemma notified_prints msgs : notified (map Print_line msgs) = [].
Proof. induction msgs; simpl; auto. Qed.

Lemma played_notify_events on_step r : played (notify_events on_step r) = [].
Proof. destruct on_step, r; reflexivity. Qed.

Lemma existsb_invalid_crossfade channel sound :
  existsb reports_invalid_state (crossfade channel sound) = false.
Proof. destruct channel; reflexivity. Qed.

Lemma existsb_invalid_notify on_step r :
  existsb reports_invalid_state (notify_events on_step r) = false.
Proof. destruct on_step, r; reflexivity. Qed.

Section MachineFacts.

Variable music_sets : Library.
Hypothesis three_tracks :
  forall n sounds, dict_get n music_sets = Some sounds ->
                   List.length sounds = 3.

(** One call of [advance_state] from a state whose set is in the library:
    the new state, the sound now on the channel, and the whole trace. *)
Lemma advance_state_run on_step a e name :
  current_set_name e = Some name ->
  In name (keys music_sets) ->
  exists name' sounds' sound msgs,
    advance_state music_sets on_step a e
    = (notify_result on_step (notify a),
       {| current_set_name := Some name';
          current_state := next_state (current_state e);
          current_channel := Some sound |},
       Enter_advance_state
         :: (map Print_line msgs ++ crossfade (current_channel e) sound)
         ++ notify_events on_step (notify a))
    /\ (if (current_state e =? 3)%Z
        then choose_random_set music_sets (Some name) (draw a) = Ok name'
        else name' = name)
    /\ dict_get name' music_sets = Some sounds'
    /\ nth_error sounds' (Z.to_nat (next_state (current_state e) - 1))
       = Some sound
    /\ existsb reports_invalid_state (map Print_line msgs) = false.
Proof.
  intros Hn Hin.
  destruct (advance_state_quiet music_sets three_tracks a e name Hn Hin)
    as (name' & sounds' & sound & msgs & Hrun & Hrest).
  exists name', sounds', sound, msgs. split; [|exact Hrest].
  rewrite advance_state_eq in Hrun |- *. rewrite Hn in *.
  destruct (transition music_sets a name e e) as [[[[]|x] e1] t1];
    [|discriminate].
  cbn [notify_events notify_result] in Hrun. rewrite app_nil_r in Hrun.
  injection Hrun as -> ->. reflexivity.
Qed.

Lemma advance_state_inv on_step a e :
  inv music_sets e ->
  exists e' tr,
    advance_state music_sets on_step a e
    = (advance_result on_step a e, e', tr)
    /\ inv music_sets e'
    /\ existsb reports_invalid_state tr = false.
Proof.
  intros [Hs Hn]. unfold advance_result.
  destruct (current_set_name e) as [name|] eqn:En.
  - destruct (Hn name eq_refl) as [sounds [Hget _]].
    assert (Hin : In name (keys music_sets))
      by (apply dict_get_in_keys; eauto).
    destruct (advance_state_run on_step a e name En Hin)
      as (name' & sounds' & sound & msgs & Hrun & _ & Hget' & _ & Hmsgs).
    eexists _, _. split; [exact Hrun|]. split.
    + split; cbn [current_state current_set_name].
      * pose proof (next_state_range (current_state e)).
        unfold next_state in *.
        destruct (_ =? 1)%Z; [|destruct (_ =? 2)%Z]; auto.
      * intros n [= <-]. eauto.
    + cbn [existsb reports_invalid_state].
      rewrite !existsb_app, Hmsgs, existsb_invalid_crossfade,
        existsb_invalid_notify. reflexivity.
  - rewrite advance_state_eq, En. eexists _, _.
    split; [reflexivity|]. split; [|reflexivity].
    split; [assumption|]. intros n Hc. congruence.
Qed.

(** An exception leaves [advance_state] only through the callback. *)
Lemma advance_state_raise on_step a e x e1 t1 :
  inv music_sets e ->
  advance_state music_sets on_step a e = (Raise x, e1, t1) ->
  on_step = true /\ let_through t1 x.
Proof.
  intros [Hs Hn] Hadv. destruct (current_set_name e) as [name|] eqn:En.
  - destruct (Hn name eq_refl) as [sounds [Hget _]].
    assert (Hin : In name (keys music_sets))
      by (apply dict_get_in_keys; eauto).
    destruct (advance_state_run on_step a e name En Hin)
      as (name' & sounds' & sound & msgs & Hrun & _).
    rewrite Hrun in Hadv. injection Hadv as Hres _ <-.
    unfold notify_result in Hres. destruct on_step; [|discriminate].
    destruct (notify a) as [| |b] eqn:Ena; try discriminate.
    injection Hres as <-. split; [reflexivity|].
    exists b. split; [reflexivity|]. right.
    apply in_or_app. right. cbn [notify_events]. now left.
  - rewrite advance_state_eq, En in Hadv. discriminate.
Qed.

End MachineFacts.

(** C1: in a library of three-track sets, [advance_state] from state 1
    (resp. 2) of a chosen set moves to state 2 (resp. 3), keeps the set
    name, and crossfades to the track at index [state - 1] of that set,
    for the new state: this is the only sound it starts and the one the
    channel plays afterwards.  Then comes the call of [on_step], if there
    is one, and the call ends as the callback lets it ([notify_result]:
    normally, unless the callback raises an exception that is not of
    class [Exception]). *)
Theorem advance_within_set lib on_step a e name sounds :
  lib_ok lib ->
  current_set_name e = Some name ->
  dict_get name lib = Some sounds ->
  (current_state e = 1 \/ current_state e = 2)%Z ->
  exists e' tr sound,
    advance_state lib on_step a e
    = (notify_result on_step (notify a), e', tr)
    /\ current_state e' = (current_state e + 1)%Z
    /\ current_set_name e' = Some name
    /\ nth_error sounds (Z.to_nat (current_state e' - 1)) = Some sound
    /\ played tr = [sound]
    /\ current_channel e' = Some sound
    /\ exists msgs,
         tr = Enter_advance_state
                :: (map Print_line msgs ++ crossfade (current_channel e) sound)
                ++ notify_events on_step (notify a).
Proof.
  intros [_ H3] Hn Hget Hs.
  assert (Hin : In name (keys lib)) by (apply dict_get_in_keys; eauto).
  destruct (advance_state_run lib H3 on_step a e name Hn Hin)
    as (name' & sounds' & sound & msgs & Hrun & Hname & Hget' & Hnth & _).
  assert (E3 : (current_state e =? 3)%Z = false)
    by (apply Z.eqb_neq; lia).
  rewrite E3 in Hname. subst name'.
  assert (sounds' = sounds) by congruence. subst sounds'.
  assert (Hnext : next_state (current_state e) = (current_state e + 1)%Z)
    by (unfold next_state; destruct Hs as [-> | ->]; reflexivity).
  rewrite Hnext in *.
  eexists _, _, sound. split; [exact Hrun|].
  cbn [current_state current_set_name current_channel].
  repeat split; try assumption.
  - cbn [played]. rewrite !played_app, played_prints, played_crossfade,
      played_notify_events. reflexivity.
  - exists msgs. reflexivity.
Qed.

Lemma advance_within_set_witness :
  exists e' tr sound,
    advance_state demo_library true (quiet_answers 0)
      (demo_engine 1 "sets/A/a1.wav") = (Ok tt, e', tr)
    /\ current_state e' = (1 + 1)%Z
    /\ current_set_name e' = Some "A"
    /\ nth_error [SoundOf "sets/A/a1.wav"; SoundOf "sets/A/a2.WAV";
                  SoundOf "sets/A/a3.ogg"]
         (Z.to_nat (current_state e' - 1)) = Some sound
    /\ played tr = [sound]
    /\ current_channel e' = Some sound
    /\ exists msgs,
         tr = Enter_advance_state
                :: (map Print_line msgs
                      ++ crossfade (Some (SoundOf "sets/A/a1.wav")) sound)
                ++ notify_events true Returned.
Proof.
  apply (advance_within_set demo_library true (quiet_answers 0)
           (demo_engine 1 "sets/A/a1.wav") "A").
  - apply load_sets_ok.
  - reflexivity.
  - reflexivity.
  - left. reflexivity.
Defined.





(** In a run, such a callback at the first press ends the engine: the
    transition is made, the callback is called, nothing is logged, the
    [finally] block runs, and the exception leaves [run_engine]; the
    later ticks are not looked at. *)
Example exit_in_callback_ends_the_run :
  (exists e, fst (run_engine "r" true true exit_world)
             = Escaped SystemExit e)
  /\ skipn 9 (snd (run_engine "r" true true exit_world))
     = [Stop_is_set false; Is_pressed "r" true; Enter_advance_state;
        Print_line (MsgToState2 "A"); Print_line (MsgPlaying "A" 2);
        Fadeout 250; Play (SoundOf "sets/A/a2.WAV") (-1) 250;
        On_step (Propagated Base_SystemExit);
        Fadeout 500; Sleep 500; Print_line MsgEngineStopped].
Proof. split; [eexists|]; reflexivity. Qed.

(** ** The switch to a new set *)










(** ** Startup *)

Lemma load_sounds_prints fs folder_path files :
  Forall (fun ev => startup_event ev = true)
    (snd (load_sounds fs folder_path files)).
Proof.
  induction files as [|f files IH]; simpl; [constructor|].
  destruct (load_sounds fs folder_path files) as [sounds tr].
  destruct (mixer_Sound fs (path_join folder_path f)); cbn [snd] in *;
    [assumption | constructor; [reflexivity | assumption]].
Qed.

Lemma scan_folder_prints fs folder :
  Forall (fun ev => startup_event ev = true) (snd (scan_folder fs folder)).
Proof.
  rewrite scan_folder_eq.
  destruct (negb _); [constructor|].
  destruct (recognized fs folder); [constructor|].
  pose proof (load_sounds_prints fs (folder_path_of folder)
                (selected fs folder)) as H.
  destruct (load_sounds _ _ _) as [sounds tr]. cbn [snd] in H.
  destruct (_ =? 3); cbn [snd]; [assumption|].
  apply Forall_app. split; [assumption | repeat constructor].
Qed.

Lemma scan_folders_prints fs folders d :
  Forall (fun ev => startup_event ev = true)
    (snd (scan_folders fs folders d)).
Proof.
  revert d. induction folders as [|f folders IH]; intros d; simpl;
    [constructor|].
  pose proof (scan_folder_prints fs f) as Hf.
  destruct (scan_folder fs f) as [found tr].
  match goal with
  | |- context [scan_folders fs folders ?d'] =>
      specialize (IH d'); destruct (scan_folders fs folders d') as [lib tr']
  end.
  cbn [snd] in *. apply Forall_app. split; assumption.
Qed.

Lemma startup_events_silent tr :
  Forall (fun ev => startup_event ev = true) tr ->
  played tr = [] /\ notified tr = [] /\ calls tr = 0
  /\ Forall (fun ev => loop_event ev = false) tr.
Proof.
  induction 1 as [|ev tr Hev _ (Hp & Hn & Hc & Hl)].
  - repeat split. constructor.
  - destruct ev; try discriminate; simpl; repeat split; auto.
Qed.

(** C5: when the sets folder is missing, or when the scan yields no valid
    set, [run_engine] prints the condition as its last line and returns
    there: the trace holds nothing but printed lines (and the mixer
    initialisation), so no sound is started, [on_step] is not called, and
    no pass of the main loop is made. *)
Theorem no_sets_no_engine key on_step stop_event w :
  isdir (files w) SETS_PATH = false \/ fst (load_sets (files w)) = [] ->
  exists pre,
    run_engine key on_step stop_event w
    = (if isdir (files w) SETS_PATH then No_valid_sets else No_sets_folder,
       pre ++ [Print_line (if isdir (files w) SETS_PATH then MsgNoValidSets
                      else MsgSetsFolderNotFound SETS_PATH)])
    /\ Forall (fun ev => startup_event ev = true) pre
    /\ played (snd (run_engine key on_step stop_event w)) = []
    /\ notified (snd (run_engine key on_step stop_event w)) = []
    /\ calls (snd (run_engine key on_step stop_event w)) = 0
    /\ Forall (fun ev => loop_event ev = false)
         (snd (run_engine key on_step stop_event w)).
Proof.
  intros H.
  assert (Hrun : exists pre,
    run_engine key on_step stop_event w
    = (if isdir (files w) SETS_PATH then No_valid_sets else No_sets_folder,
       pre ++ [Print_line (if isdir (files w) SETS_PATH then MsgNoValidSets
                      else MsgSetsFolderNotFound SETS_PATH)])
    /\ Forall (fun ev => startup_event ev = true) pre).
  { unfold run_engine.
    destruct (isdir (files w) SETS_PATH) eqn:Ed; cbn [negb].
    - destruct H as [H|H]; [discriminate|].
      pose proof (scan_folders_prints (files w)
                    (listdir (files w) SETS_PATH) []) as Hp.
      fold (load_sets (files w)) in Hp.
      destruct (load_sets (files w)) as [lib t1]. cbn [fst snd] in *.
      subst lib. eexists. rewrite app_assoc. split; [reflexivity|].
      apply Forall_app. split; [|assumption].
      destruct (mixer_ready w); repeat constructor.
    - eexists. split; [reflexivity|].
      destruct (mixer_ready w); repeat constructor. }
  destruct Hrun as [pre [Hrun Hpre]]. exists pre.
  split; [exact Hrun|]. split; [exact Hpre|].
  rewrite Hrun. cbn [snd].
  apply startup_events_silent.
  apply Forall_app. split; [assumption | repeat constructor].
Qed.

Lemma no_sets_no_engine_witness :
  exists pre,
    run_engine "r" true true no_set_world
    = (No_valid_sets, pre ++ [Print_line MsgNoValidSets])
    /\ Forall (fun ev => startup_event ev = true) pre
    /\ played (snd (run_engine "r" true true no_set_world)) = []
    /\ notified (snd (run_engine "r" true true no_set_world)) = []
    /\ calls (snd (run_engine "r" true true no_set_world)) = 0
    /\ Forall (fun ev => loop_event ev = false)
         (snd (run_engine "r" true true no_set_world)).
Proof.
  apply (no_sets_no_engine "r" true true no_set_world).
  right. reflexivity.
Defined.

(** ** Edge-triggered polling *)

Section PollingFacts.

Variable music_sets : Library.
Variable on_step : bool.
Variable trigger_key : string.
Variable stop_event : bool.

Local Abbreviation loop :=
  (main_loop music_sets on_step trigger_key stop_event).

Lemma calls_before_sample_pre s p tr :
  calls_before_sample
    (((if stop_event then [Stop_is_set s] else [])
        ++ [Is_pressed trigger_key p]) ++ tr) = 0.
Proof. destruct stop_event; reflexivity. Qed.

Lemma calls_by_sample_pre s p tr :
  calls_by_sample
    (((if stop_event then [Stop_is_set s] else [])
        ++ [Is_pressed trigger_key p]) ++ tr)
  = (p, calls_before_sample tr) :: calls_by_sample tr.
Proof. destruct stop_event; reflexivity. Qed.

(** The calls of [advance_state], sample by sample. *)
Lemma main_loop_edges ticks h e :
  calls_before_sample (snd (loop ticks h e)) = 0
  /\ calls_by_sample (snd (loop ticks h e))
     = edge_calls h (map fst (calls_by_sample (snd (loop ticks h e)))).
Proof.
  revert h e. induction ticks as [|[s p a|] rest IH]; intros h e;
    [split; reflexivity | | split; reflexivity].
  rewrite main_loop_poll.
  destruct (stop_event && s)%bool eqn:Estop.
  { destruct stop_event, s; try discriminate. split; reflexivity. }
  cbv zeta.
  destruct (p && negb h)%bool eqn:Eedge.
  - destruct (advance_state_trace music_sets on_step a e) as [body [Ht Hq]].
    destruct (advance_state music_sets on_step a e) as [[[u|x] e1] t1];
      cbn [snd] in Ht; subst t1.
    + destruct (IH true e1) as [IH0 IH1].
      destruct (loop rest true e1) as [[r e2] t2]. cbn [snd] in *.
      rewrite calls_before_sample_pre, calls_by_sample_pre.
      split; [reflexivity|].
      rewrite <- app_comm_cons.
      cbn [calls_before_sample calls_by_sample].
      rewrite calls_before_sample_quiet, calls_by_sample_quiet by assumption.
      cbn [calls_before_sample calls_by_sample map fst edge_calls].
      rewrite Eedge, IH0.
      apply andb_true_iff in Eedge. destruct Eedge as [-> _].
      now rewrite <- IH1.
    + cbn [snd].
      rewrite calls_before_sample_pre, calls_by_sample_pre.
      split; [reflexivity|].
      cbn [calls_before_sample calls_by_sample].
      rewrite <- (app_nil_r body).
      rewrite calls_before_sample_quiet, calls_by_sample_quiet by assumption.
      cbn [calls_before_sample calls_by_sample map fst edge_calls].
      now rewrite Eedge.
  - destruct (IH p e) as [IH0 IH1].
    destruct (loop rest p e) as [[r e2] t2]. cbn [snd] in *.
    rewrite calls_before_sample_pre, calls_by_sample_pre.
    split; [reflexivity|].
    cbn [calls_before_sample calls_by_sample map fst edge_calls].
    rewrite Eedge, IH0. now rewrite <- IH1.
Qed.

(** The samples in the trace are the samples the ticks offer, when the
    loop ends without an exception. *)
Lemma main_loop_samples ticks h e r :
  fst (fst (loop ticks h e)) = Ok r ->
  map fst (calls_by_sample (snd (loop ticks h e)))
  = samples_taken stop_event ticks.
Proof.
  revert h e. induction ticks as [|[s p a|] rest IH]; intros h e;
    [reflexivity | | discriminate].
  rewrite main_loop_poll. cbn [samples_taken].
  destruct (stop_event && s)%bool eqn:Estop.
  { destruct stop_event, s; try discriminate. reflexivity. }
  cbv zeta.
  destruct (p && negb h)%bool eqn:Eedge.
  - destruct (advance_state_trace music_sets on_step a e) as [body [Ht Hq]].
    destruct (advance_state music_sets on_step a e) as [[[u|x] e1] t1];
      cbn [snd] in Ht; subst t1; [|discriminate].
    specialize (IH true e1).
    destruct (loop rest true e1) as [[r' e2] t2]. cbn [fst snd] in *.
    intros Hr. rewrite calls_by_sample_pre. cbn [map fst].
    rewrite <- app_comm_cons. cbn [calls_by_sample].
    rewrite calls_by_sample_quiet by assumption.
    cbn [calls_by_sample]. now rewrite IH.
  - specialize (IH p e).
    destruct (loop rest p e) as [[r' e2] t2]. cbn [fst snd] in *.
    intros Hr. rewrite calls_by_sample_pre. cbn [map fst calls_by_sample].
    now rewrite IH.
Qed.

End PollingFacts.

(** C6: in the trace of the main loop, [advance_state] is called exactly
    once after a key sample that finds the key down when the sample
    before found it up (or, for the first sample, when the latch is
    clear), and not at all after any other sample, nor before the first
    one; so the number of calls is the number of continuous presses.  The
    samples are those of the ticks, up to the tick that stops the loop. *)
Theorem advance_once_per_press lib on_step key stop_event ticks key_held e :
  let tr := snd (main_loop lib on_step key stop_event ticks key_held e) in
  let samples := map fst (calls_by_sample tr) in
  calls_before_sample tr = 0
  /\ calls_by_sample tr = edge_calls key_held samples
  /\ calls tr = presses key_held samples
  /\ forall r,
       fst (fst (main_loop lib on_step key stop_event ticks key_held e)) = Ok r ->
       samples = samples_taken stop_event ticks.
Proof.
  cbv zeta.
  destruct (main_loop_edges lib on_step key stop_event ticks key_held e)
    as [H0 H1].
  repeat split; try assumption.
  - rewrite calls_by_sample_sum, H0, H1 at 1.
    now rewrite calls_edge_calls.
  - apply main_loop_samples.
Qed.

Lemma advance_once_per_press_witness :
  map fst (calls_by_sample
             (snd (main_loop demo_library true "r" true demo_ticks false
                     (demo_engine 1 "sets/A/a1.wav"))))
  = [true; true; false; true].
Proof.
  apply (proj2 (proj2 (proj2
           (advance_once_per_press demo_library true "r" true demo_ticks
              false (demo_engine 1 "sets/A/a1.wav")))) Broke).
  reflexivity.
Defined.

(** ** Cancellation and shutdown *)

Lemma engine_event_not_loop ev : engine_event ev = true -> loop_event ev = false.
Proof. destruct ev; simpl; congruence. Qed.

Lemma engine_event_not_flag ev :
  engine_event ev = true -> flag_seen_set ev = false.
Proof. destruct ev; simpl; congruence. Qed.

Lemma startup_event_not_flag ev :
  startup_event ev = true -> flag_seen_set ev = false.
Proof. destruct ev; simpl; congruence. Qed.

Lemma existsb_none {A} (f g : A -> bool) l :
  (forall x, g x = true -> f x = false) ->
  Forall (fun x => g x = true) l -> existsb f l = false.
Proof.
  intros Hfg. induction 1 as [|x l Hx _ IH]; [reflexivity|].
  simpl. now rewrite (Hfg x Hx), IH.
Qed.

Lemma advance_state_body lib on_step a e :
  Forall (fun ev => loop_event ev = false)
    (snd (advance_state lib on_step a e))
  /\ existsb flag_seen_set (snd (advance_state lib on_step a e)) = false.
Proof.
  destruct (advance_state_trace lib on_step a e) as [body [-> Hq]]. split.
  - constructor; [reflexivity|].
    eapply Forall_impl; [|exact Hq]. apply engine_event_not_loop.
  - cbn [existsb flag_seen_set orb].
    apply (existsb_none _ _ _ engine_event_not_flag Hq).
Qed.

Lemma shutdown_run e :
  shutdown e
  = (Ok tt, e,
     match current_channel e with
     | Some _ => [Fadeout 500; Sleep 500; Print_line MsgEngineStopped]
     | None => [Print_line MsgEngineStopped]
     end).
Proof. destruct e as [n s [c|]]; reflexivity. Qed.

Section CancellationFacts.

Variable music_sets : Library.
Variable on_step : bool.
Variable trigger_key : string.

Local Abbreviation loop := (main_loop music_sets on_step trigger_key).

Lemma main_loop_passes ticks h e :
  passes trigger_key (snd (loop true ticks h e)).
Proof.
  revert h e. induction ticks as [|[s p a|] rest IH]; intros h e;
    [constructor | | constructor].
  rewrite main_loop_poll. cbn [andb]. destruct s; [constructor|].
  cbv zeta. cbn [app].
  destruct (p && negb h)%bool.
  - destruct (advance_state_body music_sets on_step a e) as [Hb _].
    destruct (advance_state music_sets on_step a e) as [[[u|x] e1] t1];
      cbn [snd] in Hb.
    + specialize (IH true e1).
      destruct (loop true rest true e1) as [[r e2] t2]. cbn [snd] in *.
      now apply passes_pass.
    + now apply passes_raise.
  - specialize (IH p e).
    destruct (loop true rest p e) as [[r e2] t2]. cbn [snd] in *.
    apply (passes_pass trigger_key p [] t2); [constructor | assumption].
Qed.

Lemma main_loop_flag stop_event ticks h e :
  existsb flag_seen_set (snd (loop stop_event ticks h e)) = true ->
  exists e' pre,
    loop stop_event ticks h e = (Ok Broke, e', pre ++ [Stop_is_set true])
    /\ existsb flag_seen_set pre = false.
Proof.
  revert h e. induction ticks as [|[s p a|] rest IH]; intros h e;
    [discriminate | | discriminate].
  rewrite main_loop_poll.
  destruct (stop_event && s)%bool eqn:Estop.
  { apply andb_true_iff in Estop. destruct Estop as [_ ->].
    intros _. exists e, []. split; reflexivity. }
  cbv zeta.
  assert (Hpre : forall tr,
            existsb flag_seen_set
              (((if stop_event then [Stop_is_set s] else [])
                  ++ [Is_pressed trigger_key p]) ++ tr)
            = existsb flag_seen_set tr)
    by (intros tr; destruct stop_event, s; try discriminate; reflexivity).
  destruct (p && negb h)%bool.
  - destruct (advance_state_body music_sets on_step a e) as [_ Hf].
    destruct (advance_state music_sets on_step a e) as [[[u|x] e1] t1];
      cbn [snd] in Hf.
    + specialize (IH true e1).
      destruct (loop stop_event rest true e1) as [[r e2] t2].
      cbn [snd] in *. rewrite Hpre, existsb_app, Hf.
      cbn [existsb orb flag_seen_set].
      intros Hin. destruct (IH Hin) as (e' & pre & Heq & Hno).
      injection Heq as -> -> ->.
      exists e', (((if stop_event then [Stop_is_set s] else [])
                     ++ [Is_pressed trigger_key p])
                    ++ t1 ++ Sleep 20 :: pre).
      split.
      * rewrite <- !app_assoc. reflexivity.
      * rewrite Hpre, existsb_app, Hf. assumption.
    + cbn [snd]. rewrite Hpre, Hf. discriminate.
  - specialize (IH p e).
    destruct (loop stop_event rest p e) as [[r e2] t2].
    cbn [snd] in *. rewrite Hpre. cbn [existsb orb flag_seen_set].
    intros Hin. destruct (IH Hin) as (e' & pre & Heq & Hno).
    injection Heq as -> -> ->.
    exists e', (((if stop_event then [Stop_is_set s] else [])
                   ++ [Is_pressed trigger_key p])
                  ++ Sleep 20 :: pre).
    split.
    + rewrite <- !app_assoc. reflexivity.
    + rewrite Hpre. assumption.
Qed.

End CancellationFacts.

(** ** The run as a whole *)

Lemma quiet_start_engine lib key d : quiet (start_engine lib key d).
Proof. unfold start_engine. quiet_steps. Qed.

(** [run_engine] once the sets folder exists: the loading, the first set,
    the loop, and the end. *)
Lemma run_engine_eq key on_step stop_event w :
  isdir (files w) SETS_PATH = true ->
  run_engine key on_step stop_event w
  = let lib := fst (load_sets (files w)) in
    let t1 := snd (load_sets (files w)) in
    match lib with
    | [] => (No_valid_sets, banner key w ++ t1 ++ [Print_line MsgNoValidSets])
    | _ :: _ =>
        let pre := banner key w ++ t1 ++ [Print_line (MsgLoadedSets (keys lib))] in
        match start_engine lib key (first_draw w) (initial_engine w) with
        | (Raise x, e, t3) => (Escaped x e, pre ++ t3)
        | (Ok _, e, t3) =>
            let '(r, e', t4) :=
              main_loop lib on_step key stop_event (ticks w) false e in
            finish r e' (pre ++ t3 ++ t4)
        end
    end.
Proof.
  intros Hd. unfold run_engine. rewrite Hd. cbn [negb].
  fold (banner key w).
  destruct (load_sets (files w)) as [lib t1]. cbn [fst snd].
  destruct lib as [|kv lib]; [reflexivity|].
  cbv zeta. fold (start_engine (kv :: lib) key (first_draw w)).
  destruct (start_engine (kv :: lib) key (first_draw w) (initial_engine w))
    as [[[u|x] e] t3].
  - destruct (main_loop (kv :: lib) on_step key stop_event (ticks w) false e)
      as [[[[|h]|x] e'] t4]; unfold finish.
    + destruct (shutdown e') as [[r5 e5] t5]. cbn [fst snd].
      rewrite <- !app_assoc. reflexivity.
    + rewrite <- !app_assoc. reflexivity.
    + destruct x; unfold bind, emit;
        destruct (shutdown e') as [[r5 e5] t5]; cbn [fst snd];
        rewrite <- !app_assoc; reflexivity.
  - rewrite <- !app_assoc. reflexivity.
Qed.

Lemma run_engine_no_folder key on_step stop_event w :
  isdir (files w) SETS_PATH = false ->
  run_engine key on_step stop_event w
  = (No_sets_folder,
     banner key w ++ [Print_line (MsgSetsFolderNotFound SETS_PATH)]).
Proof. intros Hd. unfold run_engine. rewrite Hd. reflexivity. Qed.

Lemma banner_before_loop key w :
  Forall (fun ev => before_loop ev = true) (banner key w).
Proof. unfold banner. destruct (mixer_ready w); repeat constructor. Qed.

Lemma load_sets_before_loop fs :
  Forall (fun ev => before_loop ev = true) (snd (load_sets fs)).
Proof.
  eapply Forall_impl; [|apply scan_folders_prints].
  intros ev H. unfold before_loop. now rewrite H.
Qed.

Lemma quiet_before_loop tr :
  Forall (fun ev => engine_event ev = true) tr ->
  Forall (fun ev => before_loop ev = true) tr.
Proof.
  apply Forall_impl. intros ev H. unfold before_loop. rewrite H.
  apply orb_true_r.
Qed.

Lemma before_loop_not_flag ev : before_loop ev = true -> flag_seen_set ev = false.
Proof. destruct ev; cbv; intros H; try discriminate H; reflexivity. Qed.

Lemma shutdown_no_flag e : existsb flag_seen_set (snd (shutdown e)) = false.
Proof. rewrite shutdown_run. destruct (current_channel e); reflexivity. Qed.

(** Once the flag is seen set, the run ends in [Stopped] through the
    [finally] block, and nothing else happens in between. *)
Lemma run_engine_flag key on_step stop_event w :
  existsb flag_seen_set (snd (run_engine key on_step stop_event w)) = true ->
  exists e pre,
    run_engine key on_step stop_event w
    = (Stopped (snd (fst (shutdown e))),
       pre ++ Stop_is_set true :: snd (shutdown e))
    /\ existsb flag_seen_set pre = false.
Proof.
  destruct (isdir (files w) SETS_PATH) eqn:Ed.
  2:{ rewrite run_engine_no_folder by assumption. cbn [snd].
      rewrite existsb_app.
      rewrite (existsb_none _ _ _ before_loop_not_flag
                 (banner_before_loop key w)). discriminate. }
  rewrite run_engine_eq by assumption. cbv zeta.
  pose proof (load_sets_before_loop (files w)) as Hload.
  pose proof (banner_before_loop key w) as Hban.
  destruct (fst (load_sets (files w))) as [|kv lib'] eqn:Elib.
  { cbn [snd]. rewrite !existsb_app.
    rewrite (existsb_none _ _ _ before_loop_not_flag Hban),
      (existsb_none _ _ _ before_loop_not_flag Hload). discriminate. }
  set (lib := kv :: lib') in *.
  pose proof (quiet_start_engine lib key (first_draw w) (initial_engine w))
    as Hq.
  apply quiet_before_loop in Hq.
  destruct (start_engine lib key (first_draw w) (initial_engine w))
    as [[[u|x] e] t3]; cbn [snd] in Hq.
  2:{ cbn [snd]. rewrite !existsb_app.
      rewrite (existsb_none _ _ _ before_loop_not_flag Hban),
        (existsb_none _ _ _ before_loop_not_flag Hload),
        (existsb_none _ _ _ before_loop_not_flag Hq). discriminate. }
  pose proof (main_loop_flag lib on_step key stop_event (ticks w) false e)
    as Hflag.
  destruct (main_loop lib on_step key stop_event (ticks w) false e)
    as [[r e'] t4]. cbn [snd] in Hflag.
  pose proof (existsb_none _ _ _ before_loop_not_flag Hban) as Eb.
  pose proof (existsb_none _ _ _ before_loop_not_flag Hload) as El.
  pose proof (existsb_none _ _ _ before_loop_not_flag Hq) as Es.
  assert (Hin : existsb flag_seen_set (snd (finish r e'
                  ((banner key w ++ snd (load_sets (files w))
                      ++ [Print_line (MsgLoadedSets (keys lib))]) ++ t3 ++ t4)))
                = true -> existsb flag_seen_set t4 = true).
  { unfold finish. destruct r as [[|h]|x]; [| |destruct x]; cbn [snd];
      rewrite ?existsb_app; rewrite ?Eb, ?El, ?Es;
      cbn [existsb flag_seen_set orb];
      rewrite ?shutdown_no_flag, ?orb_false_r; intros H; exact H. }
  intros H. specialize (Hflag (Hin H)).
  destruct Hflag as (e2 & pre & Heq & Hno). injection Heq as -> -> ->.
  exists e2, ((banner key w ++ snd (load_sets (files w))
                 ++ [Print_line (MsgLoadedSets (keys lib))]) ++ t3 ++ pre).
  split.
  - unfold finish. rewrite <- !app_assoc. reflexivity.
  - rewrite ?existsb_app. rewrite Eb, El, Es, Hno. reflexivity.
Qed.

(** C8: with a stop event, every pass of the main loop begins with the
    check of the flag, and the key is sampled only after a check that
    found the flag clear; a check that finds the flag set ends the loop at
    once, without a key sample and whatever ticks remain.  The [finally]
    block calls the fade-out of the channel (and waits) only when a sound
    is on it, prints that the engine stopped, and leaves the engine state
    as it is.  In a run of [run_engine], once the flag was seen set
    nothing follows but that block, and the run ends as stopped. *)
Theorem cancellation_checked_first lib on_step key :
  (forall ticks key_held e,
     passes key (snd (main_loop lib on_step key true ticks key_held e)))
  /\ (forall is_pressed a rest key_held e,
        main_loop lib on_step key true (Poll true is_pressed a :: rest)
          key_held e
        = (Ok Broke, e, [Stop_is_set true]))
  /\ (forall e,
        shutdown e
        = (Ok tt, e,
           match current_channel e with
           | Some _ => [Fadeout 500; Sleep 500; Print_line MsgEngineStopped]
           | None => [Print_line MsgEngineStopped]
           end))
  /\ (forall stop_event w,
        existsb flag_seen_set (snd (run_engine key on_step stop_event w))
        = true ->
        exists e pre,
          run_engine key on_step stop_event w
          = (Stopped (snd (fst (shutdown e))),
             pre ++ Stop_is_set true :: snd (shutdown e))
          /\ existsb flag_seen_set pre = false).
Proof.
  split; [|split; [|split]].
  - apply main_loop_passes.
  - intros. now rewrite main_loop_poll.
  - apply shutdown_run.
  - apply run_engine_flag.
Qed.

Lemma cancellation_checked_first_witness :
  exists e pre,
    run_engine "r" true true demo_world
    = (Stopped (snd (fst (shutdown e))),
       pre ++ Stop_is_set true :: snd (shutdown e))
    /\ existsb flag_seen_set pre = false.
Proof.
  apply (proj2 (proj2 (proj2
           (cancellation_checked_first demo_library true "r"))) true
           demo_world).
  reflexivity.
Defined.

(** ** The invariant *)

Lemma random_choice_In d names n : random_choice d names = Ok n -> In n names.
Proof.
  unfold random_choice.
  destruct (nth_error names (d mod List.length names)) eqn:E; [|discriminate].
  intros [= <-]. eapply nth_error_In; eassumption.
Qed.

Lemma inv_initial lib channel : inv lib (entry_engine channel).
Proof. split; [left; reflexivity | discriminate]. Qed.

Section InvariantFacts.

Variable music_sets : Library.
Hypothesis three_tracks :
  forall n sounds, dict_get n music_sets = Some sounds ->
                   List.length sounds = 3.
Variable on_step : bool.

Lemma start_set_run n e :
  In n (keys music_sets) ->
  exists sounds sound,
    dict_get n music_sets = Some sounds
    /\ nth_error sounds 0 = Some sound
    /\ start_set music_sets n e
       = (Ok tt,
          {| current_set_name := Some n;
             current_state := 1;
             current_channel := Some sound |},
          Print_line (MsgSwitchedToSet n) :: Print_line (MsgPlaying n 1)
            :: crossfade (current_channel e) sound).
Proof.
  intros Hin. apply dict_get_in_keys in Hin. destruct Hin as [sounds Hget].
  pose proof (three_tracks _ _ Hget) as Hlen.
  destruct (track_exists music_sets three_tracks n sounds 1 Hget ltac:(lia))
    as [sound Hs].
  exists sounds, sound. split; [assumption|]. split; [assumption|].
  unfold start_set, bind, set_current_set_name, set_current_state, emit.
  cbn [current_set_name current_state current_channel].
  erewrite play_current_state_run; cbn; eauto; try lia.
Qed.

Lemma start_set_inv n e :
  In n (keys music_sets) ->
  exists e' tr,
    start_set music_sets n e = (Ok tt, e', tr)
    /\ inv music_sets e'
    /\ existsb reports_invalid_state tr = false.
Proof.
  intros Hin. destruct (start_set_run n e Hin) as (sounds & sound & Hg & _ & Hrun).
  eexists _, _. split; [exact Hrun|]. split.
  - split; [left; reflexivity|]. cbn. intros m [= <-]. eauto.
  - cbn [existsb reports_invalid_state orb]. apply existsb_invalid_crossfade.
Qed.

Lemma play_current_state_inv e :
  inv music_sets e ->
  exists e' tr,
    play_current_state music_sets e = (Ok tt, e', tr)
    /\ inv music_sets e'
    /\ existsb reports_invalid_state tr = false.
Proof.
  intros [Hs Hn]. destruct (current_set_name e) as [name|] eqn:En.
  - destruct (Hn name eq_refl) as [sounds [Hget Hlen]].
    destruct (track_exists music_sets three_tracks name sounds
                (current_state e) Hget ltac:(lia)) as [sound Hsound].
    eexists _, _. split.
    + apply (play_current_state_run music_sets e name sounds sound);
        try assumption. lia.
    + split.
      * split; [exact Hs|]. cbn. intros m [= <-]. eauto.
      * cbn [existsb reports_invalid_state orb].
        apply existsb_invalid_crossfade.
  - exists e, []. unfold play_current_state, bind, get. rewrite En.
    repeat split; [exact Hs|]. intros m Hm. congruence.
Qed.

Lemma reachable_inv e : reachable music_sets on_step e -> inv music_sets e.
Proof.
  induction 1 as [c|c d n r e tr Hch Hst|a e0 r e tr Hre IH Hadv].
  - apply inv_initial.
  - apply random_choice_In in Hch.
    destruct (start_set_inv n (entry_engine c) Hch)
      as (e' & tr' & Heq & Hi & _).
    congruence.
  - destruct (advance_state_inv music_sets three_tracks on_step a e0 IH)
      as (e' & tr' & Heq & Hi & _).
    congruence.
Qed.

Lemma start_engine_run key d channel :
  music_sets <> [] ->
  exists e tr,
    start_engine music_sets key d (entry_engine channel) = (Ok tt, e, tr)
    /\ inv music_sets e
    /\ reachable music_sets on_step e
    /\ existsb reports_invalid_state tr = false.
Proof.
  intros Hne.
  destruct (choose_random_set_first music_sets d Hne) as [n [Hch Hin]].
  destruct (start_set_inv n (entry_engine channel) Hin)
    as (e & tr & Hrun & Hi & Hno).
  exists e, (tr ++ [Print_line (MsgPressToAdvance (upper key))]).
  unfold start_engine, bind, lift, emit. rewrite Hch, Hrun.
  split; [reflexivity|]. split; [assumption|]. split.
  - eapply reachable_start; eassumption.
  - rewrite existsb_app, Hno. reflexivity.
Qed.

Lemma main_loop_safe key stop_event ticks h e :
  inv music_sets e ->
  reachable music_sets on_step e ->
  exists r e' tr,
    main_loop music_sets on_step key stop_event ticks h e = (r, e', tr)
    /\ (forall x, r = Raise x ->
          x = KeyboardInterrupt \/ (on_step = true /\ let_through tr x))
    /\ inv music_sets e'
    /\ reachable music_sets on_step e'
    /\ existsb reports_invalid_state tr = false.
Proof.
  revert h e. induction ticks as [|[s p a|] rest IH]; intros h e Hi Hr.
  - exists (Ok (Polling h)), e, [].
    split; [reflexivity|]. split; [discriminate|]. auto.
  - rewrite main_loop_poll.
    destruct (stop_event && s)%bool.
    { exists (Ok Broke), e, [Stop_is_set s].
      split; [reflexivity|]. split; [discriminate|]. auto. }
    cbv zeta.
    assert (Hpre : forall tr,
              existsb reports_invalid_state
                (((if stop_event then [Stop_is_set s] else [])
                    ++ [Is_pressed key p]) ++ tr)
              = existsb reports_invalid_state tr)
      by (intros tr; destruct stop_event; reflexivity).
    destruct (p && negb h)%bool.
    + destruct (advance_state_inv music_sets three_tracks on_step a e Hi)
        as (e1 & t1 & Hadv & Hi1 & Hno1).
      pose proof (reachable_advance _ _ a e _ e1 t1 Hr Hadv) as Hr1.
      destruct (advance_result on_step a e) as [[]|x] eqn:Eres;
        rewrite Hadv.
      * destruct (IH true e1 Hi1 Hr1)
          as (r & e2 & t2 & Hloop & Hx & Hi2 & Hr2 & Hno2).
        rewrite Hloop. eexists _, _, _. split; [reflexivity|].
        split; [|split; [assumption|split; [assumption|]]].
        -- intros x Hrx. destruct (Hx x Hrx) as [->|[Ho (b & Hb & Hinb)]];
             [now left|]. right. split; [assumption|]. exists b.
           split; [assumption|]. apply in_or_app. right.
           apply in_or_app. right. now right.
        -- rewrite Hpre, existsb_app, Hno1.
           cbn [existsb reports_invalid_state orb]. assumption.
      * eexists _, _, _. split; [reflexivity|].
        split; [|split; [assumption|split; [assumption|]]].
        -- intros x0 [= <-]. right.
           destruct (advance_state_raise music_sets three_tracks on_step
                       a e x e1 t1 Hi Hadv) as [Ho (b & Hb & Hinb)].
           split; [assumption|]. exists b. split; [assumption|].
           apply in_or_app. now right.
        -- now rewrite Hpre.
    + destruct (IH p e Hi Hr)
        as (r & e2 & t2 & Hloop & Hx & Hi2 & Hr2 & Hno2).
      rewrite Hloop. eexists _, _, _. split; [reflexivity|].
      split; [|split; [assumption|split; [assumption|]]].
      * intros x Hrx. destruct (Hx x Hrx) as [->|[Ho (b & Hb & Hinb)]];
          [now left|]. right. split; [assumption|]. exists b.
        split; [assumption|]. apply in_or_app. right. now right.
      * rewrite Hpre. cbn [existsb reports_invalid_state orb]. assumption.
  - exists (Raise KeyboardInterrupt), e, [].
    split; [reflexivity|]. split; [|auto]. intros x [= <-]. now left.
Qed.

End InvariantFacts.

Lemma load_sounds_valid_reports fs folder_path files :
  existsb reports_invalid_state (snd (load_sounds fs folder_path files))
  = false.
Proof.
  induction files as [|f files IH]; simpl; [reflexivity|].
  destruct (load_sounds fs folder_path files) as [sounds tr].
  destruct (mixer_Sound fs (path_join folder_path f)); cbn [snd] in *;
    [assumption | cbn; assumption].
Qed.

Lemma scan_folder_valid_reports fs folder :
  existsb reports_invalid_state (snd (scan_folder fs folder)) = false.
Proof.
  rewrite scan_folder_eq.
  destruct (negb _); [reflexivity|].
  destruct (recognized fs folder); [reflexivity|].
  pose proof (load_sounds_valid_reports fs (folder_path_of folder)
                (selected fs folder)) as H.
  destruct (load_sounds _ _ _) as [sounds tr]. cbn [snd] in H.
  destruct (_ =? 3); cbn [snd]; [assumption|].
  rewrite existsb_app, H. reflexivity.
Qed.

Lemma scan_folders_valid_reports fs folders d :
  existsb reports_invalid_state (snd (scan_folders fs folders d)) = false.
Proof.
  revert d. induction folders as [|f folders IH]; intros d; simpl;
    [reflexivity|].
  pose proof (scan_folder_valid_reports fs f) as Hf.
  destruct (scan_folder fs f) as [found tr].
  match goal with
  | |- context [scan_folders fs folders ?d'] =>
      specialize (IH d'); destruct (scan_folders fs folders d') as [lib tr']
  end.
  cbn [snd] in *. now rewrite existsb_app, Hf, IH.
Qed.

Lemma banner_valid_reports key w :
  existsb reports_invalid_state (banner key w) = false.
Proof. unfold banner. destruct (mixer_ready w); reflexivity. Qed.

Lemma shutdown_valid_reports e :
  existsb reports_invalid_state (snd (shutdown e)) = false.
Proof. rewrite shutdown_run. destruct (current_channel e); reflexivity. Qed.

(** No exception leaves [run_engine] but one that the callback let
    through, and it never prints "Invalid state". *)
Lemma run_engine_safe key on_step stop_event w :
  (forall x e,
     fst (run_engine key on_step stop_event w) = Escaped x e ->
     on_step = true /\ x <> KeyboardInterrupt
     /\ let_through (snd (run_engine key on_step stop_event w)) x)
  /\ existsb reports_invalid_state (snd (run_engine key on_step stop_event w))
     = false.
Proof.
  destruct (isdir (files w) SETS_PATH) eqn:Ed.
  2:{ rewrite run_engine_no_folder by assumption. cbn [fst snd].
      split; [discriminate|].
      now rewrite existsb_app, banner_valid_reports. }
  rewrite run_engine_eq by assumption. cbv zeta.
  pose proof (load_sets_ok (files w)) as [_ H3].
  pose proof (scan_folders_valid_reports (files w)
                (listdir (files w) SETS_PATH) []) as Hload.
  fold (load_sets (files w)) in Hload.
  pose proof (banner_valid_reports key w) as Hban.
  destruct (fst (load_sets (files w))) as [|kv lib'] eqn:Elib.
  { cbn [fst snd]. split; [discriminate|].
    now rewrite !existsb_app, Hban, Hload. }
  set (lib := kv :: lib') in *.
  unfold initial_engine.
  destruct (start_engine_run lib H3 on_step key (first_draw w)
              (if mixer_ready w then channel_at_entry w else None)
              ltac:(discriminate))
    as (e & t3 & Hstart & Hi & Hr & Hno3).
  rewrite Hstart.
  destruct (main_loop_safe lib H3 on_step key stop_event (ticks w) false e
              Hi Hr)
    as (r & e' & t4 & Hloop & Hx & _ & _ & Hno4).
  rewrite Hloop.
  assert (Hpre : forall tr,
            existsb reports_invalid_state
              (((banner key w ++ snd (load_sets (files w))
                   ++ [Print_line (MsgLoadedSets (keys lib))]) ++ t3 ++ t4) ++ tr)
            = existsb reports_invalid_state tr).
  { intros tr. now rewrite !existsb_app, Hban, Hload, Hno3, Hno4. }
  unfold finish. destruct r as [[|h]|x]; cbn [fst snd].
  - split; [discriminate|]. now rewrite Hpre, shutdown_valid_reports.
  - split; [discriminate|].
    rewrite <- (app_nil_r (_ ++ t3 ++ t4)). now rewrite Hpre.
  - assert (Hend : existsb reports_invalid_state (snd (shutdown e')) = false)
      by apply shutdown_valid_reports.
    destruct (Hx x eq_refl) as [->|[Ho (b & Hb & Hinb)]].
    + cbn [fst snd]. split; [discriminate|].
      rewrite Hpre. cbn [existsb reports_invalid_state orb]. exact Hend.
    + assert (Hlet : forall tr,
                let_through
                  (((banner key w ++ snd (load_sets (files w))
                       ++ [Print_line (MsgLoadedSets (keys lib))])
                      ++ t3 ++ t4) ++ tr) x).
      { intros tr. exists b. split; [assumption|].
        apply in_or_app. left. apply in_or_app. right.
        apply in_or_app. now right. }
      destruct x; cbn [fst snd];
        (split;
         [ intros x0 e0 Heq; try discriminate Heq;
           injection Heq as <- <-;
           (split; [assumption|]); (split; [discriminate | apply Hlet])
         | rewrite Hpre; cbn [existsb reports_invalid_state orb];
           exact Hend ]).
Qed.

(** C10: every engine state that [run_engine] can reach over the loaded
    library has its state in {1, 2, 3} and, once a set is chosen, a set
    name that is a key of the library with exactly three tracks; the
    closures preserve this.  So the track index [state - 1] is within
    bounds, [play_current_state] never takes its "Invalid state" branch,
    no lookup fails, and a run of [run_engine] neither prints "Invalid
    state" nor ends with an exception of its own: the only exception
    that can leave [advance_state] or the run is one that a call of
    [on_step] raised and that is not of class [Exception]. *)
Theorem engine_invariant fs on_step e :
  reachable (fst (load_sets fs)) on_step e ->
  inv (fst (load_sets fs)) e
  /\ (forall n, current_set_name e = Some n ->
        exists sounds sound,
          dict_get n (fst (load_sets fs)) = Some sounds
          /\ List.length sounds = 3
          /\ (0 <= current_state e - 1 < Z.of_nat (List.length sounds))%Z
          /\ nth_error sounds (Z.to_nat (current_state e - 1)) = Some sound)
  /\ (exists e' tr,
        play_current_state (fst (load_sets fs)) e = (Ok tt, e', tr)
        /\ inv (fst (load_sets fs)) e'
        /\ existsb reports_invalid_state tr = false)
  /\ (forall a, exists e' tr,
        advance_state (fst (load_sets fs)) on_step a e
        = (advance_result on_step a e, e', tr)
        /\ inv (fst (load_sets fs)) e'
        /\ existsb reports_invalid_state tr = false)
  /\ (forall n, In n (keys (fst (load_sets fs))) -> exists e' tr,
        start_set (fst (load_sets fs)) n e = (Ok tt, e', tr)
        /\ inv (fst (load_sets fs)) e'
        /\ existsb reports_invalid_state tr = false)
  /\ (forall key stop_event w,
        files w = fs ->
        (forall x e1,
           fst (run_engine key on_step stop_event w) = Escaped x e1 ->
           on_step = true /\ x <> KeyboardInterrupt
           /\ let_through (snd (run_engine key on_step stop_event w)) x)
        /\ existsb reports_invalid_state
             (snd (run_engine key on_step stop_event w)) = false).
Proof.
  intros Hr. pose proof (load_sets_ok fs) as [_ H3].
  pose proof (reachable_inv _ H3 on_step e Hr) as Hi.
  split; [exact Hi|]. split; [|split; [|split; [|split]]].
  - intros n Hn. destruct Hi as [Hs Hname].
    destruct (Hname n Hn) as [sounds [Hget Hlen]].
    destruct (track_exists _ H3 n sounds (current_state e) Hget ltac:(lia))
      as [sound Hsound].
    exists sounds, sound. repeat split; try assumption; lia.
  - now apply play_current_state_inv.
  - intros a. now apply advance_state_inv.
  - intros n Hin. now apply start_set_inv.
  - intros key stop_event w _. apply run_engine_safe.
Qed.

Lemma engine_invariant_witness :
  inv demo_library (demo_engine 2 "sets/A/a2.WAV")
  /\ exists e' tr,
       play_current_state demo_library (demo_engine 2 "sets/A/a2.WAV")
       = (Ok tt, e', tr)
       /\ inv demo_library e'
       /\ existsb reports_invalid_state tr = false.
Proof.
  assert (H : reachable (fst (load_sets two_sets_fs)) true
                (demo_engine 2 "sets/A/a2.WAV")).
  { eapply (reachable_advance _ _ (quiet_answers 0)).
    - eapply (reachable_start _ _ None 0 "A"); reflexivity.
    - reflexivity. }
  pose proof (engine_invariant two_sets_fs true _ H) as [Hi [_ [Hp _]]].
  split; [exact Hi | exact Hp].
Defined.

(** ** A whole run *)

(** Four presses on the library {A, B}, started on A, then the stop
    flag: A goes through its three states, the third press switches to
    B, the fourth moves B to state 2; [on_step] has been called four
    times, and the run ends stopped, through the [finally] block. *)
Example four_presses_then_stop :
  (exists e, fst (run_engine "r" true true demo_world) = Stopped e
             /\ current_set_name e = Some "B"
             /\ current_state e = 2%Z)
  /\ skipn 58 (snd (run_engine "r" true true demo_world))
     = [Stop_is_set true; Fadeout 500; Sleep 500;
        Print_line MsgEngineStopped]
  /\ notified (snd (run_engine "r" true true demo_world))
     = [Returned; Returned; Returned; Returned]
  /\ played (snd (run_engine "r" true true demo_world))
     = [SoundOf "sets/A/a1.wav"; SoundOf "sets/A/a2.WAV";
        SoundOf "sets/A/a3.ogg"; SoundOf "sets/B/b1.wav";
        SoundOf "sets/B/b2.wav"].
Proof.
  split; [eexists; split; [reflexivity|split; reflexivity]|].
  repeat split.
Qed.

(* ------------------------------------------------------------------ *)
(** * Further properties                                                *)
(* ------------------------------------------------------------------ *)

(** ** The library and the file system *)

(** X1: the library holds a set for a folder exactly when the folder is a
    directory listed under the sets folder whose first three recognized
    files in filename order exist and all load; the tracks of the set are
    then these three files, in that order. *)
Theorem library_exactly_accepted fs folder tracks :
  dict_get folder (fst (load_sets fs)) = Some tracks
  <-> candidate fs folder
      /\ List.length (selected fs folder) = 3
      /\ forallb (loads fs folder) (selected fs folder) = true
      /\ tracks = map (sound_in folder) (selected fs folder).
Proof.
  rewrite load_sets_get, scan_folder_fst. unfold candidate.
  destruct (mem folder (listdir fs SETS_PATH)) eqn:Em.
  - apply mem_In in Em.
    destruct (isdir fs (folder_path_of folder)); cbn [andb].
    + destruct (List.length (selected fs folder) =? 3) eqn:El; cbn [andb].
      * apply Nat.eqb_eq in El.
        destruct (forallb (loads fs folder) (selected fs folder)).
        -- split; [intros [= <-]; auto | intros (_ & _ & _ & ->); reflexivity].
        -- split; [discriminate | intros (_ & _ & H & _); discriminate].
      * apply Nat.eqb_neq in El.
        split; [discriminate | intros (_ & H & _); contradiction].
    + split; [discriminate | intros ([_ H] & _); discriminate].
  - split; [discriminate|]. intros ([Hin _] & _).
    apply mem_In in Hin. congruence.
Qed.

Lemma accepted_get fs folder :
  accepted fs folder = true <-> exists s, fst (scan_folder fs folder) = Some s.
Proof.
  unfold accepted. destruct (fst (scan_folder fs folder)).
  - split; eauto.
  - split; [discriminate | intros [s H]; discriminate].
Qed.

Lemma scan_folders_key_order fs folders d :
  NoDup folders ->
  (forall f, In f folders -> ~ In f (keys d)) ->
  keys (fst (scan_folders fs folders d))
  = keys d ++ filter (accepted fs) folders.
Proof.
  revert d. induction folders as [|f folders IH]; intros d Hnd Hfresh.
  - simpl. now rewrite app_nil_r.
  - simpl. unfold accepted at 1.
    destruct (scan_folder fs f) as [found tr] eqn:Ef. cbn [fst].
    inversion Hnd as [|? ? Hnot Hnd']; subst.
    match goal with
    | |- context [scan_folders fs folders ?d'] =>
        specialize (IH d' Hnd');
        destruct (scan_folders fs folders d') as [lib tr']
    end.
    cbn [fst] in *. destruct found as [sounds|].
    + rewrite IH.
      * rewrite keys_dict_set_new by (apply Hfresh; now left).
        now rewrite <- app_assoc.
      * intros f' Hin.
        rewrite keys_dict_set_new by (apply Hfresh; now left).
        intros Hk. apply in_app_or in Hk. destruct Hk as [Hk|[<-|[]]].
        -- now apply (Hfresh f'); [right|].
        -- contradiction.
    + apply IH. intros f' Hin. apply Hfresh. now right.
Qed.

(** X2: when the listing of the sets folder has no repeated name, the
    names of the library, in the order [list(music_sets.keys())] gives
    them (the order printed as "Loaded sets" and indexed by the random
    draw), are the accepted folders in listing order. *)
Theorem library_in_listing_order fs :
  NoDup (listdir fs SETS_PATH) ->
  keys (fst (load_sets fs)) = filter (accepted fs) (listdir fs SETS_PATH).
Proof.
  intros Hnd. unfold load_sets.
  rewrite scan_folders_key_order; [reflexivity | assumption |].
  intros f _ [].
Qed.

Lemma library_in_listing_order_witness :
  keys (fst (load_sets two_sets_fs)) = ["A"; "B"].
Proof.
  apply (library_in_listing_order two_sets_fs).
  repeat constructor; simpl; intuition discriminate.
Defined.

Lemma load_sounds_failure fs folder files f e :
  In f files ->
  mixer_Sound fs (path_join (folder_path_of folder) f) = LoadFailed e ->
  In (Print_line (MsgFailedToLoad (path_join (folder_path_of folder) f) e))
     (snd (load_sounds fs (folder_path_of folder) files)).
Proof.
  intros Hin Hfail. induction files as [|f0 files IH]; [destruct Hin|].
  simpl. destruct (load_sounds fs (folder_path_of folder) files)
    as [sounds tr]. cbn [snd] in IH.
  destruct Hin as [->|Hin].
  - rewrite Hfail. cbn [snd]. now left.
  - destruct (mixer_Sound fs (path_join (folder_path_of folder) f0));
      cbn [snd]; [auto | right; auto].
Qed.

(** X3: when one of the three files the engine tries in a candidate
    folder fails to load, the failure is printed with the path and the
    error, the other files are still tried (the folder's warning with the
    count follows), and the folder does not become a set. *)
Theorem failed_load_is_logged fs folder f e :
  candidate fs folder ->
  In f (selected fs folder) ->
  mixer_Sound fs (path_join (folder_path_of folder) f) = LoadFailed e ->
  In (Print_line (MsgFailedToLoad (path_join (folder_path_of folder) f) e))
     (snd (load_sets fs))
  /\ In (Print_line
           (MsgSkippingSet folder
              (List.length (filter (loads fs folder) (selected fs folder)))))
        (snd (load_sets fs))
  /\ dict_get folder (fst (load_sets fs)) = None.
Proof.
  intros Hc Hin Hfail.
  assert (Hnot : forallb (loads fs folder) (selected fs folder) = false).
  { apply not_true_is_false. intros Hall.
    rewrite forallb_forall in Hall. specialize (Hall f Hin).
    unfold loads in Hall. now rewrite Hfail in Hall. }
  assert (Hnone : fst (scan_folder fs folder) = None).
  { rewrite scan_folder_fst, Hnot.
    now destruct (isdir _ _), (_ =? 3). }
  assert (Hrec : recognized fs folder <> []).
  { intros Hnil. unfold selected in Hin. rewrite Hnil in Hin. destruct Hin. }
  assert (Hget : dict_get folder (fst (load_sets fs)) = None).
  { rewrite load_sets_get, Hnone. now destruct (mem _ _). }
  destruct Hc as [Hlisted Hd].
  assert (Hscan : forall ev,
            In ev (snd (load_sounds fs (folder_path_of folder)
                          (selected fs folder))
                   ++ [Print_line
                         (MsgSkippingSet folder
                            (List.length (filter (loads fs folder)
                                            (selected fs folder))))]) ->
            In ev (snd (scan_folder fs folder))).
  { intros ev Hev. rewrite scan_folder_eq in Hnone |- *.
    rewrite Hd in *. cbn [negb] in *.
    destruct (recognized fs folder) as [|f0 rest]; [congruence|].
    pose proof (load_sounds_fst fs folder (selected fs folder)) as Hfst.
    destruct (load_sounds fs (folder_path_of folder) (selected fs folder))
      as [sounds tr].
    cbn [fst snd] in *. subst sounds. rewrite !length_map in *.
    destruct (_ =? 3); [discriminate | exact Hev]. }
  repeat split.
  - apply scan_folders_trace with (f := folder); [assumption|].
    apply Hscan, in_or_app. left. now apply load_sounds_failure.
  - apply scan_folders_trace with (f := folder); [assumption|].
    apply Hscan, in_or_app. right. now left.
  - exact Hget.
Qed.

Lemma failed_load_is_logged_witness :
  In (Print_line (MsgFailedToLoad "sets/X/1.wav" "bad header"))
     (snd (load_sets corrupt_first_fs))
  /\ In (Print_line (MsgSkippingSet "X" 2)) (snd (load_sets corrupt_first_fs))
  /\ dict_get "X" (fst (load_sets corrupt_first_fs)) = None.
Proof.
  apply (failed_load_is_logged corrupt_first_fs "X" "1.wav" "bad header").
  - split; [simpl; auto | reflexivity].
  - vm_compute. auto.
  - reflexivity.
Defined.

(** ** Recognized extensions *)

Lemma string_length_append a b :
  String.length (String.append a b) = String.length a + String.length b.
Proof. induction a as [|c a IH]; simpl; [reflexivity | now rewrite IH]. Qed.

Lemma substring_all s : substring 0 (String.length s) s = s.
Proof. induction s as [|c s IH]; simpl; [reflexivity | now rewrite IH]. Qed.

Lemma substring_skip p s m :
  substring (String.length p) m (String.append p s) = substring 0 m s.
Proof. induction p as [|c p IH]; simpl; [reflexivity | assumption]. Qed.

Lemma substring_split s a :
  a <= String.length s ->
  s = String.append (substring 0 a s) (substring a (String.length s - a) s).
Proof.
  revert a. induction s as [|c s IH]; intros [|a] Ha; simpl in *; try lia.
  - reflexivity.
  - now rewrite substring_all.
  - rewrite <- IH by lia. reflexivity.
Qed.

(** [endswith] is: the string is something followed by the suffix. *)
Lemma endswith_iff s suffix :
  endswith s suffix = true <-> exists p, s = String.append p suffix.
Proof.
  unfold endswith. rewrite andb_true_iff, Nat.leb_le, String.eqb_eq. split.
  - intros [Hle Hsub].
    exists (substring 0 (String.length s - String.length suffix) s).
    pose proof (substring_split s (String.length s - String.length suffix)
                  ltac:(lia)) as Hs.
    replace (String.length s - (String.length s - String.length suffix))
      with (String.length suffix) in Hs by lia.
    now rewrite Hsub in Hs.
  - intros [p ->]. rewrite string_length_append. split; [lia|].
    replace (String.length p + String.length suffix - String.length suffix)
      with (String.length p) by lia.
    rewrite substring_skip. apply substring_all.
Qed.

Lemma lower_upper_ascii c : lower_ascii (upper_ascii c) = lower_ascii c.
Proof. destruct c as [[] [] [] [] [] [] [] []]; reflexivity. Qed.

Lemma lower_lower_ascii c : lower_ascii (lower_ascii c) = lower_ascii c.
Proof. destruct c as [[] [] [] [] [] [] [] []]; reflexivity. Qed.

Lemma lower_upper s : lower (upper s) = lower s.
Proof.
  induction s as [|c s IH]; simpl; [reflexivity|].
  now rewrite lower_upper_ascii, IH.
Qed.

Lemma lower_lower s : lower (lower s) = lower s.
Proof.
  induction s as [|c s IH]; simpl; [reflexivity|].
  now rewrite lower_lower_ascii, IH.
Qed.

(** X4: a file name is recognized as audio exactly when its lower-case
    form is some stem followed by ".wav" or ".ogg"; the test does not
    depend on the case of the name. *)
Theorem audio_ext_case_insensitive f :
  (audio_ext f = true
   <-> exists stem, lower f = String.append stem ".wav"
                    \/ lower f = String.append stem ".ogg")
  /\ audio_ext (upper f) = audio_ext f
  /\ audio_ext (lower f) = audio_ext f.
Proof.
  split; [|split].
  - unfold audio_ext. rewrite orb_true_iff, !endswith_iff. split.
    + intros [[p H]|[p H]]; exists p; auto.
    + intros [p [H|H]]; [left | right]; exists p; assumption.
  - unfold audio_ext. now rewrite lower_upper.
  - unfold audio_ext. now rewrite lower_lower.
Qed.

(** ** More on the state machine *)

Section LogFacts.

Variable music_sets : Library.
Hypothesis three_tracks :
  forall n sounds, dict_get n music_sets = Some sounds ->
                   List.length sounds = 3.

(** The transition with the lines it prints. *)
Lemma transition_log a e name :
  current_set_name e = Some name ->
  In name (keys music_sets) ->
  exists name' sounds' sound,
    transition music_sets a name e e
    = (Ok tt,
       {| current_set_name := Some name';
          current_state := next_state (current_state e);
          current_channel := Some sound |},
       map Print_line (transition_messages (current_state e) name name')
         ++ crossfade (current_channel e) sound)
    /\ (if (current_state e =? 3)%Z
        then choose_random_set music_sets (Some name) (draw a) = Ok name'
        else name' = name)
    /\ dict_get name' music_sets = Some sounds'
    /\ List.length sounds' = 3
    /\ nth_error sounds' (Z.to_nat (next_state (current_state e) - 1))
       = Some sound.
Proof.
  intros Hn Hin. destruct e as [cn s ch]. simpl in Hn. subst cn.
  unfold next_state, transition_messages, transition.
  cbn [current_state current_channel].
  apply dict_get_in_keys in Hin as Hget. destruct Hget as [sounds Hget].
  pose proof (three_tracks _ _ Hget) as Hlen.
  destruct (s =? 1)%Z eqn:E1; [|destruct (s =? 2)%Z eqn:E2;
                                 [|destruct (s =? 3)%Z eqn:E3]].
  - destruct (track_exists music_sets three_tracks name sounds 2 Hget
                ltac:(lia)) as [sound Hs].
    exists name, sounds, sound.
    apply Z.eqb_eq in E1. subst s. cbn [Z.eqb Pos.eqb].
    split; [|split; [reflexivity|split; [|split]]]; try assumption.
    unfold bind, set_current_state, emit.
    cbn [current_set_name current_state current_channel].
    erewrite play_current_state_run; cbn; eauto; try lia.
  - destruct (track_exists music_sets three_tracks name sounds 3 Hget
                ltac:(lia)) as [sound Hs].
    exists name, sounds, sound.
    apply Z.eqb_eq in E2. subst s. cbn [Z.eqb Pos.eqb].
    split; [|split; [reflexivity|split; [|split]]]; try assumption.
    unfold bind, set_current_state, emit.
    cbn [current_set_name current_state current_channel].
    erewrite play_current_state_run; cbn; eauto; try lia.
  - destruct (choose_random_set_next music_sets name (draw a) Hin)
      as [new_set [Hch Hnew]].
    apply dict_get_in_keys in Hnew. destruct Hnew as [sounds' Hget'].
    pose proof (three_tracks _ _ Hget') as Hlen'.
    destruct (track_exists music_sets three_tracks new_set sounds' 1 Hget'
                ltac:(lia)) as [sound Hs].
    exists new_set, sounds', sound.
    split; [|split; [|split; [|split]]]; try assumption.
    unfold bind, lift, start_set, bind, set_current_set_name,
      set_current_state, emit.
    rewrite Hch. cbn [current_set_name current_state current_channel].
    erewrite play_current_state_run; cbn; eauto; try lia.
  - destruct (track_exists music_sets three_tracks name sounds 1 Hget
                ltac:(lia)) as [sound Hs].
    exists name, sounds, sound.
    split; [|split; [reflexivity|split; [|split]]]; try assumption.
    unfold bind, set_current_state, emit.
    cbn [current_set_name current_state current_channel].
    erewrite play_current_state_run; cbn; eauto; try lia.
Qed.

Lemma advance_state_log on_step a e name :
  current_set_name e = Some name ->
  In name (keys music_sets) ->
  exists name' sounds' sound,
    advance_state music_sets on_step a e
    = (notify_result on_step (notify a),
       {| current_set_name := Some name';
          current_state := next_state (current_state e);
          current_channel := Some sound |},
       Enter_advance_state
         :: (map Print_line
               (transition_messages (current_state e) name name')
               ++ crossfade (current_channel e) sound)
         ++ notify_events on_step (notify a))
    /\ (if (current_state e =? 3)%Z
        then choose_random_set music_sets (Some name) (draw a) = Ok name'
        else name' = name)
    /\ dict_get name' music_sets = Some sounds'
    /\ List.length sounds' = 3
    /\ nth_error sounds' (Z.to_nat (next_state (current_state e) - 1))
       = Some sound.
Proof.
  intros Hn Hin.
  destruct (transition_log a e name Hn Hin)
    as (name' & sounds' & sound & Hrun & Hrest).
  exists name', sounds', sound. split; [|exact Hrest].
  now rewrite advance_state_eq, Hn, Hrun.
Qed.

End LogFacts.

(** X5: with a set of the library chosen and a state that is none of 1,
    2, 3, [advance_state] puts the state back to 1, keeps the set,
    crossfades to its first track, prints only the "Playing" line, and
    still calls [on_step]; the call ends as the callback lets it
    ([notify_result]: normally, unless the callback raises an exception
    that is not of class [Exception]). *)
Theorem advance_state_resets_unknown_state lib on_step a e name sounds :
  lib_ok lib ->
  current_set_name e = Some name ->
  dict_get name lib = Some sounds ->
  current_state e <> 1%Z -> current_state e <> 2%Z ->
  current_state e <> 3%Z ->
  exists sound,
    nth_error sounds 0 = Some sound
    /\ advance_state lib on_step a e
       = (notify_result on_step (notify a),
          {| current_set_name := Some name;
             current_state := 1;
             current_channel := Some sound |},
          Enter_advance_state
            :: Print_line (MsgPlaying name 1)
            :: crossfade (current_channel e) sound
            ++ notify_events on_step (notify a)).
Proof.
  intros [_ H3] Hn Hget H1 H2 H3'.
  assert (Hin : In name (keys lib)) by (apply dict_get_in_keys; eauto).
  destruct (advance_state_log lib H3 on_step a e name Hn Hin)
    as (name' & sounds' & sound & Hrun & Hname & Hget' & _ & Hnth).
  apply Z.eqb_neq in H1, H2, H3'.
  unfold next_state, transition_messages in *.
  rewrite H1, H2, H3' in *. subst name'.
  assert (sounds' = sounds) by congruence. subst sounds'.
  exists sound. split; [exact Hnth|]. rewrite Hrun. reflexivity.
Qed.

Lemma advance_state_resets_unknown_state_witness :
  exists sound,
    nth_error [SoundOf "sets/A/a1.wav"; SoundOf "sets/A/a2.WAV";
               SoundOf "sets/A/a3.ogg"] 0 = Some sound
    /\ advance_state demo_library true (quiet_answers 0)
         (demo_engine 7 "sets/A/a3.ogg")
       = (Ok tt,
          {| current_set_name := Some "A";
             current_state := 1;
             current_channel := Some sound |},
          Enter_advance_state
            :: Print_line (MsgPlaying "A" 1)
            :: crossfade (Some (SoundOf "sets/A/a3.ogg")) sound
            ++ notify_events true Returned).
Proof.
  apply (advance_state_resets_unknown_state demo_library true
           (quiet_answers 0) (demo_engine 7 "sets/A/a3.ogg") "A").
  - apply load_sets_ok.
  - reflexivity.
  - reflexivity.
  - discriminate.
  - discriminate.
  - discriminate.
Defined.

(** X6: the ways [play_current_state] does not play.  Without a set it
    does nothing.  With a set name that is not in the library it raises
    [KeyError] before printing or touching the channel.  With a state
    whose index [state - 1] is negative or past the end of the set it
    prints "Invalid state" and leaves the channel alone: a state below 1
    never wraps around to the tracks at the end of the list. *)
Theorem play_current_state_refusals lib e :
  (current_set_name e = None ->
   play_current_state lib e = (Ok tt, e, []))
  /\ (forall name,
        current_set_name e = Some name ->
        dict_get name lib = None ->
        play_current_state lib e = (Raise (KeyError name), e, []))
  /\ (forall name sounds,
        current_set_name e = Some name ->
        dict_get name lib = Some sounds ->
        (current_state e < 1
         \/ Z.of_nat (List.length sounds) < current_state e)%Z ->
        play_current_state lib e
        = (Ok tt, e,
           [Print_line (MsgInvalidState (current_state e) name)])).
Proof.
  unfold play_current_state, bind, get. split; [|split].
  - intros ->. reflexivity.
  - intros name -> ->. reflexivity.
  - intros name sounds -> -> Hs.
    replace ((0 <=? current_state e - 1)%Z
             && (current_state e - 1 <? Z.of_nat (List.length sounds))%Z)%bool
      with false; [reflexivity|].
    symmetry. apply andb_false_iff.
    destruct Hs; [left; apply Z.leb_gt | right; apply Z.ltb_ge]; lia.
Qed.

Lemma play_current_state_refusals_witness :
  play_current_state demo_library (demo_engine 0 "sets/A/a1.wav")
  = (Ok tt, demo_engine 0 "sets/A/a1.wav",
     [Print_line (MsgInvalidState 0 "A")]).
Proof.
  apply (proj2 (proj2 (play_current_state_refusals demo_library
                         (demo_engine 0 "sets/A/a1.wav")))
           "A" [SoundOf "sets/A/a1.wav"; SoundOf "sets/A/a2.WAV";
                SoundOf "sets/A/a3.ogg"]).
  - reflexivity.
  - reflexivity.
  - left. reflexivity.
Defined.

(** ** More on the choice of a set *)

Lemma random_choice_reach names m :
  In m names -> exists d, random_choice d names = Ok m.
Proof.
  intros Hin. apply In_nth_error in Hin. destruct Hin as [i Hi].
  exists i. unfold random_choice.
  assert (i < List.length names) by (apply nth_error_Some; congruence).
  rewrite Nat.mod_small by assumption. now rewrite Hi.
Qed.

Lemma list_remove_keeps k names m :
  In m names -> m <> k -> In m (list_remove k names).
Proof.
  intros Hin Hne. induction names as [|n names IH]; [destruct Hin|].
  simpl. destruct (String.eqb k n) eqn:E.
  - apply String.eqb_eq in E. subst n.
    destruct Hin as [->|Hin]; [contradiction | assumption].
  - destruct Hin as [->|Hin]; [now left | right; auto].
Qed.

(** X7: [choose_random_set] on an empty library raises [IndexError];
    otherwise it only returns names of the library; every name can be the
    first set, and every name other than the excluded one can be the next
    set; a name that is not in the library excludes nothing. *)
Theorem choose_random_set_range lib :
  (lib = [] ->
   forall exclude d, choose_random_set lib exclude d = Raise IndexError)
  /\ (forall exclude d m,
        choose_random_set lib exclude d = Ok m -> In m (keys lib))
  /\ (forall m, In m (keys lib) ->
        exists d, choose_random_set lib None d = Ok m)
  /\ (forall name m, In m (keys lib) -> m <> name ->
        exists d, choose_random_set lib (Some name) d = Ok m)
  /\ (forall name d, ~ In name (keys lib) ->
        choose_random_set lib (Some name) d = choose_random_set lib None d).
Proof.
  split; [|split; [|split; [|split]]].
  - intros -> [x|] d; unfold choose_random_set, random_choice; simpl;
      now destruct d.
  - intros exclude d m. unfold choose_random_set.
    destruct exclude as [x|]; [|apply random_choice_In].
    destruct (mem x (keys lib) && (1 <? List.length (keys lib)))%bool;
      [|apply random_choice_In].
    intros H. apply random_choice_In in H.
    eapply list_remove_incl; eassumption.
  - intros m Hin. unfold choose_random_set. now apply random_choice_reach.
  - intros name m Hin Hne. unfold choose_random_set.
    destruct (mem name (keys lib) && (1 <? List.length (keys lib)))%bool.
    + apply random_choice_reach. now apply list_remove_keeps.
    + now apply random_choice_reach.
  - intros name d Hnot. unfold choose_random_set.
    destruct (mem name (keys lib)) eqn:Em; [|reflexivity].
    apply mem_In in Em. contradiction.
Qed.

Lemma choose_random_set_range_witness :
  exists d, choose_random_set demo_library (Some "A") d = Ok "B".
Proof.
  apply (proj1 (proj2 (proj2 (proj2 (choose_random_set_range demo_library))))
           "A" "B").
  - simpl. auto.
  - discriminate.
Defined.

(** ** The channel follows the state *)

Lemma playing_inv lib e : playing lib e -> inv lib e.
Proof.
  intros (n & sounds & sound & Hn & Hg & Hl & Hs & _). split; [lia|].
  intros m Hm. assert (m = n) by congruence. subst m. eauto.
Qed.

Lemma playing_chosen lib e : playing lib e -> current_set_name e <> None.
Proof. intros (n & sounds & sound & Hn & _). congruence. Qed.

Section PlayingFacts.

Variable music_sets : Library.
Hypothesis three_tracks :
  forall n sounds, dict_get n music_sets = Some sounds ->
                   List.length sounds = 3.
Variable on_step : bool.

Lemma start_set_playing n e :
  In n (keys music_sets) ->
  exists sound,
    start_set music_sets n e
    = (Ok tt,
       {| current_set_name := Some n;
          current_state := 1;
          current_channel := Some sound |},
       Print_line (MsgSwitchedToSet n) :: Print_line (MsgPlaying n 1)
         :: crossfade (current_channel e) sound)
    /\ playing music_sets
         {| current_set_name := Some n;
            current_state := 1;
            current_channel := Some sound |}.
Proof.
  intros Hin.
  destruct (start_set_run music_sets three_tracks n e Hin)
    as (sounds & sound & Hg & Hnth & Hrun).
  exists sound. split; [exact Hrun|].
  exists n, sounds, sound. cbn. repeat split; eauto; lia.
Qed.

Lemma advance_state_playing a e :
  playing music_sets e ->
  exists name name' sound,
    current_set_name e = Some name
    /\ advance_state music_sets on_step a e
       = (notify_result on_step (notify a),
          {| current_set_name := Some name';
             current_state := next_state (current_state e);
             current_channel := Some sound |},
          Enter_advance_state
            :: (map Print_line
                  (transition_messages (current_state e) name name')
                  ++ crossfade (current_channel e) sound)
            ++ notify_events on_step (notify a))
    /\ (if (current_state e =? 3)%Z
        then choose_random_set music_sets (Some name) (draw a) = Ok name'
        else name' = name)
    /\ playing music_sets
         {| current_set_name := Some name';
            current_state := next_state (current_state e);
            current_channel := Some sound |}.
Proof.
  intros (n & sounds & sound0 & Hn & Hg & Hl & Hs & _).
  assert (Hin : In n (keys music_sets)) by (apply dict_get_in_keys; eauto).
  destruct (advance_state_log music_sets three_tracks on_step a e n Hn Hin)
    as (name' & sounds' & sound & Hrun & Hname & Hget' & Hlen' & Hnth).
  exists n, name', sound. split; [assumption|]. split; [exact Hrun|].
  split; [exact Hname|].
  exists name', sounds', sound. cbn.
  pose proof (next_state_range (current_state e)).
  repeat split; auto; lia.
Qed.

End PlayingFacts.

Lemma reachable_started lib on_step e :
  (forall n sounds, dict_get n lib = Some sounds -> List.length sounds = 3) ->
  reachable lib on_step e ->
  (exists channel, e = entry_engine channel) \/ playing lib e.
Proof.
  intros H3.
  induction 1 as [c|c d n r e tr Hch Hst|a e0 r e tr Hre IH Hadv].
  - left. now exists c.
  - right. apply random_choice_In in Hch.
    destruct (start_set_playing lib H3 n (entry_engine c) Hch)
      as (sound & Hrun & Hp).
    rewrite Hrun in Hst. injection Hst as _ <- _. exact Hp.
  - destruct IH as [[c ->]|Hp].
    + left. exists c. rewrite advance_state_eq in Hadv. cbn in Hadv.
      now injection Hadv as _ <- _.
    + right.
      destruct (advance_state_playing lib H3 on_step a e0 Hp)
        as (name & name' & sound & _ & Hrun & _ & Hp').
      rewrite Hrun in Hadv. injection Hadv as _ <- _. exact Hp'.
Qed.

(** X8: in every engine state [run_engine] can reach over the loaded
    library, either no set has been started yet, and the engine is in
    the state the closures are defined in, with the channel as the run
    found it (idle, or still busy from an earlier run in the process);
    or the channel has on it exactly the track of the current state of
    the current set. *)
Theorem channel_follows_state fs on_step e :
  reachable (fst (load_sets fs)) on_step e ->
  (exists channel, e = entry_engine channel)
  \/ exists n sounds sound,
       current_set_name e = Some n
       /\ dict_get n (fst (load_sets fs)) = Some sounds
       /\ nth_error sounds (Z.to_nat (current_state e - 1)) = Some sound
       /\ current_channel e = Some sound.
Proof.
  intros Hr. pose proof (load_sets_ok fs) as [_ H3].
  destruct (reachable_started _ on_step e H3 Hr) as [Hc|Hp].
  - now left.
  - right. destruct Hp as (n & sounds & sound & Hn & Hg & _ & _ & Hnth & Hc).
    exists n, sounds, sound. auto.
Qed.

Lemma channel_follows_state_witness :
  (exists channel, demo_engine 2 "sets/A/a2.WAV" = entry_engine channel)
  \/ exists n sounds sound,
       current_set_name (demo_engine 2 "sets/A/a2.WAV") = Some n
       /\ dict_get n (fst (load_sets two_sets_fs)) = Some sounds
       /\ nth_error sounds
            (Z.to_nat (current_state (demo_engine 2 "sets/A/a2.WAV") - 1))
          = Some sound
       /\ current_channel (demo_engine 2 "sets/A/a2.WAV") = Some sound.
Proof.
  apply (channel_follows_state two_sets_fs true).
  eapply (reachable_advance _ _ (quiet_answers 0)).
  - eapply (reachable_start _ _ (Some (SoundOf "sets/B/b2.wav")) 0 "A");
      reflexivity.
  - reflexivity.
Defined.

(** ** The loop on a started engine *)

Lemma calls_app t1 t2 : calls (t1 ++ t2) = calls t1 + calls t2.
Proof.
  induction t1 as [|ev t1 IH]; [reflexivity|].
  destruct ev; simpl; rewrite ?IH; reflexivity.
Qed.

Lemma switches_app t1 t2 : switches (t1 ++ t2) = switches t1 + switches t2.
Proof.
  induction t1 as [|ev t1 IH]; [reflexivity|].
  destruct ev as [[]| | | | | | | |]; simpl; rewrite ?IH; reflexivity.
Qed.

Lemma stop_checks_app t1 t2 :
  stop_checks (t1 ++ t2) = stop_checks t1 ++ stop_checks t2.
Proof.
  induction t1 as [|ev t1 IH]; [reflexivity|].
  destruct ev; simpl; rewrite ?IH; reflexivity.
Qed.

Lemma calls_prints msgs : calls (map Print_line msgs) = 0.
Proof. induction msgs; simpl; auto. Qed.

Lemma calls_crossfade channel sound : calls (crossfade channel sound) = 0.
Proof. destruct channel; reflexivity. Qed.

Lemma calls_notify_events on_step r : calls (notify_events on_step r) = 0.
Proof. destruct on_step, r; reflexivity. Qed.

Lemma switches_crossfade channel sound :
  switches (crossfade channel sound) = 0.
Proof. destruct channel; reflexivity. Qed.

Lemma switches_notify_events on_step r :
  switches (notify_events on_step r) = 0.
Proof. destruct on_step, r; reflexivity. Qed.

Lemma switches_transition_messages s name name' :
  switches (map Print_line (transition_messages s name name'))
  = if (s =? 3)%Z then 1 else 0.
Proof.
  unfold transition_messages.
  destruct (s =? 1)%Z eqn:E1; [|destruct (s =? 2)%Z eqn:E2;
                                 [|destruct (s =? 3)%Z eqn:E3]];
    try reflexivity.
  - apply Z.eqb_eq in E1. now subst.
  - apply Z.eqb_eq in E2. now subst.
Qed.

Lemma notified_notify_events on_step r :
  notified (notify_events on_step r) = if on_step : bool then [r] else [].
Proof. destruct on_step, r; reflexivity. Qed.

Lemma stop_checks_none tr :
  Forall (fun ev => loop_event ev = false) tr -> stop_checks tr = [].
Proof.
  induction 1 as [|ev tr Hev _ IH]; [reflexivity|].
  destruct ev; try discriminate; simpl; assumption.
Qed.

(** What one call of [advance_state] on a started engine adds to the
    counts of a trace. *)
Lemma advance_trace_counts name name' s channel sound on_step r :
  let tr := Enter_advance_state
              :: (map Print_line (transition_messages s name name')
                    ++ crossfade channel sound)
              ++ notify_events on_step r in
  played tr = [sound]
  /\ notified tr = (if on_step : bool then [r] else [])
  /\ calls tr = 1
  /\ switches tr = (if (s =? 3)%Z then 1 else 0).
Proof.
  cbv zeta. cbn [played notified calls switches].
  rewrite !played_app, !notified_app, !calls_app, !switches_app.
  rewrite played_prints, notified_prints, calls_prints,
    played_crossfade, notified_crossfade, calls_crossfade,
    switches_crossfade, played_notify_events, notified_notify_events,
    calls_notify_events, switches_notify_events,
    switches_transition_messages.
  repeat split; try reflexivity. lia.
Qed.

Section StartedLoop.

Variable music_sets : Library.
Hypothesis three_tracks :
  forall n sounds, dict_get n music_sets = Some sounds ->
                   List.length sounds = 3.
Variable on_step : bool.
Variable trigger_key : string.
Variable stop_event : bool.

Local Abbreviation loop :=
  (main_loop music_sets on_step trigger_key stop_event).

(** On a started engine the loop ends as the ticks say, the engine stays
    started, and every call of [advance_state] starts one sound and makes
    one callback.  When no callback lets an exception through, the
    samples taken are all those up to the stop. *)
Lemma main_loop_playing ticks h e :
  playing music_sets e ->
  exists e' tr,
    loop ticks h e = (loop_end on_step stop_event h ticks, e', tr)
    /\ playing music_sets e'
    /\ List.length (played tr) = calls tr
    /\ List.length (notified tr) = (if on_step then calls tr else 0)
    /\ calls tr = presses h (polled on_step stop_event h ticks)
    /\ ((forall b, ~ In (Propagated b) (notified tr)) ->
        polled on_step stop_event h ticks = samples_taken stop_event ticks).
Proof.
  revert h e. induction ticks as [|[s p a|] rest IH]; intros h e Hp.
  - exists e, []. split; [reflexivity|]. split; [assumption|].
    split; [reflexivity|]. split; [now destruct on_step|].
    split; [reflexivity|]. reflexivity.
  - rewrite main_loop_poll. cbn [loop_end polled samples_taken].
    destruct (stop_event && s)%bool.
    { exists e, [Stop_is_set s]. split; [reflexivity|]. split; [assumption|].
      split; [reflexivity|]. split; [now destruct on_step|].
      split; [reflexivity|]. reflexivity. }
    cbv zeta.
    set (pre := (if stop_event then [Stop_is_set s] else [])
                ++ [Is_pressed trigger_key p]).
    assert (Hpre : forall tr,
              played (pre ++ tr) = played tr
              /\ notified (pre ++ tr) = notified tr
              /\ calls (pre ++ tr) = calls tr)
      by (intros tr; unfold pre; destruct stop_event; repeat split).
    destruct (p && negb h)%bool eqn:Eedge.
    + destruct (advance_state_playing music_sets three_tracks on_step a e Hp)
        as (name & name' & sound & _ & Hrun & _ & Hp').
      rewrite Hrun.
      destruct (advance_trace_counts name name' (current_state e)
                  (current_channel e) sound on_step (notify a))
        as (Hpl & Hno & Hca & _).
      cbv zeta in Hpl, Hno, Hca.
      match type of Hrun with
      | _ = (_, ?e1, ?t1) =>
          remember e1 as e1' eqn:Ee1; remember t1 as t1' eqn:Et1
      end.
      clear Hrun Et1 Ee1.
      apply andb_true_iff in Eedge. destruct Eedge as [-> Eh].
      apply negb_true_iff in Eh. subst h.
      destruct (notify_result on_step (notify a)) as [[]|x] eqn:Enr.
      * destruct (IH true e1' Hp')
          as (e' & tr & Hloop & Hp2 & Hc1 & Hc2 & Hc3 & Hc4).
        rewrite Hloop. exists e', (pre ++ t1' ++ Sleep 20 :: tr).
        split; [reflexivity|]. split; [assumption|].
        destruct (Hpre (t1' ++ Sleep 20 :: tr)) as (H1 & H2 & H3).
        rewrite H1, H2, H3, played_app, notified_app, calls_app,
          Hpl, Hno, Hca.
        cbn [played notified calls app List.length presses andb negb].
        split; [lia|].
        split; [destruct on_step; cbn [app List.length]; lia|].
        split; [lia|].
        intros Hnop. f_equal. apply Hc4. intros b Hb. apply (Hnop b).
        apply in_or_app. now right.
      * exists e1', (pre ++ t1'). split; [reflexivity|].
        split; [assumption|].
        destruct (Hpre t1') as (H1 & H2 & H3).
        rewrite H1, H2, H3, Hpl, Hno, Hca.
        cbn [List.length presses andb negb].
        split; [reflexivity|].
        split; [now destruct on_step|]. split; [reflexivity|].
        intros Hnop. exfalso. unfold notify_result in Enr.
        destruct on_step; [|discriminate].
        destruct (notify a) as [| |b]; try discriminate.
        apply (Hnop b). now left.
    + destruct (IH p e Hp)
        as (e' & tr & Hloop & Hp2 & Hc1 & Hc2 & Hc3 & Hc4).
      rewrite Hloop. exists e', (pre ++ Sleep 20 :: tr).
      split; [reflexivity|]. split; [assumption|].
      destruct (Hpre (Sleep 20 :: tr)) as (H1 & H2 & H3).
      rewrite H1, H2, H3. cbn [played notified calls presses].
      rewrite Eedge. split; [assumption|]. split; [assumption|].
      split; [assumption|]. intros Hnop. f_equal. now apply Hc4.
  - exists e, []. split; [reflexivity|]. split; [assumption|].
    split; [reflexivity|]. split; [now destruct on_step|].
    split; [reflexivity|]. reflexivity.
Qed.

End StartedLoop.

(** ** How a run starts and ends *)

Lemma loop_end_raise on_step stop_event h ticks x :
  loop_end on_step stop_event h ticks = Raise x ->
  (x = KeyboardInterrupt /\ In Interrupt ticks)
  \/ (on_step = true /\ exists b, x = exn_of b).
Proof.
  revert h. induction ticks as [|[s p a|] rest IH]; intros h; simpl.
  - discriminate.
  - destruct (stop_event && s)%bool; [discriminate|].
    destruct (p && negb h)%bool.
    + unfold notify_result. destruct on_step.
      * destruct (notify a) as [| |b].
        -- intros H. destruct (IH _ H) as [[-> Hi]|Hb]; auto.
        -- intros H. destruct (IH _ H) as [[-> Hi]|Hb]; auto.
        -- intros [= <-]. right. eauto.
      * intros H. destruct (IH _ H) as [[-> Hi]|Hb]; auto.
    + intros H. destruct (IH _ H) as [[-> Hi]|Hb]; auto.
  - intros [= <-]. auto.
Qed.

Lemma loop_end_no_event on_step h ticks :
  loop_end on_step false h ticks <> Ok Broke.
Proof.
  revert h. induction ticks as [|[s p a|] rest IH]; intros h; simpl;
    [discriminate | | discriminate].
  destruct (p && negb h)%bool; [|apply IH].
  destruct (notify_result on_step (notify a)); [apply IH | discriminate].
Qed.

Lemma last_default {A} (b : A) l d d' :
  List.last (b :: l) d = List.last (b :: l) d'.
Proof.
  revert b. induction l as [|c l IH]; intros b; [reflexivity|].
  cbn [List.last] in *. apply IH.
Qed.

Lemma loop_end_goes_on on_step stop_event h pre rest :
  forallb (goes_on on_step stop_event) pre = true ->
  loop_end on_step stop_event h (pre ++ rest)
  = loop_end on_step stop_event
      (List.last (samples_taken stop_event pre) h) rest
  /\ polled on_step stop_event h (pre ++ rest)
     = samples_taken stop_event pre
       ++ polled on_step stop_event
            (List.last (samples_taken stop_event pre) h) rest
  /\ samples_taken stop_event (pre ++ rest)
     = samples_taken stop_event pre ++ samples_taken stop_event rest
  /\ loop_end on_step stop_event h pre
     = Ok (Polling (List.last (samples_taken stop_event pre) h)).
Proof.
  revert h. induction pre as [|[s p a|] pre IH]; intros h Hgo.
  - repeat split.
  - cbn [forallb goes_on] in Hgo. apply andb_true_iff in Hgo.
    destruct Hgo as [Hs Hgo]. apply andb_true_iff in Hs.
    destruct Hs as [Hs Hcalm]. apply negb_true_iff in Hs.
    cbn [app loop_end polled samples_taken]. rewrite Hs.
    destruct (notify_result on_step (notify a)) as [[]|x];
      [|discriminate].
    assert (Hl : List.last (p :: samples_taken stop_event pre) h
                 = List.last (samples_taken stop_event pre) p)
      by (destruct (samples_taken stop_event pre) as [|b l];
          [reflexivity | apply (last_default b l h p)]).
    rewrite Hl.
    destruct (p && negb h)%bool eqn:Eedge.
    + apply andb_true_iff in Eedge. destruct Eedge as [-> _].
      destruct (IH true Hgo) as (H1 & H2 & H3 & H4).
      rewrite H1, H2, H3, H4. repeat split.
    + destruct (IH p Hgo) as (H1 & H2 & H3 & H4).
      rewrite H1, H2, H3, H4. repeat split.
  - discriminate.
Qed.

Section LoopPrefix.

Variable music_sets : Library.
Variable on_step : bool.
Variable trigger_key : string.
Variable stop_event : bool.

Local Abbreviation loop :=
  (main_loop music_sets on_step trigger_key stop_event).

(** A loop that is still polling after some ticks goes on with the next
    ones. *)
Lemma main_loop_app pre rest h e h' e1 t1 :
  loop pre h e = (Ok (Polling h'), e1, t1) ->
  loop (pre ++ rest) h e
  = let '(r, e2, t2) := loop rest h' e1 in (r, e2, t1 ++ t2).
Proof.
  revert h e t1. induction pre as [|[s p a|] pre IH]; intros h e t1.
  - cbn. intros [= -> -> <-]. now destruct (loop rest h' e1) as [[r e2] t2].
  - cbn [app]. rewrite !main_loop_poll.
    destruct (stop_event && s)%bool; [discriminate|]. cbv zeta.
    destruct (p && negb h)%bool.
    + destruct (advance_state music_sets on_step a e) as [[[u|x] ea] ta];
        [|discriminate].
      destruct (loop pre true ea) as [[r e2] t2] eqn:El.
      intros [= -> -> <-]. rewrite (IH _ _ _ El).
      destruct (loop rest h' e1) as [[r' e3] t3].
      rewrite <- ?app_assoc. cbn [app]. rewrite <- ?app_assoc. reflexivity.
    + destruct (loop pre p e) as [[r e2] t2] eqn:El.
      intros [= -> -> <-]. rewrite (IH _ _ _ El).
      destruct (loop rest h' e1) as [[r' e3] t3].
      rewrite <- ?app_assoc. reflexivity.
  - discriminate.
Qed.

End LoopPrefix.

Lemma main_loop_stop_checks lib on_step key ticks h e :
  stop_checks (snd (main_loop lib on_step key false ticks h e)) = [].
Proof.
  revert h e.
  induction ticks as [|[s p a|] rest IH]; intros h e;
    [reflexivity | | reflexivity].
  rewrite main_loop_poll. cbn [andb]. cbv zeta.
  destruct (p && negb h)%bool.
  - destruct (advance_state_body lib on_step a e) as [Hb _].
    destruct (advance_state lib on_step a e) as [[[u|x] e1] t1];
      cbn [snd] in Hb.
    + specialize (IH true e1).
      destruct (main_loop lib on_step key false rest true e1)
        as [[r e2] t2].
      cbn [snd app stop_checks] in *.
      now rewrite stop_checks_app, (stop_checks_none _ Hb).
    + cbn [snd app stop_checks]. apply (stop_checks_none _ Hb).
  - specialize (IH p e).
    destruct (main_loop lib on_step key false rest p e) as [[r e2] t2].
    cbn [snd app stop_checks] in *. assumption.
Qed.

Lemma startup_counts key w n sound :
  played (startup_trace key w n sound) = [sound]
  /\ notified (startup_trace key w n sound) = []
  /\ calls (startup_trace key w n sound) = 0
  /\ stop_checks (startup_trace key w n sound) = [].
Proof.
  unfold startup_trace.
  assert (Hb : Forall (fun ev => startup_event ev = true) (banner key w))
    by (unfold banner; destruct (mixer_ready w); repeat constructor).
  pose proof (scan_folders_prints (files w) (listdir (files w) SETS_PATH) [])
    as Hl. fold (load_sets (files w)) in Hl.
  destruct (startup_events_silent _ Hb) as (B1 & B2 & B3 & B4).
  destruct (startup_events_silent _ Hl) as (L1 & L2 & L3 & L4).
  rewrite !played_app, !notified_app, !calls_app, !stop_checks_app.
  rewrite B1, B2, B3, L1, L2, L3,
    (stop_checks_none _ B4), (stop_checks_none _ L4).
  rewrite played_crossfade, notified_crossfade, calls_crossfade.
  destruct (current_channel (initial_engine w)); repeat split.
Qed.

(** A run whose library is not empty: the set it starts on, and the loop
    from there. *)
Lemma run_engine_started key on_step stop_event w :
  isdir (files w) SETS_PATH = true ->
  fst (load_sets (files w)) <> [] ->
  exists n sounds sound,
    nth_error (keys (fst (load_sets (files w))))
      (first_draw w mod List.length (keys (fst (load_sets (files w)))))
    = Some n
    /\ dict_get n (fst (load_sets (files w))) = Some sounds
    /\ nth_error sounds 0 = Some sound
    /\ playing (fst (load_sets (files w)))
         {| current_set_name := Some n;
            current_state := 1;
            current_channel := Some sound |}
    /\ run_engine key on_step stop_event w
       = let '(r, e, t4) :=
           main_loop (fst (load_sets (files w))) on_step key stop_event
             (ticks w) false
             {| current_set_name := Some n;
                current_state := 1;
                current_channel := Some sound |} in
         finish r e (startup_trace key w n sound ++ t4).
Proof.
  intros Hd Hne. pose proof (load_sets_ok (files w)) as [_ H3].
  rewrite run_engine_eq by assumption. cbv zeta.
  set (lib := fst (load_sets (files w))) in *.
  assert (Hk : keys lib <> []) by (destruct lib; [congruence | discriminate]).
  destruct (random_choice_ok (first_draw w) (keys lib) Hk)
    as (n & Hch & Hnth & Hin).
  destruct (start_set_run lib H3 n (initial_engine w) Hin)
    as (sounds & sound & Hg & Hs0 & Hrun).
  destruct (start_set_playing lib H3 n (initial_engine w) Hin)
    as (sound' & Hrun' & Hp).
  assert (sound' = sound) by congruence. subst sound'.
  exists n, sounds, sound. repeat split; try assumption.
  destruct lib as [|kv lib'] eqn:El; [congruence|]. rewrite <- El in *.
  unfold start_engine, bind, lift, emit.
  unfold choose_random_set. rewrite Hch, Hrun.
  destruct (main_loop lib on_step key stop_event (ticks w) false _)
    as [[r e] t4].
  unfold startup_trace. rewrite <- !app_assoc. cbn [app].
  rewrite <- ?app_assoc. reflexivity.
Qed.

(** The [finally] block on a started engine. *)
Lemma shutdown_playing lib e :
  playing lib e -> shutdown e = (Ok tt, e, fade_and_stop).
Proof.
  intros (n & sounds & sound & _ & _ & _ & _ & _ & Hc).
  rewrite shutdown_run, Hc. reflexivity.
Qed.

Lemma finish_counts r e tr :
  played (snd (finish r e tr)) = played tr
  /\ notified (snd (finish r e tr)) = notified tr
  /\ calls (snd (finish r e tr)) = calls tr.
Proof.
  unfold finish. rewrite shutdown_run.
  destruct r as [[|k]|x]; [| |destruct x]; cbn [fst snd];
    rewrite ?played_app, ?notified_app, ?calls_app;
    destruct (current_channel e); cbn [played notified calls];
    rewrite ?app_nil_r, ?Nat.add_0_r; repeat split.
Qed.

(** The run from its start to its end, on a library that is not empty. *)
Lemma run_engine_whole key on_step stop_event w :
  isdir (files w) SETS_PATH = true ->
  fst (load_sets (files w)) <> [] ->
  exists n sounds sound e t4,
    nth_error (keys (fst (load_sets (files w))))
      (first_draw w mod List.length (keys (fst (load_sets (files w)))))
    = Some n
    /\ dict_get n (fst (load_sets (files w))) = Some sounds
    /\ nth_error sounds 0 = Some sound
    /\ main_loop (fst (load_sets (files w))) on_step key stop_event
         (ticks w) false
         {| current_set_name := Some n;
            current_state := 1;
            current_channel := Some sound |}
       = (loop_end on_step stop_event false (ticks w), e, t4)
    /\ playing (fst (load_sets (files w))) e
    /\ List.length (played t4) = calls t4
    /\ List.length (notified t4) = (if on_step then calls t4 else 0)
    /\ calls t4 = presses false (polled on_step stop_event false (ticks w))
    /\ ((forall b, ~ In (Propagated b) (notified t4)) ->
        polled on_step stop_event false (ticks w)
        = samples_taken stop_event (ticks w))
    /\ run_engine key on_step stop_event w
       = finish (loop_end on_step stop_event false (ticks w)) e
           (startup_trace key w n sound ++ t4).
Proof.
  intros Hd Hne. pose proof (load_sets_ok (files w)) as [_ H3].
  destruct (run_engine_started key on_step stop_event w Hd Hne)
    as (n & sounds & sound & Hnth & Hg & Hs0 & Hp & Hrun).
  destruct (main_loop_playing _ H3 on_step key stop_event (ticks w) false
              _ Hp) as (e & t4 & Hloop & Hp' & Hc1 & Hc2 & Hc3 & Hc4).
  exists n, sounds, sound, e, t4.
  repeat (split; [assumption|]).
  rewrite Hrun, Hloop. reflexivity.
Qed.

(** X9: in a run that gets past the loading, [advance_state] is called
    once for each continuous press among the key samples the loop takes
    ([polled]: those of the ticks before the run is stopped, interrupted
    or left by an exception that a callback let through; when no
    callback does that, all the samples up to the stop); the run starts
    one sound at startup and one per call; and [on_step], when given, is
    called once per call (never, when not given). *)
Theorem one_sound_and_one_callback_per_press key on_step stop_event w :
  isdir (files w) SETS_PATH = true ->
  fst (load_sets (files w)) <> [] ->
  calls (snd (run_engine key on_step stop_event w))
  = presses false (polled on_step stop_event false (ticks w))
  /\ List.length (played (snd (run_engine key on_step stop_event w)))
     = S (calls (snd (run_engine key on_step stop_event w)))
  /\ List.length (notified (snd (run_engine key on_step stop_event w)))
     = (if on_step
        then calls (snd (run_engine key on_step stop_event w))
        else 0)
  /\ ((forall b, ~ In (Propagated b)
                     (notified (snd (run_engine key on_step stop_event w)))) ->
      polled on_step stop_event false (ticks w)
      = samples_taken stop_event (ticks w)).
Proof.
  intros Hd Hne.
  destruct (run_engine_whole key on_step stop_event w Hd Hne)
    as (n & sounds & sound & e & t4 & _ & _ & _ & _ & _
        & Hc1 & Hc2 & Hc3 & Hc4 & Hrun).
  destruct (startup_counts key w n sound) as (S1 & S2 & S3 & _).
  destruct (finish_counts (loop_end on_step stop_event false (ticks w)) e
              (startup_trace key w n sound ++ t4)) as (F1 & F2 & F3).
  rewrite Hrun, F1, F2, F3, played_app, notified_app, calls_app, S1, S2, S3.
  cbn [app List.length Nat.add].
  split; [assumption|]. split; [lia|]. split; [assumption|assumption].
Qed.

Lemma one_sound_and_one_callback_per_press_witness :
  calls (snd (run_engine "r" true true demo_world))
  = presses false (polled true true false (ticks demo_world))
  /\ List.length (played (snd (run_engine "r" true true demo_world)))
     = S (calls (snd (run_engine "r" true true demo_world)))
  /\ List.length (notified (snd (run_engine "r" true true demo_world)))
     = calls (snd (run_engine "r" true true demo_world))
  /\ ((forall b, ~ In (Propagated b)
                     (notified (snd (run_engine "r" true true demo_world)))) ->
      polled true true false (ticks demo_world)
      = samples_taken true (ticks demo_world)).
Proof.
  apply (one_sound_and_one_callback_per_press "r" true true demo_world).
  - reflexivity.
  - discriminate.
Defined.

(** X10: a run starts on the set the first draw indexes in the list of
    names, in state 1: its trace begins with the lines of the loading,
    the list of the loaded sets, the switch to that set, and the first
    track of the set started with a fade-in.  The channel is taken as
    the run finds it: a fade-out comes before the first track exactly
    when the mixer was already initialised and something was still on
    the channel, as after an earlier run in the same process; a mixer
    that the run initialises itself has an idle channel.  (The key is
    printed in upper case; it is taken to be ASCII.) *)
Theorem run_starts_on_drawn_set key on_step stop_event w :
  is_ascii key = true ->
  isdir (files w) SETS_PATH = true ->
  fst (load_sets (files w)) <> [] ->
  exists n sounds sound rest,
    nth_error (keys (fst (load_sets (files w))))
      (first_draw w mod List.length (keys (fst (load_sets (files w)))))
    = Some n
    /\ dict_get n (fst (load_sets (files w))) = Some sounds
    /\ nth_error sounds 0 = Some sound
    /\ snd (run_engine key on_step stop_event w)
       = banner key w ++ snd (load_sets (files w))
         ++ [Print_line (MsgLoadedSets (keys (fst (load_sets (files w)))));
             Print_line (MsgSwitchedToSet n);
             Print_line (MsgPlaying n 1)]
         ++ match (if mixer_ready w then channel_at_entry w else None) with
            | Some _ => [Fadeout CROSSFADE_MS; Play sound (-1) CROSSFADE_MS]
            | None => [Play sound (-1) CROSSFADE_MS]
            end
         ++ [Print_line (MsgPressToAdvance (upper key))]
         ++ rest.
Proof.
  intros _ Hd Hne.
  destruct (run_engine_whole key on_step stop_event w Hd Hne)
    as (n & sounds & sound & e & t4 & Hnth & Hg & Hs0 & _ & _ & _ & _ & _
        & _ & Hrun).
  exists n, sounds, sound. rewrite Hrun. unfold startup_trace, finish.
  unfold crossfade, initial_engine, entry_engine. cbn [current_channel].
  destruct (loop_end on_step stop_event false (ticks w)) as [[|k]|x];
    [| |destruct x]; cbn [snd fst];
    eexists; (repeat (split; [eassumption|]));
    rewrite <- ?app_assoc; cbn [app]; rewrite <- ?app_assoc; reflexivity.
Qed.

Lemma run_starts_on_drawn_set_witness :
  exists n sounds sound rest,
    nth_error (keys (fst (load_sets (files restart_world))))
      (first_draw restart_world
         mod List.length (keys (fst (load_sets (files restart_world)))))
    = Some n
    /\ dict_get n (fst (load_sets (files restart_world))) = Some sounds
    /\ nth_error sounds 0 = Some sound
    /\ snd (run_engine "r" true true restart_world)
       = banner "r" restart_world ++ snd (load_sets (files restart_world))
         ++ [Print_line
               (MsgLoadedSets
                  (keys (fst (load_sets (files restart_world)))));
             Print_line (MsgSwitchedToSet n);
             Print_line (MsgPlaying n 1)]
         ++ [Fadeout CROSSFADE_MS; Play sound (-1) CROSSFADE_MS]
         ++ [Print_line (MsgPressToAdvance (upper "r"))]
         ++ rest.
Proof.
  apply (run_starts_on_drawn_set "r" true true restart_world).
  - reflexivity.
  - reflexivity.
  - discriminate.
Defined.

(** A run up to the end of a list of ticks that all let the loop go on,
    whatever ticks follow. *)
Lemma run_engine_prefix key on_step stop_event w pre :
  isdir (files w) SETS_PATH = true ->
  fst (load_sets (files w)) <> [] ->
  forallb (goes_on on_step stop_event) pre = true ->
  exists n sound e1 t1,
    playing (fst (load_sets (files w))) e1
    /\ calls t1 = presses false (samples_taken stop_event pre)
    /\ forall rest,
         run_engine key on_step stop_event (with_ticks w (pre ++ rest))
         = let '(r, e2, t2) :=
             main_loop (fst (load_sets (files w))) on_step key stop_event
               rest (List.last (samples_taken stop_event pre) false) e1 in
           finish r e2 ((startup_trace key w n sound ++ t1) ++ t2).
Proof.
  intros Hd Hne Hgo. pose proof (load_sets_ok (files w)) as [_ H3].
  destruct (run_engine_started key on_step stop_event (with_ticks w pre)
              Hd Hne)
    as (n & sounds & sound & Hnth & Hg & Hs0 & Hp & _).
  cbn [files first_draw with_ticks] in *.
  destruct (main_loop_playing _ H3 on_step key stop_event pre false _ Hp)
    as (e1 & t1 & Hloop & Hp1 & _ & _ & Hc & _).
  destruct (loop_end_goes_on on_step stop_event false pre [] Hgo)
    as (_ & Hpol & _ & Hend).
  rewrite Hend in Hloop. rewrite ?app_nil_r in Hpol. cbn [polled] in Hpol.
  rewrite ?app_nil_r in Hpol. rewrite Hpol in Hc.
  exists n, sound, e1, t1. split; [assumption|]. split; [assumption|].
  intros rest.
  destruct (run_engine_started key on_step stop_event
              (with_ticks w (pre ++ rest)) Hd Hne)
    as (n' & sounds' & sound' & Hnth' & Hg' & Hs0' & _ & Hrun).
  cbn [files first_draw ticks with_ticks] in *.
  assert (n' = n) by congruence. subst n'.
  assert (sounds' = sounds) by congruence. subst sounds'.
  assert (sound' = sound) by congruence. subst sound'.
  rewrite Hrun, (main_loop_app _ _ _ _ _ _ _ _ _ _ _ Hloop).
  destruct (main_loop _ on_step key stop_event rest _ e1) as [[r e2] t2].
  unfold startup_trace, initial_engine.
  cbn [files with_ticks banner mixer_ready channel_at_entry].
  rewrite <- !app_assoc. reflexivity.
Qed.

(** X11: with a stop event, the first tick that finds the flag set,
    after ticks that let the loop go on, ends the run as stopped: the
    trace ends with that check, then the [finally] block, which asks for
    a fade-out of 500 ms, waits that long and prints the last line.  The
    engine is left on a set of the library in one of its three states
    (whether the channel is silent by then is up to the mixer: the
    engine does not look at it again).  Neither the key sample of that
    tick nor any later tick matters. *)
Theorem stop_flag_is_honoured key on_step w pre :
  isdir (files w) SETS_PATH = true ->
  fst (load_sets (files w)) <> [] ->
  forallb (goes_on on_step true) pre = true ->
  exists e body,
    inv (fst (load_sets (files w))) e
    /\ current_set_name e <> None
    /\ calls body = presses false (samples_taken true pre)
    /\ forall is_pressed a post,
         run_engine key on_step true
           (with_ticks w (pre ++ Poll true is_pressed a :: post))
         = (Stopped e, body ++ Stop_is_set true :: fade_and_stop).
Proof.
  intros Hd Hne Hgo.
  destruct (run_engine_prefix key on_step true w pre Hd Hne Hgo)
    as (n & sound & e1 & t1 & Hp & Hc & Hrun).
  exists e1, (startup_trace key w n sound ++ t1).
  split; [now apply playing_inv|].
  split; [now apply (playing_chosen _ _ Hp)|]. split.
  - destruct (startup_counts key w n sound) as (_ & _ & S3 & _).
    now rewrite calls_app, S3.
  - intros is_pressed a post. rewrite Hrun, main_loop_poll. cbn [andb].
    unfold finish. rewrite (shutdown_playing _ _ Hp). cbn [fst snd].
    rewrite <- !app_assoc. reflexivity.
Qed.

Lemma stop_flag_is_honoured_witness :
  exists e body,
    inv (fst (load_sets (files demo_world))) e
    /\ current_set_name e <> None
    /\ calls body = presses false (samples_taken true [press 0; hold; release])
    /\ forall is_pressed a post,
         run_engine "r" true true
           (with_ticks demo_world
              ([press 0; hold; release] ++ Poll true is_pressed a :: post))
         = (Stopped e, body ++ Stop_is_set true :: fade_and_stop).
Proof.
  apply (stop_flag_is_honoured "r" true demo_world [press 0; hold; release]).
  - reflexivity.
  - discriminate.
  - reflexivity.
Defined.

(** X12: an interrupt arriving at the top of a pass, after ticks that let
    the loop go on, ends the run as stopped, with or without a stop
    event: the interrupt line is printed, then the [finally] block runs
    as for the stop flag (fade-out asked for, wait, last line), the
    engine being left on a set of the library in one of its three
    states; later ticks do not matter. *)
Theorem interrupt_stops_the_run key on_step stop_event w pre :
  isdir (files w) SETS_PATH = true ->
  fst (load_sets (files w)) <> [] ->
  forallb (goes_on on_step stop_event) pre = true ->
  exists e body,
    inv (fst (load_sets (files w))) e
    /\ current_set_name e <> None
    /\ calls body = presses false (samples_taken stop_event pre)
    /\ forall post,
         run_engine key on_step stop_event
           (with_ticks w (pre ++ Interrupt :: post))
         = (Stopped e,
            body ++ Print_line MsgKeyboardInterrupt :: fade_and_stop).
Proof.
  intros Hd Hne Hgo.
  destruct (run_engine_prefix key on_step stop_event w pre Hd Hne Hgo)
    as (n & sound & e1 & t1 & Hp & Hc & Hrun).
  exists e1, (startup_trace key w n sound ++ t1).
  split; [now apply playing_inv|].
  split; [now apply (playing_chosen _ _ Hp)|]. split.
  - destruct (startup_counts key w n sound) as (_ & _ & S3 & _).
    now rewrite calls_app, S3.
  - intros post. rewrite Hrun. cbn [main_loop]. unfold raise.
    unfold finish. rewrite (shutdown_playing _ _ Hp). cbn [fst snd].
    rewrite app_nil_r. reflexivity.
Qed.

Lemma interrupt_stops_the_run_witness :
  exists e body,
    inv (fst (load_sets (files demo_world))) e
    /\ current_set_name e <> None
    /\ calls body = presses false (samples_taken false [press 0; release])
    /\ forall post,
         run_engine "r" false false
           (with_ticks demo_world ([press 0; release] ++ Interrupt :: post))
         = (Stopped e,
            body ++ Print_line MsgKeyboardInterrupt :: fade_and_stop).
Proof.
  apply (interrupt_stops_the_run "r" false false demo_world
           [press 0; release]).
  - reflexivity.
  - discriminate.
  - reflexivity.
Defined.

(** ** What a run can emit *)

Lemma emits_ret {A} P (a : A) : emits P (ret a).
Proof. intros e. constructor. Qed.

Lemma emits_raise {A} P x : emits P (@raise A x).
Proof. intros e. constructor. Qed.

Lemma emits_lift {A} P (r : Result A) : emits P (lift r).
Proof. intros e. constructor. Qed.

Lemma emits_get P : emits P get.
Proof. intros e. constructor. Qed.

Lemma emits_set_current_state P s : emits P (set_current_state s).
Proof. intros e. constructor. Qed.

Lemma emits_set_current_set_name P n : emits P (set_current_set_name n).
Proof. intros e. constructor. Qed.

Lemma emits_emit (P : Event -> Prop) ev : P ev -> emits P (emit ev).
Proof. intros H e. repeat constructor. assumption. Qed.

Lemma emits_bind {A B} P (c : Prog A) (k : A -> Prog B) :
  emits P c -> (forall a, emits P (k a)) -> emits P (bind c k).
Proof.
  intros Hc Hk e. unfold bind. specialize (Hc e).
  destruct (c e) as [[[a|x] e1] t1]; cbn [snd] in *; [|assumption].
  specialize (Hk a e1). destruct (k a e1) as [[r e2] t2]. cbn [snd] in *.
  apply Forall_app. split; assumption.
Qed.

Create HintDb emits.
#[local] Hint Resolve emits_ret emits_raise emits_lift emits_get
  emits_set_current_state emits_set_current_set_name : emits.
#[local] Hint Extern 1 (emits _ (emit _)) =>
  (apply emits_emit; exact I) : emits.

(** Splits a sequence of statements, closing the parts already known. *)
Ltac emits_steps :=
  repeat first
    [ solve [auto with emits nocore]
    | match goal with
      | |- emits _ (bind _ _) => apply emits_bind; [|intro]
      end ].

Section ClosureEvents.

Variable music_sets : Library.

Lemma emits_play_loop_sound sound :
  (exists n sounds, dict_get n music_sets = Some sounds /\ In sound sounds) ->
  emits (closure_event music_sets) (play_loop_sound sound).
Proof.
  intros Hin e. rewrite play_loop_sound_run. cbn [snd].
  destruct (current_channel e); repeat constructor; assumption.
Qed.

Lemma emits_play_current_state :
  emits (closure_event music_sets) (play_current_state music_sets).
Proof.
  unfold play_current_state. apply emits_bind; [auto with emits|].
  intros e. destruct (current_set_name e) as [name|]; [|emits_steps].
  destruct (dict_get name music_sets) as [sounds|] eqn:Hg; [|emits_steps].
  destruct (_ && _)%bool; [|emits_steps].
  destruct (nth_error _ _) as [sound|] eqn:Hn; emits_steps.
  apply emits_play_loop_sound. exists name, sounds. split; [assumption|].
  eapply nth_error_In; eassumption.
Qed.
#[local] Hint Resolve emits_play_current_state : emits.

Lemma emits_start_set n : emits (closure_event music_sets) (start_set music_sets n).
Proof. unfold start_set. emits_steps. Qed.
#[local] Hint Resolve emits_start_set : emits.

Lemma emits_transition a name e0 :
  emits (closure_event music_sets) (transition music_sets a name e0).
Proof.
  unfold transition.
  destruct (_ =? 1)%Z; [|destruct (_ =? 2)%Z; [|destruct (_ =? 3)%Z]];
    emits_steps.
Qed.

Lemma closure_event_notify on_step r :
  Forall (closure_event music_sets) (notify_events on_step r).
Proof. destruct on_step, r; repeat constructor. Qed.

Lemma emits_advance_state on_step a :
  emits (closure_event music_sets) (advance_state music_sets on_step a).
Proof.
  intros e. rewrite advance_state_eq.
  destruct (current_set_name e) as [name|]; [|repeat constructor].
  pose proof (emits_transition a name e e) as Hq.
  destruct (transition music_sets a name e e) as [[[[]|x] e1] t1];
    cbn [snd] in *.
  - constructor; [exact I|]. apply Forall_app. split; [assumption|].
    apply closure_event_notify.
  - constructor; [exact I | assumption].
Qed.

(** The events of the loop are its own and those of [advance_state]. *)
Lemma main_loop_events on_step key stop_event ticks h e :
  Forall (fun ev => closure_event music_sets ev \/ loop_event ev = true)
    (snd (main_loop music_sets on_step key stop_event ticks h e)).
Proof.
  revert h e. induction ticks as [|[s p a|] rest IH]; intros h e;
    [constructor | | constructor].
  rewrite main_loop_poll.
  destruct (stop_event && s)%bool; [repeat constructor; now right|].
  cbv zeta.
  assert (Hpre : Forall (fun ev => closure_event music_sets ev
                                   \/ loop_event ev = true)
                   ((if stop_event then [Stop_is_set s] else [])
                      ++ [Is_pressed key p]))
    by (destruct stop_event; repeat constructor; now right).
  destruct (p && negb h)%bool.
  - pose proof (emits_advance_state on_step a e) as Ha.
    destruct (advance_state music_sets on_step a e) as [[[u|x] e1] t1];
      cbn [snd] in Ha.
    + specialize (IH true e1).
      destruct (main_loop music_sets on_step key stop_event rest true e1)
        as [[r e2] t2]. cbn [snd] in *.
      apply Forall_app. split; [exact Hpre|].
      apply Forall_app. split.
      * eapply Forall_impl; [|exact Ha]. intros ev H. now left.
      * constructor; [now right | assumption].
    + cbn [snd]. apply Forall_app. split; [assumption|].
      eapply Forall_impl; [|exact Ha]. intros ev H. now left.
  - specialize (IH p e).
    destruct (main_loop music_sets on_step key stop_event rest p e)
      as [[r e2] t2]. cbn [snd] in *.
    apply Forall_app. split; [assumption|].
    constructor; [now right | assumption].
Qed.

End ClosureEvents.

Lemma emits_weaken {A} (P Q : Event -> Prop) (c : Prog A) :
  (forall ev, P ev -> Q ev) -> emits P c -> emits Q c.
Proof. intros H Hc e. eapply Forall_impl; [exact H | apply Hc]. Qed.

Lemma closure_event_from_library lib ev :
  closure_event lib ev \/ loop_event ev = true \/ startup_event ev = true ->
  from_library lib ev.
Proof.
  destruct ev as [m| |ms|s l f|r|b|k b|ms|]; cbn; try tauto.
  - intros [H|[H|H]]; [left; exact H | discriminate H | discriminate H].
  - intros [H|[H|H]]; [exact H | discriminate H | discriminate H].
Qed.

Lemma from_library_shutdown lib e : Forall (from_library lib) (snd (shutdown e)).
Proof.
  rewrite shutdown_run. destruct (current_channel e).
  - constructor; [right; reflexivity|]. repeat (constructor; [exact I|]).
    constructor.
  - repeat (constructor; [exact I|]). constructor.
Qed.

(** X14: whatever the world answers, a run of [run_engine] only ever
    starts tracks of the loaded library, each with [loops = -1] and the
    crossfade time as fade-in, and only fades out over the crossfade time
    or the shutdown time. *)
Theorem run_plays_only_library_tracks key on_step stop_event w :
  Forall (from_library (fst (load_sets (files w))))
    (snd (run_engine key on_step stop_event w)).
Proof.
  assert (Hban : forall lib, Forall (from_library lib) (banner key w)).
  { intros lib. unfold banner.
    destruct (mixer_ready w); repeat (constructor; [exact I|]); constructor. }
  assert (Hload : forall lib,
            Forall (from_library lib) (snd (load_sets (files w)))).
  { intros lib. eapply Forall_impl;
      [|apply (scan_folders_prints (files w)
                 (listdir (files w) SETS_PATH) [])].
    intros ev H. apply closure_event_from_library. auto. }
  destruct (isdir (files w) SETS_PATH) eqn:Ed.
  2:{ rewrite run_engine_no_folder by assumption. cbn [snd].
      apply Forall_app. split; [apply Hban|].
      constructor; [exact I | constructor]. }
  rewrite run_engine_eq by assumption. cbv zeta.
  remember (fst (load_sets (files w))) as lib eqn:El.
  destruct lib as [|kv lib'].
  { cbn [snd]. apply Forall_app. split; [apply Hban|].
    apply Forall_app. split; [apply Hload|].
    constructor; [exact I | constructor]. }
  set (lib := kv :: lib') in *.
  assert (Hstart : emits (from_library lib)
                     (start_engine lib key (first_draw w))).
  { unfold start_engine. apply emits_bind; [apply emits_lift|]. intros n.
    apply emits_bind; [|intros _; apply emits_emit; exact I].
    apply (emits_weaken (closure_event lib)); [|apply emits_start_set].
    intros ev H. apply closure_event_from_library. auto. }
  specialize (Hstart (initial_engine w)).
  assert (Hpre : Forall (from_library lib)
                   (banner key w ++ snd (load_sets (files w))
                      ++ [Print_line (MsgLoadedSets (keys lib))])).
  { apply Forall_app. split; [apply Hban|].
    apply Forall_app. split; [apply Hload|].
    constructor; [exact I | constructor]. }
  destruct (start_engine lib key (first_draw w) (initial_engine w))
    as [[[u|x] e] t3]; cbn [snd] in Hstart.
  2:{ cbn [snd]. apply Forall_app. split; [exact Hpre | exact Hstart]. }
  pose proof (main_loop_events lib on_step key stop_event (ticks w) false e)
    as Hloop.
  destruct (main_loop lib on_step key stop_event (ticks w) false e)
    as [[r e'] t4]. cbn [snd] in Hloop.
  assert (Hbody : Forall (from_library lib)
                    ((banner key w ++ snd (load_sets (files w))
                        ++ [Print_line (MsgLoadedSets (keys lib))])
                       ++ t3 ++ t4)).
  { apply Forall_app. split; [exact Hpre|]. apply Forall_app. split.
    - exact Hstart.
    - eapply Forall_impl; [|exact Hloop].
      intros ev [H|H]; apply closure_event_from_library; auto. }
  unfold finish. destruct r as [[|k]|x]; [| |destruct x]; cbn [snd];
    try assumption;
    apply Forall_app; split; try assumption;
    try apply from_library_shutdown.
  constructor; [exact I | apply from_library_shutdown].
Qed.

(** X13: while no tick stops or interrupts it and no callback lets an
    exception through, the run is still in its loop: after the startup
    (in which a fade-out comes before the first track if the channel was
    found busy) the trace holds nothing but passes of the loop and what
    [advance_state] does, the channel has on it the track of the current
    state of the current set, and the latch is the last key sample.
    (The key is printed in upper case; it is taken to be ASCII.) *)
Theorem run_keeps_polling key on_step stop_event w :
  is_ascii key = true ->
  isdir (files w) SETS_PATH = true ->
  fst (load_sets (files w)) <> [] ->
  forallb (goes_on on_step stop_event) (ticks w) = true ->
  exists e n sound t4,
    run_engine key on_step stop_event w
    = (Running (List.last (samples_taken stop_event (ticks w)) false) e,
       startup_trace key w n sound ++ t4)
    /\ playing (fst (load_sets (files w))) e
    /\ Forall (fun ev => closure_event (fst (load_sets (files w))) ev
                         \/ loop_event ev = true) t4.
Proof.
  intros _ Hd Hne Hgo.
  destruct (run_engine_whole key on_step stop_event w Hd Hne)
    as (n & sounds & sound & e & t4 & _ & _ & _ & Hloop & Hp & _ & _ & _
        & _ & Hrun).
  destruct (loop_end_goes_on on_step stop_event false (ticks w) [] Hgo)
    as (_ & _ & _ & Hend).
  rewrite Hend in Hrun.
  exists e, n, sound, t4. split; [exact Hrun|]. split; [exact Hp|].
  pose proof (main_loop_events (fst (load_sets (files w))) on_step key
                stop_event (ticks w) false
                {| current_set_name := Some n; current_state := 1;
                   current_channel := Some sound |}) as Hev.
  now rewrite Hloop in Hev.
Qed.

Lemma run_keeps_polling_witness :
  exists e n sound t4,
    run_engine "r" true true (with_ticks restart_world [press 0; hold])
    = (Running
         (List.last (samples_taken true [press 0; hold]) false) e,
       startup_trace "r" (with_ticks restart_world [press 0; hold]) n sound
         ++ t4)
    /\ playing (fst (load_sets two_sets_fs)) e
    /\ Forall (fun ev => closure_event (fst (load_sets two_sets_fs)) ev
                         \/ loop_event ev = true) t4.
Proof.
  apply (run_keeps_polling "r" true true
           (with_ticks restart_world [press 0; hold])).
  - reflexivity.
  - reflexivity.
  - discriminate.
  - reflexivity.
Defined.

(** ** Stand-alone mode *)

(** X15: run stand-alone ([python main.py [key]]), the engine never looks
    at a stop flag and never calls back, and it ends as stopped only
    through an interrupt, whose line it then prints. *)
Theorem standalone_stops_only_by_interrupt argv w :
  stop_checks (snd (standalone argv w)) = []
  /\ notified (snd (standalone argv w)) = []
  /\ forall e,
       fst (standalone argv w) = Stopped e ->
       In Interrupt (ticks w)
       /\ In (Print_line MsgKeyboardInterrupt) (snd (standalone argv w)).
Proof.
  unfold standalone.
  set (key := match argv with _ :: k :: _ => lower k | _ => "r" end).
  assert (Hb : Forall (fun ev => startup_event ev = true) (banner key w))
    by (unfold banner; destruct (mixer_ready w); repeat constructor).
  pose proof (scan_folders_prints (files w) (listdir (files w) SETS_PATH) [])
    as Hl. fold (load_sets (files w)) in Hl.
  destruct (startup_events_silent _ Hb) as (_ & B2 & _ & B4).
  destruct (startup_events_silent _ Hl) as (_ & L2 & _ & L4).
  destruct (isdir (files w) SETS_PATH) eqn:Ed.
  2:{ rewrite run_engine_no_folder by assumption. cbn [fst snd].
      rewrite stop_checks_app, notified_app, B2, (stop_checks_none _ B4).
      repeat split; discriminate. }
  destruct (fst (load_sets (files w))) as [|kv lib'] eqn:El.
  { rewrite run_engine_eq by assumption. cbv zeta. rewrite El.
    cbn [fst snd].
    rewrite !stop_checks_app, !notified_app, B2, L2,
      (stop_checks_none _ B4), (stop_checks_none _ L4).
    repeat split; discriminate. }
  assert (Hne : fst (load_sets (files w)) <> []) by (rewrite El; discriminate).
  destruct (run_engine_whole key false false w Ed Hne)
    as (n & sounds & sound & e & t4 & _ & _ & _ & Hloop & Hp & _ & Hc2 & _
        & _ & Hrun).
  destruct (startup_counts key w n sound) as (_ & S2 & _ & S4).
  pose proof (main_loop_stop_checks (fst (load_sets (files w))) false key
                (ticks w) false
                {| current_set_name := Some n; current_state := 1;
                   current_channel := Some sound |}) as Hsc.
  rewrite Hloop in Hsc. cbn [snd] in Hsc.
  assert (Hn4 : notified t4 = [])
    by (destruct (notified t4); [reflexivity | discriminate]).
  rewrite Hrun. unfold finish. rewrite (shutdown_playing _ _ Hp).
  unfold fade_and_stop.
  destruct (loop_end false false false (ticks w)) as [[|k]|x] eqn:Eend.
  - now apply loop_end_no_event in Eend.
  - cbn [fst snd]. rewrite stop_checks_app, notified_app, S2, S4, Hsc, Hn4.
    repeat split; discriminate.
  - destruct (loop_end_raise _ _ _ _ _ Eend) as [[-> Hin]|[Hf _]];
      [|discriminate].
    cbn [fst snd].
    rewrite !stop_checks_app, !notified_app, S2, S4, Hsc, Hn4.
    split; [reflexivity|]. split; [reflexivity|].
    intros e0 _. split; [assumption|].
    apply in_or_app. right. now left.
Qed.

Lemma standalone_stops_only_by_interrupt_witness :
  In Interrupt [press 0; Interrupt]
  /\ In (Print_line MsgKeyboardInterrupt)
       (snd (standalone ["main.py"; "Q"]
               (with_ticks demo_world [press 0; Interrupt]))).
Proof.
  apply (proj2 (proj2 (standalone_stops_only_by_interrupt ["main.py"; "Q"]
                         (with_ticks demo_world [press 0; Interrupt])))
           {| current_set_name := Some "A"; current_state := 2;
              current_channel := Some (SoundOf "sets/A/a2.WAV") |}).
  reflexivity.
Defined.

(** ** The loop as a sequence of presses *)

Lemma closure_events_app t1 t2 :
  closure_events (t1 ++ t2) = closure_events t1 ++ closure_events t2.
Proof. apply filter_app. Qed.

Lemma closure_events_id tr :
  Forall (fun ev => loop_event ev = false) tr -> closure_events tr = tr.
Proof.
  intros H. apply forallb_filter_id. apply forallb_forall.
  rewrite Forall_forall in H. intros ev Hin. now rewrite (H ev Hin).
Qed.

(** X16: the main loop does to the engine exactly what calling
    [advance_state] once per press does, with the answers of the ticks at
    which the key went down: the engine state at the end is the same, and
    so is everything printed, played and called back, in order (also when
    a call raises). *)
Theorem loop_is_advance_per_press lib on_step key stop_event ticks key_held e :
  snd (fst (main_loop lib on_step key stop_event ticks key_held e))
  = snd (fst (advances lib on_step
                (edge_answers stop_event key_held ticks) e))
  /\ closure_events
       (snd (main_loop lib on_step key stop_event ticks key_held e))
     = snd (advances lib on_step (edge_answers stop_event key_held ticks) e).
Proof.
  revert key_held e.
  induction ticks as [|[s p a|] rest IH]; intros h e;
    [split; reflexivity | | split; reflexivity].
  rewrite main_loop_poll. cbn [edge_answers].
  destruct (stop_event && s)%bool eqn:Es; [split; reflexivity|].
  cbv zeta.
  assert (Hpre : forall tr,
            closure_events
              (((if stop_event then [Stop_is_set s] else [])
                  ++ [Is_pressed key p]) ++ tr)
            = closure_events tr)
    by (intros tr; destruct stop_event; reflexivity).
  destruct (p && negb h)%bool.
  - cbn [advances]. unfold bind.
    destruct (advance_state_body lib on_step a e) as [Hb _].
    destruct (advance_state lib on_step a e) as [[[u|x] e1] t1];
      cbn [snd] in Hb.
    + destruct (IH true e1) as [IH1 IH2].
      destruct (main_loop lib on_step key stop_event rest true e1)
        as [[r e2] t2].
      destruct (advances lib on_step (edge_answers stop_event true rest) e1)
        as [[r' e3] t3].
      cbn [fst snd] in *. split; [assumption|].
      rewrite Hpre, closure_events_app, (closure_events_id _ Hb).
      cbn [closure_events filter loop_event negb]. fold (closure_events t2).
      now rewrite IH2.
    + cbn [fst snd]. split; [reflexivity|].
      rewrite Hpre. now apply closure_events_id.
  - destruct (IH p e) as [IH1 IH2].
    destruct (main_loop lib on_step key stop_event rest p e) as [[r e2] t2].
    cbn [fst snd] in *. split; [assumption|].
    rewrite Hpre. cbn [closure_events filter loop_event negb].
    fold (closure_events t2). assumption.
Qed.

(** ** The window's engine control *)

Module MusicAppFacts.
Import MusicApp.

Lemma consistent_act a s : consistent s -> consistent (fst (act a s)).
Proof.
  intros (H1 & H2 & H3 & H4 & H5).
  destruct a as [alive|alive|]; cbn [act].
  - unfold start_engine.
    destruct (engine_thread s && alive)%bool; cbn [fst].
    + unfold consistent. tauto.
    + unfold consistent. cbn. split; [split; eauto|].
      split; [auto|]. split; [discriminate|]. split; [discriminate|lia].
  - unfold stop_engine, consistent. cbn.
    split; [split; [discriminate|intros [key Hk]; discriminate]|].
    split; [discriminate|]. split; [|split; [discriminate|assumption]].
    destruct (engine_thread s && alive)%bool eqn:E.
    + apply andb_true_iff in E. tauto.
    + intros Hf. apply H3 in Hf. tauto.
  - unfold on_engine_step, consistent. cbn.
    split; [assumption|]. split; [assumption|]. split; [assumption|].
    split; [assumption|lia].
Qed.

Lemma consistent_init : consistent init.
Proof.
  repeat split; cbn; try discriminate; try lia.
  intros [key Hk]. discriminate.
Qed.

(** X17: whatever is clicked, in whatever order, and whenever the engine
    calls back, the window's attributes stay consistent: the circle runs
    exactly while the label says running, a running label means a started
    thread with a clear stop flag, a set stop flag means a started thread
    under the label stopped, and the press counter is never negative. *)
Theorem control_stays_consistent actions :
  consistent (fst (run actions init)).
Proof.
  assert (H : forall s, consistent s -> consistent (fst (run actions s))).
  { induction actions as [|a actions IH]; intros s Hs; [exact Hs|].
    cbn [run]. pose proof (consistent_act a s Hs) as Ha.
    destruct (act a s) as [s1 t1]. cbn [fst] in Ha.
    specialize (IH s1 Ha). destruct (run actions s1) as [s2 t2].
    exact IH. }
  apply H, consistent_init.
Qed.

Lemma run_cons a rest s :
  run (a :: rest) s
  = (fst (run rest (fst (act a s))),
     snd (act a s) ++ snd (run rest (fst (act a s)))).
Proof.
  cbn [run]. destruct (act a s) as [s1 t1]. cbn [fst snd].
  now destruct (run rest s1).
Qed.

Lemma wallpaper_changes_app t1 t2 :
  wallpaper_changes (t1 ++ t2) = wallpaper_changes t1 + wallpaper_changes t2.
Proof. unfold wallpaper_changes. now rewrite filter_app, length_app. Qed.

Lemma third_step n :
  ((n + 1) / 3 - n / 3 = if (n + 1) mod 3 =? 0 then 1 else 0)%Z.
Proof.
  pose proof (Z.div_mod n 3 ltac:(lia)) as Hn.
  pose proof (Z.div_mod (n + 1) 3 ltac:(lia)) as Hm.
  pose proof (Z.mod_pos_bound n 3 ltac:(lia)) as Bn.
  pose proof (Z.mod_pos_bound (n + 1) 3 ltac:(lia)) as Bm.
  destruct ((n + 1) mod 3 =? 0)%Z eqn:E.
  - apply Z.eqb_eq in E. lia.
  - apply Z.eqb_neq in E. lia.
Qed.

Lemma engine_steps n s :
  press_count (fst (run (repeat Engine_step n) s))
  = (press_count s + Z.of_nat n)%Z
  /\ Z.of_nat (wallpaper_changes (snd (run (repeat Engine_step n) s)))
     = ((press_count s + Z.of_nat n) / 3 - press_count s / 3)%Z.
Proof.
  revert s. induction n as [|n IH]; intros s.
  - cbn. split; [lia|]. rewrite Z.add_0_r. lia.
  - cbn [repeat]. rewrite run_cons. cbn [fst snd act].
    destruct (IH (fst (on_engine_step s))) as [IH1 IH2].
    rewrite IH1, wallpaper_changes_app, Nat2Z.inj_add, IH2.
    unfold on_engine_step. cbn [fst snd press_count].
    split; [lia|].
    pose proof (third_step (press_count s)) as H3.
    rewrite Nat2Z.inj_succ.
    replace (press_count s + Z.succ (Z.of_nat n))%Z
      with (press_count s + 1 + Z.of_nat n)%Z by lia.
    destruct ((press_count s + 1) mod 3 =? 0)%Z;
      cbn [wallpaper_changes filter List.length]; lia.
Qed.

Lemma engine_steps_after_start n s :
  press_count s = 0%Z ->
  press_count (fst (run (repeat Engine_step n) s)) = Z.of_nat n
  /\ wallpaper_changes (snd (run (repeat Engine_step n) s)) = n / 3.
Proof.
  intros H0. destruct (engine_steps n s) as [H1 H2].
  rewrite H0 in H1, H2. split; [exact H1|].
  apply Nat2Z.inj. rewrite H2, Nat2Z.inj_div. cbn. now rewrite Z.sub_0_r.
Qed.

(** X18: the press counter counts the callbacks, and a wallpaper change is
    scheduled at each callback that brings the counter to a multiple of
    3: after [n] callbacks from a counter [c], the counter is [c + n] and
    [(c + n) / 3 - c / 3] changes have been scheduled, so [n / 3] after a
    start, which resets the counter. *)
Theorem wallpaper_every_third_press n s :
  press_count (fst (run (repeat Engine_step n) s))
  = (press_count s + Z.of_nat n)%Z
  /\ Z.of_nat (wallpaper_changes (snd (run (repeat Engine_step n) s)))
     = ((press_count s + Z.of_nat n) / 3 - press_count s / 3)%Z
  /\ forall is_alive,
       (engine_thread s && is_alive)%bool = false ->
       wallpaper_changes
         (snd (run (Click_start is_alive :: repeat Engine_step n) s))
       = n / 3.
Proof.
  destruct (engine_steps n s) as [H1 H2].
  split; [exact H1|]. split; [exact H2|].
  intros is_alive Hdead. rewrite run_cons. cbn [fst snd act].
  unfold start_engine. rewrite Hdead. cbn [fst snd].
  rewrite wallpaper_changes_app. cbn [wallpaper_changes filter List.length].
  rewrite Nat.add_0_l. now apply engine_steps_after_start.
Qed.

Lemma wallpaper_every_third_press_witness :
  wallpaper_changes
    (snd (run (Click_start false :: repeat Engine_step 7) init))
  = 7 / 3.
Proof.
  apply (proj2 (proj2 (wallpaper_every_third_press 7 init)) false).
  reflexivity.
Defined.

(** X19: a click on Start does nothing at all while the thread of the
    previous engine is still alive, for instance right after a click on
    Stop, during the shutdown fade: the label stays "stopped", the stop
    flag stays set, and no thread is started.  Once that thread is dead,
    Start starts an engine on the lower-cased selected key with the flag
    cleared and the counter reset. *)
Theorem start_waits_for_the_old_thread s :
  engine_thread s = true ->
  (run [Click_stop true; Click_start true] s
   = (fst (stop_engine true s), [])
   /\ engine_stop_event (fst (stop_engine true s)) = true
   /\ status_label (fst (stop_engine true s)) = Status_stopped)
  /\ run [Click_stop true; Click_start false] s
     = ({| engine_thread := true;
           engine_stop_event := false;
           press_count := 0;
           selected_key := selected_key s;
           status_label := Status_running (upper (lower (selected_key s)));
           circle_running := true |},
        [Thread_start (lower (selected_key s))]).
Proof.
  intros Ht. cbn [run act]. unfold stop_engine, start_engine.
  cbn [fst engine_thread selected_key engine_stop_event status_label].
  rewrite Ht. cbn. repeat split.
Qed.

Lemma start_waits_for_the_old_thread_witness :
  run [Click_stop true; Click_start true]
    (fst (start_engine false init))
  = (fst (stop_engine true (fst (start_engine false init))), []).
Proof.
  apply (proj1 (proj1 (start_waits_for_the_old_thread
                         (fst (start_engine false init)) eq_refl))).
Defined.

Lemma callbacks_repeat tr :
  callbacks tr = repeat Engine_step (List.length (notified tr)).
Proof.
  unfold callbacks. induction (notified tr) as [|r l IH]; [reflexivity|].
  cbn. now rewrite IH.
Qed.

(** X20: the window and its engine together: when a click on Start
    starts an engine that gets past the loading and whose callbacks
    return, the press counter ends at the number of continuous presses
    among the key samples taken before the run is stopped, and one
    wallpaper change has been scheduled for every third of them. *)
Theorem wallpaper_every_third_continuous_press is_alive w s :
  (engine_thread s && is_alive)%bool = false ->
  isdir (files w) SETS_PATH = true ->
  fst (load_sets (files w)) <> [] ->
  Forall (fun r => r = Returned)
    (notified (snd (run_engine (lower (selected_key s)) true true w))) ->
  press_count (fst (session is_alive w s))
  = Z.of_nat (presses false (samples_taken true (ticks w)))
  /\ wallpaper_changes (snd (session is_alive w s))
     = presses false (samples_taken true (ticks w)) / 3.
Proof.
  intros Hdead Hd Hne Hret.
  unfold session, start_engine. rewrite Hdead.
  rewrite callbacks_repeat.
  assert (Hn : List.length
                 (notified (snd (run_engine (lower (selected_key s))
                                   true true w)))
               = presses false (samples_taken true (ticks w))).
  { destruct (run_engine_whole (lower (selected_key s)) true true w Hd Hne)
      as (n & sounds & sound & e & t4 & _ & _ & _ & _ & _
          & _ & Hc2 & Hc3 & Hc4 & Hrun).
    destruct (startup_counts (lower (selected_key s)) w n sound)
      as (_ & S2 & _ & _).
    destruct (finish_counts (loop_end true true false (ticks w)) e
                (startup_trace (lower (selected_key s)) w n sound ++ t4))
      as (_ & F2 & _).
    rewrite Hrun, F2, notified_app, S2 in Hret |- *. cbn [app] in *.
    rewrite Hc2, Hc3, Hc4; [reflexivity|].
    intros b Hb. rewrite Forall_forall in Hret.
    specialize (Hret _ Hb). discriminate. }
  rewrite Hn.
  match goal with
  | |- context [run _ ?s1] =>
      destruct (engine_steps_after_start
                  (presses false (samples_taken true (ticks w))) s1
                  eq_refl) as [H1 H2];
      destruct (run (repeat Engine_step
                       (presses false (samples_taken true (ticks w)))) s1)
        as [s2 t2]
  end.
  cbn [fst snd] in *. split; [exact H1|].
  rewrite wallpaper_changes_app. cbn [wallpaper_changes filter List.length].
  exact H2.
Qed.

Lemma wallpaper_every_third_continuous_press_witness :
  press_count (fst (session false demo_world init))
  = Z.of_nat (presses false (samples_taken true (ticks demo_world)))
  /\ wallpaper_changes (snd (session false demo_world init))
     = presses false (samples_taken true (ticks demo_world)) / 3.
Proof.
  apply (wallpaper_every_third_continuous_press false demo_world init).
  - reflexivity.
  - reflexivity.
  - vm_compute. discriminate.
  - vm_compute. repeat constructor.
Defined.

End MusicAppFacts.

(** ** The choice of a wallpaper *)

Lemma lower_append a b :
  lower (String.append a b) = String.append (lower a) (lower b).
Proof. induction a as [|c a IH]; simpl; [reflexivity | now rewrite IH]. Qed.

Lemma string_append_assoc a b c :
  String.append (String.append a b) c = String.append a (String.append b c).
Proof. induction a as [|x a IH]; simpl; [reflexivity | now rewrite IH]. Qed.

Lemma endswith_append p s suffix :
  endswith s suffix = true -> endswith (String.append p s) suffix = true.
Proof.
  rewrite !endswith_iff. intros [q ->]. exists (String.append p q).
  now rewrite string_append_assoc.
Qed.

Lemma last_char_append p s :
  s <> EmptyString -> last_char (String.append p s) = last_char s.
Proof.
  intros Hs. induction p as [|c p IH]; [reflexivity|].
  cbn [String.append last_char]. rewrite IH.
  destruct (String.append p s) eqn:E; [|reflexivity].
  destruct p; [cbn in E; contradiction | discriminate].
Qed.

Lemma endswith_last s suffix :
  endswith s suffix = true -> suffix <> EmptyString ->
  last_char s = last_char suffix.
Proof.
  rewrite endswith_iff. intros [p ->] Hs. now apply last_char_append.
Qed.

Lemma endswith_any_iff s suffixes :
  endswith_any s suffixes = true
  <-> exists x, In x suffixes /\ endswith s x = true.
Proof. apply existsb_exists. Qed.

Lemma endswith_any_append p s suffixes :
  endswith_any s suffixes = true ->
  endswith_any (String.append p s) suffixes = true.
Proof.
  rewrite !endswith_any_iff. intros (x & Hx & He).
  exists x. split; [assumption | now apply endswith_append].
Qed.

(** The three kinds of extension differ by their last character. *)
Lemma wallpaper_kind_by_last s x y :
  In x wallpaper_exts -> In y wallpaper_exts ->
  endswith s x = true -> endswith s y = true ->
  (In x image_exts <-> In y image_exts)
  /\ (x = ".gif" <-> y = ".gif").
Proof.
  intros Hx Hy Ex Ey.
  assert (Hl : last_char x = last_char y).
  { rewrite <- (endswith_last s x Ex), <- (endswith_last s y Ey);
      [reflexivity| |];
      intros ->; cbn in Hx, Hy; intuition discriminate. }
  cbn in Hx, Hy.
  repeat (destruct Hx as [<-|Hx]); try contradiction;
    repeat (destruct Hy as [<-|Hy]); try contradiction;
    try discriminate Hl;
    cbn; (split; split; intros H; intuition (try discriminate; auto)).
Qed.

Lemma wallpaper_mode_of_file f :
  endswith_any (lower f) wallpaper_exts = true ->
  match wallpaper_mode_of (path_join WALLPAPER_DIR f) with
  | Mode_image => endswith_any (lower f) image_exts = true
  | Mode_gif => endswith (lower f) ".gif" = true
  | Mode_video => endswith_any (lower f) video_exts = true
  end.
Proof.
  intros Hf. pose proof Hf as Hf0.
  apply endswith_any_iff in Hf as (x & Hx & Ex).
  unfold wallpaper_mode_of, path_join.
  rewrite <- string_append_assoc, lower_append.
  set (pre := lower (String.append WALLPAPER_DIR "/")).
  pose proof (endswith_append pre _ _ Ex) as Ex'.
  destruct (endswith_any (String.append pre (lower f)) image_exts) eqn:E1.
  - apply endswith_any_iff in E1 as (y & Hy & Ey).
    assert (Hy' : In y wallpaper_exts) by (cbn in Hy |- *; tauto).
    destruct (wallpaper_kind_by_last _ x y Hx Hy' Ex' Ey) as [Hi _].
    apply endswith_any_iff. exists x. split; [now apply Hi | assumption].
  - destruct (endswith (String.append pre (lower f)) ".gif") eqn:E2.
    + assert (Hy' : In ".gif" wallpaper_exts) by (cbn; tauto).
      destruct (wallpaper_kind_by_last _ x ".gif" Hx Hy' Ex' E2) as [_ Hg].
      now rewrite <- (proj2 Hg eq_refl).
    + apply endswith_any_iff. exists x. split; [|assumption].
      cbn in Hx. cbn.
      destruct Hx as [<-|[<-|[<-|[<-|Hx]]]]; [| | | |tauto].
      * exfalso. assert (H : endswith_any (String.append pre (lower f))
                               image_exts = true)
          by (apply endswith_any_iff; exists ".png"; cbn; tauto).
        congruence.
      * exfalso. assert (H : endswith_any (String.append pre (lower f))
                               image_exts = true)
          by (apply endswith_any_iff; exists ".jpg"; cbn; tauto).
        congruence.
      * exfalso. assert (H : endswith_any (String.append pre (lower f))
                               image_exts = true)
          by (apply endswith_any_iff; exists ".jpeg"; cbn; tauto).
        congruence.
      * congruence.
Qed.

Lemma load_random_wallpaper_eq fs dec d :
  isdir fs WALLPAPER_DIR = true ->
  forall f rest,
    filter (fun f => endswith_any (lower f) wallpaper_exts)
      (listdir fs WALLPAPER_DIR) = f :: rest ->
    exists g,
      In g (listdir fs WALLPAPER_DIR)
      /\ endswith_any (lower g) wallpaper_exts = true
      /\ load_random_wallpaper fs dec d
         = match wallpaper_mode_of (path_join WALLPAPER_DIR g) with
           | Mode_image =>
               if image_opens dec (path_join WALLPAPER_DIR g)
               then Wp_loaded (path_join WALLPAPER_DIR g) Mode_image
                      Mode_image
               else Wp_decoder_raised (path_join WALLPAPER_DIR g) Mode_image
           | Mode_gif =>
               let '(returned, mode) :=
                 load_gif dec (path_join WALLPAPER_DIR g) in
               if returned : bool
               then Wp_loaded (path_join WALLPAPER_DIR g) mode Mode_gif
               else Wp_decoder_raised (path_join WALLPAPER_DIR g) mode
           | Mode_video =>
               Wp_loaded (path_join WALLPAPER_DIR g)
                 (load_video dec (path_join WALLPAPER_DIR g)) Mode_video
           end.
Proof.
  intros Hd f rest Hf. unfold load_random_wallpaper. rewrite Hd, Hf.
  cbn [negb map].
  assert (Hlt : d mod List.length (f :: rest) < List.length (f :: rest))
    by (apply Nat.mod_upper_bound; discriminate).
  destruct (nth_error (f :: rest) (d mod List.length (f :: rest)))
    as [g|] eqn:Eg; [|apply nth_error_None in Eg; lia].
  exists g.
  assert (Hg : In g (filter (fun f => endswith_any (lower f) wallpaper_exts)
                       (listdir fs WALLPAPER_DIR)))
    by (rewrite Hf; eapply nth_error_In; eassumption).
  apply filter_In in Hg. destruct Hg as [Hin Hext].
  split; [assumption|]. split; [assumption|].
  change (path_join WALLPAPER_DIR f :: map (path_join WALLPAPER_DIR) rest)
    with (map (path_join WALLPAPER_DIR) (f :: rest)).
  rewrite length_map, nth_error_map, Eg. reflexivity.
Qed.

(** X21: the wallpaper that [_load_random_wallpaper] ends up with is a
    file of the wallpaper folder, and the line it prints goes by the
    extension of the file's name, whatever its case, although the test
    is made on the whole lower-cased path: "Static image" for .png, .jpg
    and .jpeg, "GIF" for .gif, and "VIDEO" only for .mp4, .mov, .avi,
    .mkv and .webm.  The mode it leaves is that kind unless the decoder
    fell back: a GIF without a frame is shown as the still image it
    opens as, and a video that does not open or gives no first frame as
    a (black) still image, while the line printed still says GIF or
    VIDEO.  (The names in the folder are taken to be ASCII.) *)
Theorem wallpaper_mode_by_extension fs dec d wallpaper_path mode printed :
  Forall (fun f => is_ascii f = true) (listdir fs WALLPAPER_DIR) ->
  load_random_wallpaper fs dec d = Wp_loaded wallpaper_path mode printed ->
  exists f,
    In f (listdir fs WALLPAPER_DIR)
    /\ wallpaper_path = path_join WALLPAPER_DIR f
    /\ match printed with
       | Mode_image =>
           endswith_any (lower f) image_exts = true
           /\ mode = Mode_image
           /\ image_opens dec wallpaper_path = true
       | Mode_gif =>
           endswith (lower f) ".gif" = true
           /\ ((mode = Mode_gif
                /\ exists n, gif_frames dec wallpaper_path = Some (S n))
               \/ (mode = Mode_image
                   /\ gif_frames dec wallpaper_path = Some 0
                   /\ image_opens dec wallpaper_path = true))
       | Mode_video =>
           endswith_any (lower f) video_exts = true
           /\ mode = (if (video_opens dec wallpaper_path
                          && video_reads dec wallpaper_path)%bool
                      then Mode_video else Mode_image)
       end.
Proof.
  intros _ H.
  destruct (isdir fs WALLPAPER_DIR) eqn:Hd;
    [|unfold load_random_wallpaper in H; rewrite Hd in H; discriminate].
  destruct (filter (fun f => endswith_any (lower f) wallpaper_exts)
              (listdir fs WALLPAPER_DIR)) as [|f rest] eqn:Hf;
    [unfold load_random_wallpaper in H; rewrite Hd, Hf in H; discriminate|].
  destruct (load_random_wallpaper_eq fs dec d Hd f rest Hf)
    as (g & Hin & Hext & Hrun).
  rewrite Hrun in H. clear Hrun.
  pose proof (wallpaper_mode_of_file g Hext) as Hmode.
  exists g. split; [assumption|].
  destruct (wallpaper_mode_of (path_join WALLPAPER_DIR g)).
  - destruct (image_opens dec (path_join WALLPAPER_DIR g)) eqn:Ei;
      [|discriminate].
    injection H as <- <- <-. auto.
  - unfold load_gif in H.
    destruct (gif_frames dec (path_join WALLPAPER_DIR g)) as [[|n]|] eqn:Eg;
      [| |discriminate].
    + destruct (image_opens dec (path_join WALLPAPER_DIR g)) eqn:Ei;
        [|discriminate].
      injection H as <- <- <-. split; [reflexivity|].
      split; [assumption|]. right. auto.
    + injection H as <- <- <-. split; [reflexivity|].
      split; [assumption|]. left. eauto.
  - injection H as <- <- <-. split; [reflexivity|].
    split; [assumption|]. unfold load_video.
    destruct (video_opens dec (path_join WALLPAPER_DIR g)); [|reflexivity].
    destruct (video_reads dec (path_join WALLPAPER_DIR g)); reflexivity.
Qed.

Lemma wallpaper_mode_by_extension_witness :
  exists f,
    In f (listdir wallpapers_fs WALLPAPER_DIR)
    /\ "wallpapers/rain.mp4" = path_join WALLPAPER_DIR f
    /\ endswith_any (lower f) video_exts = true
    /\ Mode_image
       = (if (video_opens wallpapers_dec "wallpapers/rain.mp4"
              && video_reads wallpapers_dec "wallpapers/rain.mp4")%bool
          then Mode_video else Mode_image).
Proof.
  apply (wallpaper_mode_by_extension wallpapers_fs wallpapers_dec 1
           "wallpapers/rain.mp4" Mode_image Mode_video).
  - repeat constructor.
  - reflexivity.
Defined.

(** X22: [_load_random_wallpaper] gets to a file, which it then loads or
    whose decoder raises, exactly when the wallpaper folder exists and
    lists a file whose lower-cased name ends in one of the nine
    extensions; without the folder it raises the error that names the
    folder, and with a folder that has no such file the error that no
    wallpaper was found, in both cases before it assigns anything.  (The
    names in the folder are taken to be ASCII.) *)
Theorem wallpaper_found_iff fs dec d :
  Forall (fun f => is_ascii f = true) (listdir fs WALLPAPER_DIR) ->
  ((exists wallpaper_path mode,
       (exists printed,
           load_random_wallpaper fs dec d
           = Wp_loaded wallpaper_path mode printed)
       \/ load_random_wallpaper fs dec d
          = Wp_decoder_raised wallpaper_path mode)
   <-> isdir fs WALLPAPER_DIR = true
       /\ exists f, In f (listdir fs WALLPAPER_DIR)
                    /\ endswith_any (lower f) wallpaper_exts = true)
  /\ (load_random_wallpaper fs dec d
      = Wp_error (No_wallpapers_folder WALLPAPER_DIR)
      <-> isdir fs WALLPAPER_DIR = false)
  /\ (load_random_wallpaper fs dec d = Wp_error No_wallpapers_found
      <-> isdir fs WALLPAPER_DIR = true
          /\ forall f, In f (listdir fs WALLPAPER_DIR) ->
                       endswith_any (lower f) wallpaper_exts = false).
Proof.
  intros _.
  destruct (isdir fs WALLPAPER_DIR) eqn:Hd.
  - destruct (filter (fun f => endswith_any (lower f) wallpaper_exts)
                (listdir fs WALLPAPER_DIR)) as [|f rest] eqn:Hf.
    + assert (Hrun : load_random_wallpaper fs dec d
                     = Wp_error No_wallpapers_found)
        by (unfold load_random_wallpaper; now rewrite Hd, Hf).
      assert (Hnone : forall f, In f (listdir fs WALLPAPER_DIR) ->
                        endswith_any (lower f) wallpaper_exts = false).
      { intros f Hin.
        destruct (endswith_any (lower f) wallpaper_exts) eqn:E;
          [|reflexivity].
        assert (Hx : In f []) by (rewrite <- Hf; apply filter_In; auto).
        destruct Hx. }
      rewrite Hrun. split; [|split].
      * split.
        -- intros (p & m & [[pr H]|H]); discriminate.
        -- intros (_ & f & Hin & He). rewrite (Hnone f Hin) in He.
           discriminate.
      * split; discriminate.
      * split; auto.
    + destruct (load_random_wallpaper_eq fs dec d Hd f rest Hf)
        as (g & Hin & Hext & Hrun).
      assert (Hgot : exists wallpaper_path mode,
                 (exists printed,
                     load_random_wallpaper fs dec d
                     = Wp_loaded wallpaper_path mode printed)
                 \/ load_random_wallpaper fs dec d
                    = Wp_decoder_raised wallpaper_path mode).
      { rewrite Hrun.
        destruct (wallpaper_mode_of (path_join WALLPAPER_DIR g)).
        - destruct (image_opens dec (path_join WALLPAPER_DIR g)); eauto.
        - destruct (load_gif dec (path_join WALLPAPER_DIR g)) as [[] mode];
            eauto.
        - eauto. }
      split; [|split].
      * split; [|intros _; exact Hgot]. intros _.
        split; [reflexivity|]. eauto.
      * destruct Hgot as (p & m & [[pr H]|H]); rewrite H;
          split; discriminate.
      * destruct Hgot as (p & m & [[pr H]|H]); rewrite H;
          (split; [discriminate|]); intros (_ & Hnone);
          rewrite (Hnone g Hin) in Hext; discriminate.
  - assert (Hrun : load_random_wallpaper fs dec d
                   = Wp_error (No_wallpapers_folder WALLPAPER_DIR))
      by (unfold load_random_wallpaper; now rewrite Hd).
    rewrite Hrun. split; [|split].
    + split.
      * intros (p & m & [[pr H]|H]); discriminate.
      * intros (H & _). discriminate.
    + split; reflexivity.
    + split; [discriminate|]. intros (H & _). discriminate.
Qed.

Lemma wallpaper_found_iff_witness :
  isdir wallpapers_fs WALLPAPER_DIR = true
  /\ exists f, In f (listdir wallpapers_fs WALLPAPER_DIR)
               /\ endswith_any (lower f) wallpaper_exts = true.
Proof.
  destruct (wallpaper_found_iff wallpapers_fs wallpapers_dec 0) as [H _].
  - repeat constructor.
  - apply H. exists "wallpapers/Night.PNG", Mode_image. left.
    exists Mode_image. reflexivity.
Defined.
